(** * Duet: a shallow embedding of the orchestration core

    The development embeds the control core of the two-agent orchestrator
    (decision by debate, the joint driver/navigator loop, the convergence
    loop, guardrails and the final apply step, worktree acquisition and the
    tolerant JSON extraction) and proves the properties its specification
    states about them.

    Modelling conventions.
    - A JavaScript string is a [string]: a sequence of code units below 256.
      The ECMAScript line terminators and white space that exist in that
      range are LF, CR, TAB, VT, FF, SPACE and NBSP.
    - A JavaScript number that the code uses as a counter, a ceiling or an
      exit code is a [Z].
    - A path is the list of its segments below the file-system root;
      [path.join] appends segments, [path.dirname] drops the last one.
    - The file system is a finite map from paths to nodes.  The primitives
      of Node's [fs] module change it and raise the errors that depend on it
      (a path component that is a regular file, a write onto a directory, a
      missing directory).  Other input-output failures are not modelled.
    - External processes (the agents, git, diff, patch, the test command) are
      one oracle [spawn]: it may change the file system and its own hidden
      state in any way and may fail to start.
    - Effectful functions live in a state-and-exception monad over [World];
      the world also keeps the trace of the effects the orchestrator itself
      performed. *)

From Stdlib Require Import ZArith Ascii String List Bool Lia.
From Stdlib Require Import DecimalString DecimalZ.
From Stdlib Require Import Sorted Permutation.
From stdpp Require Import gmap strings list fin_maps.

Local Open Scope Z_scope.
Set Warnings "-register-all".

(** ** ECMAScript string builtins used by the sources *)

Module JS.

(** White space and line terminators in the modelled range: what
    [String.prototype.trim] strips and what the regular expression class
    [\s] matches. *)
Definition isSpace (c : ascii) : bool :=
  match nat_of_ascii c with
  | 9%nat | 10%nat | 11%nat | 12%nat | 13%nat | 32%nat | 160%nat => true
  | _ => false
  end.

(** What the regular expression [.] refuses. *)
Definition isLineTerminator (c : ascii) : bool :=
  match nat_of_ascii c with
  | 10%nat | 13%nat => true
  | _ => false
  end.

Fixpoint trimStart (s : string) : string :=
  match s with
  | String c r => if isSpace c then trimStart r else s
  | EmptyString => EmptyString
  end.

Definition trimEnd (s : string) : string :=
  String.rev (trimStart (String.rev s)).

Definition trim (s : string) : string := trimEnd (trimStart s).

(** Truthiness of a string: non-empty. *)
Definition nonEmpty (s : string) : bool :=
  match s with EmptyString => false | _ => true end.

Fixpoint startsWith (s p : string) {struct p} : bool :=
  match p, s with
  | EmptyString, _ => true
  | String a p', String b s' => if Ascii.eqb a b then startsWith s' p' else false
  | String _ _, EmptyString => false
  end.

Fixpoint drop (n : nat) (s : string) : string :=
  match n, s with
  | O, _ => s
  | S n', String _ r => drop n' r
  | S _, EmptyString => EmptyString
  end.

Fixpoint take (n : nat) (s : string) : string :=
  match n, s with
  | O, _ => EmptyString
  | S n', String c r => String c (take n' r)
  | S _, EmptyString => EmptyString
  end.

(** [s.slice(i, j)] for [0 <= i], [0 <= j]. *)
Definition slice (s : string) (i j : nat) : string := take (j - i) (drop i s).

(** [s.indexOf(p)]: the first position where [p] occurs. *)
Fixpoint indexOf (s p : string) : option nat :=
  if startsWith s p then Some O
  else match s with
       | EmptyString => None
       | String _ r => option_map S (indexOf r p)
       end.

(** [s.lastIndexOf(p)]: the last position where [p] occurs. *)
Fixpoint lastIndexOf (s p : string) : option nat :=
  match s with
  | EmptyString => if startsWith s p then Some O else None
  | String _ r =>
      match lastIndexOf r p with
      | Some i => Some (S i)
      | None => if startsWith s p then Some O else None
      end
  end.

Definition includes (s p : string) : bool :=
  match indexOf s p with Some _ => true | None => false end.

(** [s.split(c)] for a one-character separator. *)
Fixpoint splitOn (c : ascii) (s : string) : list string :=
  match s with
  | EmptyString => [EmptyString]
  | String a r =>
      if Ascii.eqb a c then EmptyString :: splitOn c r
      else match splitOn c r with
           | x :: xs => String a x :: xs
           | [] => [String a EmptyString]
           end
  end.

(** [l.join(sep)]. *)
Definition join (sep : string) (l : list string) : string := String.concat sep l.

(** [s.replaceAll(a, b)] for one-character [a] and [b]. *)
Fixpoint replaceChar (a b : ascii) (s : string) : string :=
  match s with
  | EmptyString => EmptyString
  | String c r => String (if Ascii.eqb c a then b else c) (replaceChar a b r)
  end.

(** [s.split(p).join(r)]: every occurrence of the non-empty [p], found
    from the left without overlap, becomes [r]. *)
Fixpoint replaceAllFuel (fuel : nat) (p r s : string) : string :=
  match fuel with
  | O => s
  | S fuel' =>
      match s with
      | EmptyString => EmptyString
      | String c t =>
          if startsWith s p
          then r +:+ replaceAllFuel fuel' p r (drop (String.length p) s)
          else String c (replaceAllFuel fuel' p r t)
      end
  end.

Definition replaceAll (p r s : string) : string :=
  match p with
  | EmptyString => s
  | _ => replaceAllFuel (S (String.length s)) p r s
  end.

Definition toLowerChar (c : ascii) : ascii :=
  let n := nat_of_ascii c in
  if (65 <=? n)%nat && (n <=? 90)%nat then ascii_of_nat (n + 32) else c.

Fixpoint toLowerCase (s : string) : string :=
  match s with
  | EmptyString => EmptyString
  | String c r => String (toLowerChar c) (toLowerCase r)
  end.

(** The decimal rendering of an integer, as a template literal prints a
    number that is an integer. *)
Definition showZ (z : Z) : string := NilEmpty.string_of_int (Z.to_int z).

Definition LF : ascii := ascii_of_nat 10.
Definition TAB : ascii := ascii_of_nat 9.
Definition nl : string := String LF EmptyString.

End JS.

(** ** JSON values, as [JSON.parse] produces them *)

Inductive json : Type :=
| JNull
| JBool (b : bool)
| JNum (n : Z)
| JStr (s : string)
| JArr (items : list json)
| JObj (fields : list (string * json)).

Module Json.

(** [Boolean(v)]. *)
Definition truthy (v : json) : bool :=
  match v with
  | JNull => false
  | JBool b => b
  | JNum n => negb (n =? 0)
  | JStr s => JS.nonEmpty s
  | JArr _ | JObj _ => true
  end.

(** Truthiness of a value that may be [undefined]. *)
Definition truthyOpt (v : option json) : bool :=
  match v with Some x => truthy x | None => false end.

Fixpoint lookupField (k : string) (fields : list (string * json)) : option json :=
  match fields with
  | [] => None
  | (k', v) :: rest => if String.eqb k k' then Some v else lookupField k rest
  end.

(** [v.k] for a value [v] that is neither [null] nor [undefined] and a key
    that no prototype defines: only an object has it. *)
Definition getProp (v : json) (k : string) : option json :=
  match v with
  | JObj fields => lookupField k fields
  | _ => None
  end.

(** [a === b] for the results of two separate parses: primitives compare
    by value, arrays and objects are distinct allocations. *)
Definition strictEq (a b : json) : bool :=
  match a, b with
  | JNull, JNull => true
  | JBool x, JBool y => Bool.eqb x y
  | JNum x, JNum y => x =? y
  | JStr x, JStr y => String.eqb x y
  | _, _ => false
  end.

(** [String(v)], the conversion a template literal and [toString()] apply
    (objects without a [toString] property of their own). *)
Fixpoint toStr (v : json) : string :=
  match v with
  | JNull => "null"
  | JBool true => "true"
  | JBool false => "false"
  | JNum n => JS.showZ n
  | JStr s => s
  | JArr items =>
      JS.join "," (List.map (fun x => match x with JNull => "" | _ => toStr x end) items)
  | JObj _ => "[object Object]"
  end.

(** A template literal slot holding a value that may be [undefined]. *)
Definition show (v : option json) : string :=
  match v with Some x => toStr x | None => "undefined" end.

End Json.

(** ** Configuration (types.ts) *)

Inductive AgentName := codex | claude.

Inductive Winner := WAgent (a : AgentName) | neither.

Inductive DecisionMode := judge | debate | prefer_codex | prefer_claude | mode_neither.

Inductive PromptMode := pm_stdin | pm_file | pm_arg.

Record AgentConfig := {
  ac_command : string;
  ac_args : list string;
  ac_promptMode : option PromptMode;
  ac_env : option (list (string * string)) }.

Record DecisionConfig := {
  dc_mode : DecisionMode;
  dc_judgeAgent : option AgentName;
  dc_debateRounds : option Z }.

Inductive Reviewer := rv_codex | rv_claude | rv_both.

Record ReviewConfig := { rc_enabled : bool; rc_reviewer : Reviewer }.

Record CommandConfig := {
  cc_enabled : option bool;
  cc_command : string;
  cc_args : option (list string) }.

Inductive ImplementationMode := parallel | joint.
Inductive DriverSetting := drv_auto | drv_agent (a : AgentName).
Inductive ApplyMode := apply_auto | apply_manual.

Record ImplementationConfig := {
  ic_mode : option ImplementationMode;
  ic_driver : option DriverSetting;
  ic_maxRounds : option Z;
  ic_applyNavigatorPatch : option ApplyMode;
  ic_testsDuringLoop : option bool;
  ic_swapDriverOnFail : option bool;
  ic_swapDriverEachRound : option bool }.

Record ConvergeConfig := { cv_enabled : option bool; cv_maxRounds : option Z }.

Record GuardrailsConfig := {
  g_enabled : option bool;
  g_maxFilesChanged : option Z;
  g_maxLinesAdded : option Z;
  g_maxLinesRemoved : option Z;
  g_forbiddenPaths : option (list string);
  g_forbidDependencyChanges : option bool;
  g_dependencyFiles : option (list string) }.

Record Config := {
  agent_codex : AgentConfig;
  agent_claude : AgentConfig;
  decision : option DecisionConfig;
  review : option ReviewConfig;
  tests : option CommandConfig;
  implementation : option ImplementationConfig;
  converge : option ConvergeConfig;
  guardrails : option GuardrailsConfig }.

Record RunContext := {
  sessionId : string;
  runId : string;
  task : string;
  runMode : option string }.

(** [winner] and [rationale] are declared [AgentName | "neither"] and
    [string]; the decision phase fills them from parsed agent output through
    an unchecked cast, so at run time they hold whatever JSON value the agent
    printed.  The record keeps that value. *)
Record Decision := {
  d_mode : DecisionMode;
  d_winner : json;
  d_rationale : json;
  d_judgeAgent : option AgentName;
  d_executionDriver : option AgentName }.

(** [a ?? b]. *)
Definition orElse {A} (a : option A) (b : A) : A :=
  match a with Some x => x | None => b end.
Infix "??" := orElse (at level 45, left associativity).

(** An optional boolean in a condition: [undefined] is falsy. *)
Definition isTrue (b : option bool) : bool := b ?? false.

Definition agentName (a : AgentName) : string :=
  match a with codex => "codex" | claude => "claude" end.

Definition agents (c : Config) (a : AgentName) : AgentConfig :=
  match a with codex => agent_codex c | claude => agent_claude c end.

(** The declared type of a JSON value used as an agent name. *)
Definition asAgentName (v : json) : option AgentName :=
  match v with
  | JStr s => if String.eqb s "codex" then Some codex
              else if String.eqb s "claude" then Some claude else None
  | _ => None
  end.

(** [decision.winner === "neither"]. *)
Definition winnerIsNeither (d : Decision) : bool :=
  Json.strictEq (d_winner d) (JStr "neither").

(** ** Pure helpers of the orchestrator *)

Definition otherAgent (agent : AgentName) : AgentName :=
  match agent with codex => claude | claude => codex end.

(** [resolveDriver]; [None] marks a winner outside its declared type being
    returned as an agent name. *)
Definition resolveDriver (configured : option DriverSetting) (d : Decision)
  : option AgentName :=
  match d_executionDriver d with
  | Some a => Some a
  | None =>
      match configured with
      | Some (drv_agent a) => Some a
      | _ => if negb (winnerIsNeither d) then asAgentName (d_winner d)
             else Some codex
      end
  end.

Definition formatAgentOutput (stdout stderr : string) : string :=
  if JS.nonEmpty (JS.trim stdout) then stdout
  else if JS.nonEmpty (JS.trim stderr) then stderr else "".

(** The maximal white-space prefix of a string. *)
Fixpoint spanSpace (s : string) : string :=
  match s with
  | String c r => if JS.isSpace c then String c (spanSpace r) else EmptyString
  | EmptyString => EmptyString
  end.

(** [text.replace(/\s+\n/g, "\n")]: at a white-space run, the greedy [\s+]
    backs off to the last line feed of the run that is not its first
    character. *)
Fixpoint collapseBeforeNewline (fuel : nat) (s : string) : string :=
  match fuel with
  | O => s
  | S fuel' =>
      match s with
      | EmptyString => EmptyString
      | String c r =>
          if JS.isSpace c then
            match JS.lastIndexOf (JS.drop 1 (spanSpace s)) JS.nl with
            | Some j => JS.nl +:+ collapseBeforeNewline fuel' (JS.drop (j + 2) s)
            | None => String c (collapseBeforeNewline fuel' r)
            end
          else String c (collapseBeforeNewline fuel' r)
      end
  end.

Definition truncateInline (text : string) (maxChars : Z) : string :=
  let normalized := JS.trim (collapseBeforeNewline (S (String.length text)) text) in
  if maxChars <=? 0 then ""
  else if Z.of_nat (String.length normalized) <=? maxChars then normalized
  else JS.take (Z.to_nat maxChars) normalized +:+ " ".

Record DiffStats := { added : Z; removed : Z }.

(** [summarizeDiff]: the loop over the lines, with its two counters. *)
Definition summarizeDiff (diff : string) : DiffStats :=
  fold_left
    (fun st line =>
       if JS.startsWith line "+++ " || JS.startsWith line "--- " then st
       else if JS.startsWith line "+" then {| added := added st + 1; removed := removed st |}
       else if JS.startsWith line "-" then {| added := added st; removed := removed st + 1 |}
       else st)
    (JS.splitOn JS.LF diff) {| added := 0; removed := 0 |}.

(** *** Paths *)

(** A path: the segments below the root. *)
Abbreviation path := (list string).

Definition showPath (p : path) : string := "/" +:+ JS.join "/" p.
Definition dirname (p : path) : path := removelast p.
Definition basenameOf (p : path) : string := List.last p "".

(** [path.basename] on a path given as text: the last non-empty segment. *)
Definition basename (s : string) : string :=
  List.last (List.filter JS.nonEmpty (JS.splitOn "/" s)) "".

(** *** Globs *)

(** The regular expressions [globToRegExp] builds: a sequence of literal
    characters and [.*], anchored at both ends. *)
Inductive GlobAtom := Lit (c : ascii) | AnyChars.
Abbreviation RegExp := (list GlobAtom).

Fixpoint chars (s : string) : list ascii :=
  match s with
  | EmptyString => []
  | String c r => c :: chars r
  end.

(** Every character other than the star is escaped where the regular
    expression syntax gives it a meaning, so it stands for itself. *)
Definition globToRegExp (glob : string) : RegExp :=
  List.map (fun ch => if Ascii.eqb ch "*" then AnyChars else Lit ch) (chars glob).

(** [re.test(target)] for such an expression: [.*] takes any run of
    characters that are not line terminators. *)
Fixpoint regExpTest (re : RegExp) (target : string) : bool :=
  match re with
  | [] => negb (JS.nonEmpty target)
  | Lit c :: re' =>
      match target with
      | String d t => Ascii.eqb c d && regExpTest re' t
      | EmptyString => false
      end
  | AnyChars :: re' =>
      (fix star (t : string) : bool :=
         regExpTest re' t ||
         match t with
         | String d t' => negb (JS.isLineTerminator d) && star t'
         | EmptyString => false
         end) target
  end.

Definition matchesGlob (glob relPath : string) : bool :=
  let normalized := JS.replaceChar "\" "/" relPath in
  let target := if JS.includes glob "/" then normalized else basename normalized in
  regExpTest (globToRegExp glob) target.

(** *** Changed files of a diff *)

(** The first element equal to nothing earlier: the insertion order of a
    [Set]. *)
Fixpoint dedup (l : list string) (seen : list string) : list string :=
  match l with
  | [] => []
  | x :: r => if existsb (String.eqb x) seen then dedup r seen
              else x :: dedup r (x :: seen)
  end.

Fixpoint insertSorted (x : string) (l : list string) : list string :=
  match l with
  | [] => [x]
  | y :: r => if String.leb x y then x :: l else y :: insertSorted x r
  end.

(** [Array.prototype.sort()] on strings: ascending code-unit order. *)
Definition sortStrings (l : list string) : list string :=
  fold_right insertSorted [] l.

Definition hasLineTerminator (s : string) : bool :=
  existsb JS.isLineTerminator (chars s).

(** The second group of [/^diff --git a\/(.+?) b\/(.+)$/]: the text after
    the first [" b/"] that leaves a non-empty first group, when that text is
    not empty and the line holds no line terminator. *)
Definition matchDiffGit (line : string) : option string :=
  if JS.startsWith line "diff --git a/" then
    let t := JS.drop 13 line in
    if hasLineTerminator t then None
    else match JS.indexOf (JS.drop 1 t) " b/" with
         | Some k =>
             let rest := JS.drop (k + 4) t in
             if JS.nonEmpty rest then Some rest else None
         | None => None
         end
  else None.

Definition extractChangedFilesFromDiff (diff rootDir worktreeDir : string)
  : list string :=
  let strip (value : string) : string :=
    let p := JS.trim value in
    let p := if JS.includes p (String JS.TAB "")
             then List.hd p (JS.splitOn JS.TAB p) else p in
    let p := if JS.startsWith p "a/" || JS.startsWith p "b/" then JS.drop 2 p else p in
    let p := fold_left
               (fun p pre =>
                  if JS.startsWith p pre then
                    let p := JS.drop (String.length pre) p in
                    if JS.startsWith p "/" then JS.drop 1 p else p
                  else p)
               [rootDir; worktreeDir] p in
    JS.trim (JS.replaceChar "\" "/" p) in
  let files :=
    fold_left
      (fun files line =>
         if JS.startsWith line "diff --git " then
           match matchDiffGit line with
           | Some g2 => files ++ [strip g2]
           | None => files
           end
         else if JS.startsWith line "diff -ruN " then
           let parts := List.filter JS.nonEmpty (JS.splitOn " " line) in
           let left := nth_error parts 2 in
           let right := nth_error parts 3 in
           let pick :=
             match right with
             | Some r => if negb (String.eqb r "/dev/null") then right else left
             | None => left
             end in
           match pick with
           | Some f => if negb (String.eqb f "/dev/null") then files ++ [strip f] else files
           | None => files
           end
         else if JS.startsWith line "+++ " || JS.startsWith line "--- " then
           let raw := JS.trim (JS.drop 4 line) in
           if String.eqb raw "/dev/null" then files else files ++ [strip raw]
         else files)
      (JS.splitOn JS.LF diff) [] in
  sortStrings (List.filter JS.nonEmpty (dedup files [])).

(** *** Guardrails *)

Definition builtinDependencyFiles : list string :=
  ["package.json"; "package-lock.json"; "pnpm-lock.yaml"; "yarn.lock";
   "bun.lockb"; "Cargo.toml"; "Cargo.lock"; "pyproject.toml"; "poetry.lock";
   "requirements.txt"; "go.mod"; "go.sum"].

Definition lengthZ {A} (l : list A) : Z := Z.of_nat (List.length l).

(** [evaluateGuardrails]: the violation list grows by [push], rule after
    rule. *)
Definition evaluateGuardrails (config : Config) (changedFiles : list string)
    (stats : DiffStats) : list string :=
  match guardrails config with
  | None => []
  | Some g =>
      if negb (isTrue (g_enabled g)) then []
      else
        let violations : list string := [] in
        let maxFiles := g_maxFilesChanged g ?? 50 in
        let maxAdded := g_maxLinesAdded g ?? 2000 in
        let maxRemoved := g_maxLinesRemoved g ?? 2000 in
        let violations :=
          if lengthZ changedFiles >? maxFiles
          then violations ++
               ["Too many files changed (" +:+ JS.showZ (lengthZ changedFiles)
                +:+ " > " +:+ JS.showZ maxFiles +:+ ")."]
          else violations in
        let violations :=
          if added stats >? maxAdded
          then violations ++
               ["Too many lines added (" +:+ JS.showZ (added stats)
                +:+ " > " +:+ JS.showZ maxAdded +:+ ")."]
          else violations in
        let violations :=
          if removed stats >? maxRemoved
          then violations ++
               ["Too many lines removed (" +:+ JS.showZ (removed stats)
                +:+ " > " +:+ JS.showZ maxRemoved +:+ ")."]
          else violations in
        let forbidden := List.filter JS.nonEmpty (g_forbiddenPaths g ?? []) in
        let violations :=
          if lengthZ forbidden >? 0 then
            let hit := List.filter
                         (fun f => existsb (fun pat => matchesGlob pat f) forbidden)
                         changedFiles in
            if lengthZ hit >? 0
            then violations ++
                 ["Forbidden paths changed: " +:+ JS.join ", " (firstn 10 hit)
                  +:+ (if lengthZ hit >? 10 then " " else "")]
            else violations
          else violations in
        let violations :=
          if isTrue (g_forbidDependencyChanges g) then
            let depFiles :=
              List.filter JS.nonEmpty
                (List.map JS.trim (g_dependencyFiles g ?? builtinDependencyFiles)) in
            let depHits := List.filter
                             (fun f => existsb (String.eqb f) depFiles)
                             changedFiles in
            if lengthZ depHits >? 0
            then violations ++
                 ["Dependency files changed (not allowed): " +:+ JS.join ", " depHits]
            else violations
          else violations in
        violations
  end.

(** ** The world: file system, external state, effect trace *)

Inductive node := File (content : string) | Dir.

Abbreviation FS := (gmap path node).

Inductive exn :=
| Error (msg : string)               (* [throw new Error(msg)] in the sources *)
| FsError (code : string) (p : path) (* raised by a primitive of [fs] *)
| SpawnError (msg : string)          (* the child process could not start *)
| TypeError (msg : string).          (* a value outside its declared type was used *)

Record RunOptions := {
  ro_command : string;
  ro_args : list string;
  ro_cwd : path;
  ro_env : list (string * string);
  ro_stdin : option string;
  ro_stdoutPath : option path;
  ro_stderrPath : option path;
  ro_captureStdout : bool;
  ro_captureStderr : bool;
  ro_timeoutMs : option Z }.

Record RunResult := { exitCode : Z; stdout : string; stderr : string; timedOut : bool }.

(** What a finished child process reports: the exit code ([None] when a
    signal killed it), whether the timeout fired, and its two streams. *)
Record ProcExit := {
  pe_code : option Z;
  pe_timedOut : bool;
  pe_stdout : string;
  pe_stderr : string }.

Record TranscriptEvent := {
  te_timestamp : string;
  te_phase : string;
  te_role : string;
  te_agent : option AgentName;
  te_kind : string;
  te_content : string;
  te_round : option Z }.

(** The effects the orchestrator performs, in the order it performs them. *)
Inductive Effect :=
| EMkdir (p : path)
| EWrite (p : path) (content : string)
| EAppend (p : path) (content : string)
| ECopy (src dst : path)
| ERemove (p : path)
| ESpawn (o : RunOptions)
| EStdout (text : string).

Inductive Result (A : Type) :=
| Ok (a : A)
| Throw (e : exn)
| OutOfFuel.
Arguments Ok {A} a.
Arguments Throw {A} e.
Arguments OutOfFuel {A}.

Module Fs.

Definition isDir (fs : FS) (p : path) : bool :=
  match p with
  | [] => true
  | _ => match fs !! p with Some Dir => true | _ => false end
  end.

Definition existsSync (fs : FS) (p : path) : bool :=
  match p with
  | [] => true
  | _ => match fs !! p with Some _ => true | None => false end
  end.

(** The non-empty prefixes of a path, shortest first. *)
Fixpoint prefixes (p : path) : list path :=
  match p with
  | [] => []
  | x :: r => [x] :: List.map (cons x) (prefixes r)
  end.

(** [fs.mkdirSync(p, {recursive: true})]: creates the missing components;
    fails on a component that is a regular file. *)
Definition mkdirp (fs : FS) (p : path) : exn + FS :=
  fold_left
    (fun acc q =>
       match acc with
       | inl e => inl e
       | inr fs =>
           match fs !! q with
           | Some Dir => inr fs
           | Some (File _) =>
               inl (FsError (if decide (q = p) then "EEXIST" else "ENOTDIR") q)
           | None => inr (<[q := Dir]> fs)
           end
       end)
    (prefixes p) (inr fs).

(** [fs.writeFileSync(p, content)]. *)
Definition writeFile (fs : FS) (p : path) (content : string) : exn + FS :=
  match fs !! p with
  | Some Dir => inl (FsError "EISDIR" p)
  | _ => if isDir fs (dirname p) && negb (bool_decide (p = []))
         then inr (<[p := File content]> fs)
         else inl (FsError "ENOENT" p)
  end.

(** [fs.appendFileSync(p, content)]. *)
Definition appendFile (fs : FS) (p : path) (content : string) : exn + FS :=
  match fs !! p with
  | Some Dir => inl (FsError "EISDIR" p)
  | Some (File old) => inr (<[p := File (old +:+ content)]> fs)
  | None => if isDir fs (dirname p) && negb (bool_decide (p = []))
            then inr (<[p := File content]> fs)
            else inl (FsError "ENOENT" p)
  end.

(** [fs.readFileSync(p, "utf8")]. *)
Definition readFile (fs : FS) (p : path) : exn + string :=
  match fs !! p with
  | Some (File c) => inr c
  | Some Dir => inl (FsError "EISDIR" p)
  | None => inl (FsError (if decide (p = []) then "EISDIR" else "ENOENT") p)
  end.

(** The part of [q] below [p], when [q] lies at or below [p]. *)
Fixpoint below (p q : path) : option path :=
  match p, q with
  | [], _ => Some q
  | x :: p', y :: q' => if String.eqb x y then below p' q' else None
  | _ :: _, [] => None
  end.

(** [fs.readdirSync(d, {withFileTypes: true})]: the entries right under
    [d], each with its kind. *)
Definition readdir (fs : FS) (d : path) : exn + list (string * node) :=
  if isDir fs d then
    inr (omap (fun '(q, n) =>
                 match below d q with
                 | Some [name] => Some (name, n)
                 | _ => None
                 end) (map_to_list fs))
  else inl (FsError (if existsSync fs d then "ENOTDIR" else "ENOENT") d).

(** [fs.rmSync(p, {recursive: true, force: true})]. *)
Definition rm (fs : FS) (p : path) : FS :=
  filter (fun '(q, _) => below p q = None) fs.

(** [fs.cpSync(src, dst, {recursive: true, force: true, filter})]: every
    node at or below [src] that the filter keeps (with all the nodes on
    the way down to it) is written at the same place below [dst]; a file
    replaces a file, a directory merges into a directory. *)
Definition cp (fs : FS) (src dst : path) (keep : path -> bool) : exn + FS :=
  if negb (existsSync fs src) then inl (FsError "ENOENT" src)
  else
    fold_left
      (fun acc '(q, n) =>
         match acc with
         | inl e => inl e
         | inr out =>
             match below src q with
             | Some rel =>
                 if forallb keep (List.map (app src) (prefixes rel)) && keep src
                 then
                   match n, out !! (dst ++ rel) with
                   | Dir, Some (File _) =>
                       inl (FsError "ERR_FS_CP_DIR_TO_NON_DIR" (dst ++ rel))
                   | File _, Some Dir =>
                       inl (FsError "ERR_FS_CP_NON_DIR_TO_DIR" (dst ++ rel))
                   | _, _ => inr (<[dst ++ rel := n]> out)
                   end
                 else inr out
             | None => inr out
             end
         end)
      (map_to_list fs) (inr fs).

End Fs.

Record AgentMeta := { am_version : option string; am_capabilities : option (list string) }.

Record TranscriptStreamOptions := { ts_jsonl : bool; ts_ui : bool }.

(** How one iteration of a [for] loop ends: it falls through to the next
    one, or it leaves the loop by [break]. *)
Inductive LoopStep (S : Type) :=
| Continue (s : S)
| Break (s : S).
Arguments Continue {S} s.
Arguments Break {S} s.

(** One debate round as the loop saw it: its number and the two parsed
    judgments.  The loops below keep the list of the rounds they ran next to
    their variables; the list is never read by the code. *)
Record DebateRound := { dr_round : Z; dr_codexPick : json; dr_claudePick : json }.

(** One round of the joint loop as the loop saw it: the roles it ran with,
    the navigator's patch, whether the patch was applied and the last test
    exit code of the round. *)
Record JointRound := {
  jr_round : Z;
  jr_driver : AgentName;
  jr_navigator : AgentName;
  jr_navigatorPatch : string;
  jr_applied : bool;
  jr_testExit : option Z }.

Record ReviewIssue := {
  ri_id : string;
  ri_summary : string;
  ri_file : option string;
  ri_suggested_fix : option string }.

Record ReviewSummary := {
  blockers : list ReviewIssue;
  warnings : list ReviewIssue;
  notes : string }.

(** The arguments of [runDecisionPhase]. *)
Record DecideArgs := {
  da_config : Config;
  da_context : RunContext;
  da_runDir : path;
  da_overrideMode : option DecisionMode;
  da_agentMeta : AgentName -> AgentMeta;
  da_sharedContext : option string;
  da_analysisWorktrees : AgentName -> option path;
  da_transcriptStream : TranscriptStreamOptions;
  da_timeoutMs : option Z }.

(** The arguments of [runImplementationPhaseJoint]; [runConvergePhase] takes
    the same ones without the execution plan. *)
Record PhaseArgs := {
  pa_config : Config;
  pa_context : RunContext;
  pa_runDir : path;
  pa_decision : Decision;
  pa_isGit : bool;
  pa_rootDir : path;
  pa_agentMeta : AgentName -> AgentMeta;
  pa_sharedContext : string;
  pa_executionPlan : string;
  pa_transcriptStream : TranscriptStreamOptions;
  pa_timeoutMs : option Z }.

(** The world: the file system, the hidden state of everything outside the
    orchestrator, and the trace of the orchestrator's own effects. *)
Record World (Ext : Type) := {
  w_fs : FS;
  w_ext : Ext;
  w_trace : list Effect }.
Arguments w_fs {Ext} w.
Arguments w_ext {Ext} w.
Arguments w_trace {Ext} w.

(** One round of the convergence loop as the loop saw it: the roles it ran
    with, the review it ended with and the last test exit code. *)
Record ConvergeRound := {
  cr_round : Z;
  cr_fixer : AgentName;
  cr_critic : AgentName;
  cr_review : ReviewSummary;
  cr_testExit : option Z }.

(** What the environment provides.
    - [JSON.parse] ([None]: it throws) and the two uses of [JSON.stringify]:
      compact, and indented by two.
    - The behaviour of a child process ([inl]: it failed to start) and the
      clock, both over the hidden state [Ext] of everything outside the
      orchestrator.
    - The prompt texts and the terminal rendering: they only feed the
      agents and the console, the control flow never inspects them.
    - [process.cwd()]. *)
Record Env (Ext : Type) := {
  env_JSON_parse : string -> option json;
  env_JSON_stringify : json -> string;
  env_JSON_pretty : json -> string;
  env_spawn : RunOptions -> FS -> Ext -> (string + ProcExit) * FS * Ext;
  env_now : Ext -> string * Ext;
  env_buildJudgePrompt :
    RunContext -> string -> string -> string -> string -> option string -> string -> string;
  env_buildJudgeDebatePrompt :
    RunContext -> string -> string -> string -> string -> option string ->
    string * string -> string;
  env_buildJointDriverPrompt :
    RunContext -> Decision -> AgentName -> AgentName -> string -> string ->
    string -> string -> string -> option Z -> Z -> Z -> string;
  env_buildJointNavigatorPrompt :
    RunContext -> Decision -> AgentName -> AgentName -> string -> string ->
    string -> option Z -> Z -> Z -> string;
  env_buildConvergeFixPrompt :
    RunContext -> Decision -> AgentName -> AgentName -> string -> string ->
    ReviewSummary -> list string -> DiffStats -> option Z -> Z -> Z -> string;
  env_buildReviewPrompt : RunContext -> string -> string -> string -> string;
  env_renderUi : TranscriptEvent -> string;
  env_processCwd : path }.
Arguments env_JSON_parse {Ext} e.
Arguments env_JSON_stringify {Ext} e.
Arguments env_JSON_pretty {Ext} e.
Arguments env_spawn {Ext} e.
Arguments env_now {Ext} e.
Arguments env_buildJudgePrompt {Ext} e.
Arguments env_buildJudgeDebatePrompt {Ext} e.
Arguments env_buildJointDriverPrompt {Ext} e.
Arguments env_buildJointNavigatorPrompt {Ext} e.
Arguments env_buildConvergeFixPrompt {Ext} e.
Arguments env_buildReviewPrompt {Ext} e.
Arguments env_renderUi {Ext} e.
Arguments env_processCwd {Ext} e.

(** ** A concrete environment

    The properties below hold for every environment.  To run the model on
    concrete inputs this module fixes one: a reader for the fragment of JSON
    with integer numbers, a printer, a clock that stands still, constant
    prompts, and child processes that follow a script (each call takes the
    next scripted exit and leaves the file system alone). *)

Module Sample.

Definition dquote : ascii := ascii_of_nat 34.

Definition isJsonSpace (c : ascii) : bool :=
  match nat_of_ascii c with
  | 9%nat | 10%nat | 13%nat | 32%nat => true
  | _ => false
  end.

Fixpoint skipSpace (s : list ascii) : list ascii :=
  match s with
  | c :: r => if isJsonSpace c then skipSpace r else s
  | [] => []
  end.

Definition isDigit (c : ascii) : bool :=
  let n := nat_of_ascii c in (48 <=? n)%nat && (n <=? 57)%nat.

Fixpoint readDigits (s : list ascii) (acc : Z) : Z * list ascii :=
  match s with
  | c :: r => if isDigit c then readDigits r (10 * acc + Z.of_nat (nat_of_ascii c - 48))
              else (acc, s)
  | [] => (acc, [])
  end.

(** The characters of a string literal after its opening quote. *)
Fixpoint readString (s : list ascii) (acc : string) : option (string * list ascii) :=
  match s with
  | [] => None
  | c :: r =>
      if Ascii.eqb c dquote then Some (String.rev acc, r)
      else if Ascii.eqb c "\" then
        match r with
        | e :: r' =>
            if Ascii.eqb e "n" then readString r' (String JS.LF acc)
            else if Ascii.eqb e "t" then readString r' (String JS.TAB acc)
            else if Ascii.eqb e dquote || Ascii.eqb e "\" || Ascii.eqb e "/"
            then readString r' (String e acc)
            else None
        | [] => None
        end
      else if (nat_of_ascii c <? 32)%nat then None
      else readString r (String c acc)
  end.

Definition readNumber (s : list ascii) : option (json * list ascii) :=
  let '(neg, body) :=
    match s with
    | c :: r => if Ascii.eqb c "-" then (true, r) else (false, s)
    | [] => (false, s)
    end in
  match body with
  | d :: r =>
      if isDigit d then
        if Ascii.eqb d "0" && match r with d' :: _ => isDigit d' | [] => false end
        then None
        else
          let '(n, rest) := readDigits body 0 in
          match rest with
          | c :: _ =>
              if Ascii.eqb c "." || Ascii.eqb c "e" || Ascii.eqb c "E" then None
              else Some (JNum (if neg then - n else n), rest)
          | [] => Some (JNum (if neg then - n else n), rest)
          end
      else None
  | [] => None
  end.

Definition setField (k : string) (v : json) (fields : list (string * json))
  : list (string * json) :=
  List.filter (fun '(k', _) => negb (String.eqb k k')) fields ++ [(k, v)].

Inductive Mode :=
| MValue
| MElements (acc : list json)
| MMembers (acc : list (string * json)).

Fixpoint read (fuel : nat) (m : Mode) (s : list ascii) : option (json * list ascii) :=
  match fuel with
  | O => None
  | S fuel' =>
      match m with
      | MValue =>
          match skipSpace s with
          | [] => None
          | c :: r =>
              if Ascii.eqb c "{" then
                match skipSpace r with
                | c' :: r' => if Ascii.eqb c' "}" then Some (JObj [], r')
                              else read fuel' (MMembers []) r
                | [] => None
                end
              else if Ascii.eqb c "[" then
                match skipSpace r with
                | c' :: r' => if Ascii.eqb c' "]" then Some (JArr [], r')
                              else read fuel' (MElements []) r
                | [] => None
                end
              else if Ascii.eqb c dquote then
                match readString r "" with
                | Some (str, rest) => Some (JStr str, rest)
                | None => None
                end
              else
                let text := string_of_list_ascii (c :: r) in
                if JS.startsWith text "true" then Some (JBool true, chars (JS.drop 4 text))
                else if JS.startsWith text "false" then Some (JBool false, chars (JS.drop 5 text))
                else if JS.startsWith text "null" then Some (JNull, chars (JS.drop 4 text))
                else readNumber (c :: r)
          end
      | MElements acc =>
          match read fuel' MValue s with
          | Some (v, rest) =>
              match skipSpace rest with
              | c :: r =>
                  if Ascii.eqb c "," then read fuel' (MElements (acc ++ [v])) r
                  else if Ascii.eqb c "]" then Some (JArr (acc ++ [v]), r)
                  else None
              | [] => None
              end
          | None => None
          end
      | MMembers acc =>
          match skipSpace s with
          | q :: r =>
              if Ascii.eqb q dquote then
                match readString r "" with
                | Some (key, rest) =>
                    match skipSpace rest with
                    | c :: r' =>
                        if Ascii.eqb c ":" then
                          match read fuel' MValue r' with
                          | Some (v, rest') =>
                              match skipSpace rest' with
                              | c' :: r'' =>
                                  if Ascii.eqb c' ","
                                  then read fuel' (MMembers (setField key v acc)) r''
                                  else if Ascii.eqb c' "}"
                                  then Some (JObj (setField key v acc), r'')
                                  else None
                              | [] => None
                              end
                          | None => None
                          end
                        else None
                    | [] => None
                    end
                | None => None
                end
              else None
          | [] => None
          end
      end
  end.

(** [JSON.parse] on the fragment. *)
Definition parse (text : string) : option json :=
  match read (S (String.length text)) MValue (chars text) with
  | Some (v, rest) =>
      match skipSpace rest with
      | [] => Some v
      | _ => None
      end
  | None => None
  end.

Definition quote (s : string) : string := String dquote s +:+ String dquote "".

(** [JSON.stringify] for strings that need no escape. *)
Fixpoint stringify (v : json) : string :=
  match v with
  | JNull => "null"
  | JBool true => "true"
  | JBool false => "false"
  | JNum n => JS.showZ n
  | JStr s => quote s
  | JArr items => "[" +:+ JS.join "," (List.map stringify items) +:+ "]"
  | JObj fields =>
      "{" +:+ JS.join ","
                (List.map (fun kv => quote (fst kv) +:+ ":" +:+ stringify (snd kv)) fields)
      +:+ "}"
  end.

(** The hidden state: the exits still to come. *)
Abbreviation Ext := (list ProcExit).

Definition quietExit : ProcExit :=
  {| pe_code := Some 0; pe_timedOut := false; pe_stdout := ""; pe_stderr := "" |}.

Definition says (text : string) : ProcExit :=
  {| pe_code := Some 0; pe_timedOut := false; pe_stdout := text; pe_stderr := "" |}.

Definition exits (code : Z) (text : string) : ProcExit :=
  {| pe_code := Some code; pe_timedOut := false; pe_stdout := text; pe_stderr := "" |}.

Definition spawn (o : RunOptions) (fs : FS) (script : Ext)
  : (string + ProcExit) * FS * Ext :=
  match script with
  | pe :: rest => (inr pe, fs, rest)
  | [] => (inr quietExit, fs, [])
  end.

Definition now (script : Ext) : string * Ext := ("2026-01-01T00:00:00.000Z", script).

Definition env : Env Ext :=
  {| env_JSON_parse := parse;
     env_JSON_stringify := stringify;
     env_JSON_pretty := stringify;
     env_spawn := spawn;
     env_now := now;
     env_buildJudgePrompt := fun _ _ _ _ _ _ _ => "judge";
     env_buildJudgeDebatePrompt := fun _ _ _ _ _ _ _ => "debate";
     env_buildJointDriverPrompt := fun _ _ _ _ _ _ _ _ _ _ _ _ => "drive";
     env_buildJointNavigatorPrompt := fun _ _ _ _ _ _ _ _ _ _ => "navigate";
     env_buildConvergeFixPrompt := fun _ _ _ _ _ _ _ _ _ _ _ _ => "fix";
     env_buildReviewPrompt := fun _ _ _ _ => "review";
     env_renderUi := fun _ => "";
     env_processCwd := ["w"] |}.

Definition agent : AgentConfig :=
  {| ac_command := "agent"; ac_args := ["{phase}"]; ac_promptMode := Some pm_stdin;
     ac_env := None |}.

Definition meta (a : AgentName) : AgentMeta :=
  {| am_version := None; am_capabilities := Some [] |}.

Definition quiet : TranscriptStreamOptions := {| ts_jsonl := false; ts_ui := false |}.

Definition context : RunContext :=
  {| sessionId := "s"; runId := "r"; task := "t"; runMode := Some "full" |}.

Definition rootDir : path := ["w"].
Definition runDir : path := ["w"; ".orchestrator"; "sessions"; "s"; "runs"; "r"].

(** The directories from the root down to [p], and [p] itself. *)
Definition dirsTo (p : path) (fs : FS) : FS :=
  fold_left (fun fs q => <[q := Dir]> fs) (Fs.prefixes p) fs.

End Sample.

(** ** Scenarios

    Concrete arguments and worlds over the scripted outside world of
    [Sample], on which the phases can be run. *)

Module Scenario.

Definition world (fs : FS) (script : list ProcExit) : World Sample.Ext :=
  {| w_fs := fs; w_ext := script; w_trace := [] |}.

(** The run directory, and the root with its manifest. *)
Definition runFs : FS :=
  <[Sample.rootDir ++ ["package.json"] := File "{}"]> (Sample.dirsTo Sample.runDir ∅).

(** *** A debate *)

Definition pick (winner why : string) : string :=
  Sample.stringify (JObj [("winner", JStr winner); ("rationale", JStr why)]).

Definition debating (rounds : Z) : DecideArgs :=
  {| da_config :=
       {| agent_codex := Sample.agent; agent_claude := Sample.agent;
          decision := Some {| dc_mode := debate; dc_judgeAgent := None;
                              dc_debateRounds := Some rounds |};
          review := None; tests := None; implementation := None;
          converge := None; guardrails := None |};
     da_context := Sample.context;
     da_runDir := Sample.runDir;
     da_overrideMode := None;
     da_agentMeta := Sample.meta;
     da_sharedContext := None;
     da_analysisWorktrees := fun _ => None;
     da_transcriptStream := Sample.quiet;
     da_timeoutMs := None |}.

(** Both judges pick codex at once. *)
Definition agreeing : World Sample.Ext :=
  world runFs [Sample.says (pick "codex" "simpler"); Sample.says (pick "codex" "safer")].

(** The judges disagree initially and in two rounds (in the first, one
    of them gives nothing that parses). *)
Definition disagreeing : World Sample.Ext :=
  world runFs
    [Sample.says (pick "codex" "simpler"); Sample.says (pick "claude" "safer");
     Sample.says (pick "codex" "still simpler"); Sample.says "no idea";
     Sample.says (pick "claude" "convinced"); Sample.says (pick "codex" "convinced")].

(** *** A joint implementation and a convergence *)

Definition codexWins : Decision :=
  {| d_mode := debate; d_winner := JStr "codex"; d_rationale := JStr "simpler";
     d_judgeAgent := None; d_executionDriver := None |}.

Definition phase (config : Config) : PhaseArgs :=
  {| pa_config := config;
     pa_context := Sample.context;
     pa_runDir := Sample.runDir;
     pa_decision := codexWins;
     pa_isGit := false;
     pa_rootDir := Sample.rootDir;
     pa_agentMeta := Sample.meta;
     pa_sharedContext := "";
     pa_executionPlan := "";
     pa_transcriptStream := Sample.quiet;
     pa_timeoutMs := None |}.

Definition pairing (maxRounds : Z) : PhaseArgs :=
  phase
    {| agent_codex := Sample.agent; agent_claude := Sample.agent;
       decision := None; review := None; tests := None;
       implementation :=
         Some {| ic_mode := Some joint; ic_driver := Some drv_auto;
                 ic_maxRounds := Some maxRounds;
                 ic_applyNavigatorPatch := Some apply_auto;
                 ic_testsDuringLoop := None; ic_swapDriverOnFail := None;
                 ic_swapDriverEachRound := Some true |};
       converge := None; guardrails := None |}.

(** Round 1: the navigator's patch applies; round 2: the navigator has
    nothing to add. *)
Definition twoRounds : World Sample.Ext :=
  world runFs
    [Sample.says "did it"; Sample.exits 1 "diff text"; Sample.says "nav";
     Sample.exits 1 "nav patch"; Sample.exits 0 "applied";
     Sample.says "did it"; Sample.exits 1 "diff text"; Sample.says "nav";
     Sample.exits 0 ""].


Definition driverWorktree : path :=
  Sample.rootDir ++ [".orchestrator"; "worktrees"; "r"; "driver"].

Definition blocking : string :=
  Sample.stringify
    (JObj [("blockers", JArr [JObj [("id", JStr "B1"); ("summary", JStr "broken")]]);
           ("warnings", JArr []); ("notes", JStr "")]).

Definition approving : string :=
  Sample.stringify
    (JObj [("blockers", JArr []); ("warnings", JArr []); ("notes", JStr "")]).

Definition converging (maxRounds : Z) : PhaseArgs :=
  phase
    {| agent_codex := Sample.agent; agent_claude := Sample.agent;
       decision := None;
       review := Some {| rc_enabled := true; rc_reviewer := rv_codex |};
       tests := None;
       implementation :=
         Some {| ic_mode := Some joint; ic_driver := None; ic_maxRounds := None;
                 ic_applyNavigatorPatch := None; ic_testsDuringLoop := None;
                 ic_swapDriverOnFail := None; ic_swapDriverEachRound := None |};
       converge := Some {| cv_enabled := Some true; cv_maxRounds := Some maxRounds |};
       guardrails := None |}.

(** A review with a blocker is on file, and the driver's worktree is
    there. *)
Definition reviewedFs : FS :=
  <[Sample.runDir ++ ["review"; "codex.md"] := File blocking]>
    (Sample.dirsTo (Sample.runDir ++ ["review"]) (Sample.dirsTo driverWorktree runFs)).


(** The critic approves the second fix. *)
Definition approvedAtTwo : World Sample.Ext :=
  world reviewedFs
    [Sample.exits 1 "diff text";
     Sample.says "fixed"; Sample.exits 1 "diff text"; Sample.says blocking;
     Sample.says "fixed"; Sample.exits 1 "diff text"; Sample.says approving].

(** *** Guardrails *)

Definition policy (enabled : bool) : GuardrailsConfig :=
  {| g_enabled := Some enabled; g_maxFilesChanged := Some 0;
     g_maxLinesAdded := None; g_maxLinesRemoved := None;
     g_forbiddenPaths := None; g_forbidDependencyChanges := Some true;
     g_dependencyFiles := None |}.

Definition guarded (enabled : bool) : Config :=
  {| agent_codex := Sample.agent; agent_claude := Sample.agent;
     decision := None; review := None; tests := None; implementation := None;
     converge := None; guardrails := Some (policy enabled) |}.

Definition manifestPatch : string :=
  JS.join JS.nl
    ["diff --git a/package.json b/package.json";
     "--- a/package.json"; "+++ b/package.json"; "@@ -1 +1 @@"; "-{}"; "+{ }"; ""].

(** The final patch of the run is on file. *)
Definition patched : World Sample.Ext :=
  world (<[Sample.runDir ++ ["final"; "final.patch"] := File manifestPatch]>
           (Sample.dirsTo (Sample.runDir ++ ["final"]) runFs)) [].

(** *** Worktrees *)


(** *** Decisions by rule and by a judge *)

Definition deciding (mode : DecisionMode) : DecideArgs :=
  {| da_config :=
       {| agent_codex := Sample.agent; agent_claude := Sample.agent;
          decision := Some {| dc_mode := mode; dc_judgeAgent := None;
                              dc_debateRounds := None |};
          review := None; tests := None; implementation := None;
          converge := None; guardrails := None |};
     da_context := Sample.context;
     da_runDir := Sample.runDir;
     da_overrideMode := None;
     da_agentMeta := Sample.meta;
     da_sharedContext := None;
     da_analysisWorktrees := fun _ => None;
     da_transcriptStream := Sample.quiet;
     da_timeoutMs := None |}.

(** The judge answers without any JSON. *)
Definition undecided : World Sample.Ext :=
  world runFs [Sample.says "I cannot choose between the plans."].


(** *** Processes *)

(** A process that the timeout killed. *)
Definition killed : ProcExit :=
  {| pe_code := None; pe_timedOut := true; pe_stdout := "partial"; pe_stderr := "" |}.

(** A status with a change that is not staged and a file that is added. *)
Definition status : string := JS.join JS.nl [" M src/a.ts"; "A  b.ts"; ""].

(** [git apply] refuses the final patch. *)
Definition refused : World Sample.Ext :=
  world (w_fs patched) [Sample.exits 1 "error: patch does not apply"].

(** *** A workspace and a worktree *)

Definition worktree : path := ["t"].

(** The worktree holds a new version of [a.ts] and a [.git] of its own;
    the workspace holds the old version, a file that the worktree has
    not, and its own [.git] and [node_modules]. *)
Definition checkout : World Sample.Ext :=
  world
    (<[worktree ++ ["a.ts"] := File "new"]>
       (<[worktree ++ [".git"; "HEAD"] := File "ref: worktree"]>
          (<[Sample.rootDir ++ ["a.ts"] := File "old"]>
             (<[Sample.rootDir ++ ["stale.ts"] := File "stale"]>
                (<[Sample.rootDir ++ [".git"; "HEAD"] := File "ref: main"]>
                   (<[Sample.rootDir ++ ["node_modules"; "dep"; "index.js"] := File "dep"]>
                      (Sample.dirsTo (worktree ++ [".git"])
                         (Sample.dirsTo (Sample.rootDir ++ [".git"])
                            (Sample.dirsTo (Sample.rootDir ++ ["node_modules"; "dep"])
                               ∅))))))))) [].

(** *** The final phase, the transcript and the memory *)

(** The convergence and the winner have each left a patch. *)
Definition finishing : World Sample.Ext :=
  world
    (<[Sample.runDir ++ ["converge"; "final.patch"] := File "converged patch"]>
       (<[Sample.runDir ++ ["implement"; "codex"; "diff.patch"] := File "winner patch"]>
          (Sample.dirsTo (Sample.runDir ++ ["converge"])
             (Sample.dirsTo (Sample.runDir ++ ["implement"; "codex"]) runFs)))) [].

(** A transcript is on file already. *)
Definition transcribed : World Sample.Ext :=
  world
    (<[Sample.runDir ++ ["conversation"; "transcript.md"] := File "earlier"]>
       (Sample.dirsTo (Sample.runDir ++ ["conversation"]) runFs)) [].

Definition memoryFile : path := Sample.rootDir ++ [".orchestrator"; "memory"; "memory.jsonl"].

Definition remembered (text : string) (tags : list string) : json :=
  JObj [("id", JStr "r-summary"); ("type", JStr "summary"); ("text", JStr text);
        ("tags", JArr (List.map JStr tags))].

(** A store of three entries and a line that does not parse. *)
Definition remembering : World Sample.Ext :=
  world
    (<[memoryFile :=
         File (JS.join JS.nl
                 [Sample.stringify (remembered "Fixed the parser" ["full"]);
                  "not json";
                  Sample.stringify (remembered "Guardrails for the parser tests" ["tests"]);
                  Sample.stringify (remembered "Nothing of interest" []);
                  ""])]>
       (Sample.dirsTo (Sample.rootDir ++ [".orchestrator"; "memory"]) ∅)) [].

End Scenario.


Section Orchestrator.

(** *** What the environment provides *)

Context {Ext : Type}.
Variable env : Env Ext.

Local Abbreviation JSON_parse := (env_JSON_parse env).
Local Abbreviation JSON_stringify := (env_JSON_stringify env).
Local Abbreviation JSON_pretty := (env_JSON_pretty env).
Local Abbreviation spawn := (env_spawn env).
Local Abbreviation now := (env_now env).
Local Abbreviation buildJudgePrompt := (env_buildJudgePrompt env).
Local Abbreviation buildJudgeDebatePrompt := (env_buildJudgeDebatePrompt env).
Local Abbreviation buildJointDriverPrompt := (env_buildJointDriverPrompt env).
Local Abbreviation buildJointNavigatorPrompt := (env_buildJointNavigatorPrompt env).
Local Abbreviation buildConvergeFixPrompt := (env_buildConvergeFixPrompt env).
Local Abbreviation buildReviewPrompt := (env_buildReviewPrompt env).
Local Abbreviation renderUi := (env_renderUi env).
Local Abbreviation processCwd := (env_processCwd env).

Abbreviation World := (World Ext).

Definition M (A : Type) : Type := World -> Result A * World.

Definition ret {A} (a : A) : M A := fun w => (Ok a, w).

Definition bind {A B} (m : M A) (k : A -> M B) : M B :=
  fun w =>
    match m w with
    | (Ok a, w') => k a w'
    | (Throw e, w') => (Throw e, w')
    | (OutOfFuel, w') => (OutOfFuel, w')
    end.

Definition throw {A} (e : exn) : M A := fun w => (Throw e, w).

Definition outOfFuel {A} : M A := fun w => (OutOfFuel, w).

(** [try { m } catch { h }]. *)
Definition catch {A} (m : M A) (h : M A) : M A :=
  fun w =>
    match m w with
    | (Throw _, w') => h w'
    | r => r
    end.

Notation "'let*' x ':=' m 'in' k" := (bind m (fun x => k))
  (at level 10, x pattern, m at level 100, k at level 200).
Notation "m ';;' k" := (bind m (fun _ => k))
  (at level 100, k at level 200, right associativity).

Definition trace (e : Effect) : M unit :=
  fun w => (Ok tt, {| w_fs := w_fs w; w_ext := w_ext w; w_trace := w_trace w ++ [e] |}).

Definition getFs : M FS := fun w => (Ok (w_fs w), w).

Definition liftFs (f : FS -> exn + FS) : M unit :=
  fun w =>
    match f (w_fs w) with
    | inr fs' => (Ok tt, {| w_fs := fs'; w_ext := w_ext w; w_trace := w_trace w |})
    | inl e => (Throw e, w)
    end.

Definition liftRead {A} (f : FS -> exn + A) : M A :=
  fun w =>
    match f (w_fs w) with
    | inr a => (Ok a, w)
    | inl e => (Throw e, w)
    end.

Definition clock : M string :=
  fun w =>
    let '(t, ext') := now (w_ext w) in
    (Ok t, {| w_fs := w_fs w; w_ext := ext'; w_trace := w_trace w |}).

Definition stdoutWrite (text : string) : M unit := trace (EStdout text).

(** *** utils.ts *)

Definition ensureDir (dirPath : path) : M unit :=
  trace (EMkdir dirPath);;
  liftFs (fun fs => Fs.mkdirp fs dirPath).

Definition writeText (filePath : path) (content : string) : M unit :=
  ensureDir (dirname filePath);;
  trace (EWrite filePath content);;
  liftFs (fun fs => Fs.writeFile fs filePath content).

Definition existsSync (p : path) : M bool :=
  fun w => (Ok (Fs.existsSync (w_fs w) p), w).

Definition readText (filePath : path) : M (option string) :=
  let* present := existsSync filePath in
  if negb present then ret None
  else let* c := liftRead (fun fs => Fs.readFile fs filePath) in ret (Some c).

Definition appendFileSync (filePath : path) (content : string) : M unit :=
  trace (EAppend filePath content);;
  liftFs (fun fs => Fs.appendFile fs filePath content).

(** [safeJsonParse]: [null] stands for a failed parse. *)
Definition safeJsonParse (value : string) : json :=
  match JSON_parse value with
  | Some v => v
  | None => JNull
  end.

(** The first group of [/```json\s*([\s\S]*?)\s*```/i]: after the first
    [```json] in any letter case, the white space is skipped and the text
    up to the next [```] is taken without its trailing white space.  There
    is no match when no [```] follows. *)
Definition matchFenced (value : string) : option string :=
  match JS.indexOf (JS.toLowerCase value) "```json" with
  | Some i =>
      let body := JS.trimStart (JS.drop (i + 7) value) in
      match JS.indexOf body "```" with
      | Some j => Some (JS.trimEnd (JS.take j body))
      | None => None
      end
  | None => None
  end.

Definition extractJson (value : string) : json :=
  let direct := safeJsonParse (JS.trim value) in
  if Json.truthy direct then direct
  else
    let fenced := matchFenced value in
    let viaFence :=
      match fenced with
      | Some g1 =>
          if JS.nonEmpty g1 then
            let parsed := safeJsonParse g1 in
            if Json.truthy parsed then Some parsed else None
          else None
      | None => None
      end in
    match viaFence with
    | Some parsed => parsed
    | None =>
        let firstBrace := JS.indexOf value "{" in
        let lastBrace := JS.lastIndexOf value "}" in
        match firstBrace, lastBrace with
        | Some f, Some l =>
            if (f <? l)%nat then safeJsonParse (JS.slice value f (l + 1))
            else JNull
        | _, _ => JNull
        end
    end.

Definition normalizeArgs (args : list string) (replacements : list (string * string))
  : list string :=
  List.map
    (fun arg =>
       fold_left
         (fun next '(key, value) => JS.replaceAll ("{" +:+ key +:+ "}") value next)
         replacements arg)
    args.

(** *** exec.ts *)

(** [runCommand]: the log streams are opened, the process runs, the
    streams receive what it printed; the promise resolves with the exit
    code (124 for a timeout kill, 0 for another signal) and the captured
    streams, or rejects when the process could not start. *)
Definition runCommand (options : RunOptions) : M RunResult :=
  trace (ESpawn options);;
  let openStream (target : option path) : M unit :=
    match target with
    | Some p => liftFs (fun fs => Fs.writeFile fs p "")
    | None => ret tt
    end in
  let feedStream (target : option path) (data : string) : M unit :=
    match target with
    | Some p => liftFs (fun fs => Fs.writeFile fs p data)
    | None => ret tt
    end in
  openStream (ro_stdoutPath options);;
  openStream (ro_stderrPath options);;
  let* outcome :=
    (fun w =>
       let '(r, fs', ext') := spawn options (w_fs w) (w_ext w) in
       (Ok r, {| w_fs := fs'; w_ext := ext'; w_trace := w_trace w |})) in
  match outcome with
  | inl msg => throw (SpawnError msg)
  | inr pe =>
      feedStream (ro_stdoutPath options) (pe_stdout pe);;
      feedStream (ro_stderrPath options) (pe_stderr pe);;
      ret {| exitCode := pe_code pe ?? (if pe_timedOut pe then 124 else 0);
             stdout := if ro_captureStdout options then pe_stdout pe else "";
             stderr := if ro_captureStderr options then pe_stderr pe else "";
             timedOut := pe_timedOut pe |}
  end.

Definition simpleCommand (command : string) (args : list string) (cwd : path)
    (timeoutMs : option Z) : RunOptions :=
  {| ro_command := command; ro_args := args; ro_cwd := cwd; ro_env := [];
     ro_stdin := None; ro_stdoutPath := None; ro_stderrPath := None;
     ro_captureStdout := true; ro_captureStderr := true;
     ro_timeoutMs := timeoutMs |}.

(** *** agents.ts *)

Definition runAgentPhase (agentName_ : AgentName) (agentConfig : AgentConfig)
    (phase prompt : string) (cwd : path) (outputPath : option path)
    (logDir : path) (context : RunContext) (agentVersion : option string)
    (capabilities_ : option (list string)) (timeoutMs : option Z) : M RunResult :=
  ensureDir logDir;;
  let promptFile := logDir ++ ["prompt.txt"] in
  let promptMode := ac_promptMode agentConfig ?? pm_stdin in
  writeText promptFile prompt;;
  let capabilities :=
    match capabilities_ with Some l => JS.join "," l | None => "" end in
  let replacements :=
    [("workdir", showPath cwd); ("phase", phase); ("prompt", prompt);
     ("promptFile", showPath promptFile); ("task", task context);
     ("sessionId", sessionId context); ("runId", runId context);
     ("agent", agentName agentName_); ("agentVersion", agentVersion ?? "");
     ("capabilities", capabilities); ("runMode", runMode context ?? "")] in
  let args := normalizeArgs (ac_args agentConfig) replacements in
  let stdin := match promptMode with pm_stdin => Some prompt | _ => None end in
  let* result :=
    runCommand
      {| ro_command := ac_command agentConfig;
         ro_args := args;
         ro_cwd := cwd;
         ro_env := (ac_env agentConfig ?? []) ++
                   [("ORCHESTRATOR_PHASE", phase);
                    ("ORCHESTRATOR_TASK", task context);
                    ("ORCHESTRATOR_SESSION_ID", sessionId context);
                    ("ORCHESTRATOR_RUN_ID", runId context);
                    ("ORCHESTRATOR_AGENT", agentName agentName_);
                    ("ORCHESTRATOR_AGENT_VERSION", agentVersion ?? "");
                    ("ORCHESTRATOR_AGENT_CAPABILITIES", capabilities);
                    ("ORCHESTRATOR_RUN_MODE", runMode context ?? "")];
         ro_stdin := stdin;
         ro_stdoutPath := Some (logDir ++ ["stdout.log"]);
         ro_stderrPath := Some (logDir ++ ["stderr.log"]);
         ro_captureStdout := match outputPath with Some _ => true | None => false end;
         ro_captureStderr := match outputPath with Some _ => true | None => false end;
         ro_timeoutMs := timeoutMs |} in
  match outputPath with
  | Some out => writeText out (stdout result);; ret result
  | None => ret result
  end.

(** *** transcript.ts *)

Definition eventJson (e : TranscriptEvent) : json :=
  JObj ([("timestamp", JStr (te_timestamp e)); ("phase", JStr (te_phase e));
         ("role", JStr (te_role e))]
        ++ match te_agent e with Some a => [("agent", JStr (agentName a))] | None => [] end
        ++ [("kind", JStr (te_kind e)); ("content", JStr (te_content e))]
        ++ match te_round e with Some r => [("round", JNum r)] | None => [] end).

Definition renderMarkdown (e : TranscriptEvent) : string :=
  let who :=
    if String.eqb (te_role e) "agent"
    then te_role e +:+ ":" +:+
         match te_agent e with Some a => agentName a | None => "unknown" end
    else te_role e in
  let round :=
    match te_round e with
    | Some r => if negb (r =? 0) then " (round " +:+ JS.showZ r +:+ ")" else ""
    | None => ""
    end in
  let header := "### " +:+ te_phase e +:+ round +:+ " | " +:+ who +:+ " | "
                +:+ te_kind e +:+ " | " +:+ te_timestamp e in
  header +:+ JS.nl +:+ JS.nl +:+ te_content e +:+ JS.nl +:+ JS.nl.

(** [appendTranscript]; the event arrives without its time stamp, which
    the call site reads from the clock while it builds the event. *)
Definition appendTranscript (runDir : path) (phase role : string)
    (agent : option AgentName) (kind content : string) (round : option Z)
    (stream : TranscriptStreamOptions) : M unit :=
  let* stamp := clock in
  let event := {| te_timestamp := stamp; te_phase := phase; te_role := role;
                  te_agent := agent; te_kind := kind; te_content := content;
                  te_round := round |} in
  let convoDir := runDir ++ ["conversation"] in
  ensureDir convoDir;;
  appendFileSync (convoDir ++ ["transcript.jsonl"])
    (JSON_stringify (eventJson event) +:+ JS.nl);;
  appendFileSync (convoDir ++ ["transcript.md"]) (renderMarkdown event);;
  (if ts_jsonl stream
   then stdoutWrite (JSON_stringify (eventJson event) +:+ JS.nl) else ret tt);;
  (if ts_ui stream then stdoutWrite (renderUi event) else ret tt).

Fixpoint forEach {A} (l : list A) (f : A -> M unit) : M unit :=
  match l with
  | [] => ret tt
  | x :: r => f x;; forEach r f
  end.

(** *** git.ts *)

Definition ensureWorktree (rootDir worktreePath : path) : M unit :=
  let* present := existsSync worktreePath in
  if present
  then throw (Error ("Worktree path already exists: " +:+ showPath worktreePath))
  else
    ensureDir (dirname worktreePath);;
    let* result :=
      runCommand (simpleCommand "git"
                    ["worktree"; "add"; showPath worktreePath; "HEAD"] rootDir None) in
    if negb (exitCode result =? 0)
    then throw (Error ("git worktree add failed: " +:+ stderr result))
    else ret tt.

Definition gitDiff (worktreePath : path) : M string :=
  let* result :=
    runCommand (simpleCommand "git" ["-C"; showPath worktreePath; "diff"; "HEAD"]
                  worktreePath None) in
  let* result :=
    if negb (exitCode result =? 0)
    then runCommand (simpleCommand "git" ["-C"; showPath worktreePath; "diff"]
                       worktreePath None)
    else ret result in
  if negb (exitCode result =? 0)
  then throw (Error ("git diff failed: " +:+ stderr result))
  else ret (stdout result).

Definition gitStatusFiles (worktreePath : path) : M (list string) :=
  let* result :=
    runCommand (simpleCommand "git" ["-C"; showPath worktreePath; "status"; "--porcelain"]
                  worktreePath None) in
  if negb (exitCode result =? 0) then ret []
  else ret (List.map (JS.drop 3)
              (List.filter JS.nonEmpty
                 (List.map JS.trim (JS.splitOn JS.LF (stdout result))))).

(** *** workspace.ts *)

Definition DEFAULT_EXCLUDES : list string :=
  [".git"; ".orchestrator"; "node_modules"; "dist"; "build"].

Definition excluded (excludes : list string) (name : string) : bool :=
  existsb (String.eqb name) excludes.

Definition readdirSync (d : path) : M (list (string * node)) :=
  liftRead (fun fs => Fs.readdir fs d).

Definition cpSync (src dst : path) (keep : path -> bool) : M unit :=
  trace (ECopy src dst);;
  liftFs (fun fs => Fs.cp fs src dst keep).

Definition rmSync (p : path) : M unit :=
  trace (ERemove p);;
  liftFs (fun fs => inr (Fs.rm fs p)).

(** The loop of [copyWorkspace] over the entries of the source. *)
Definition copyEntries (sourceDir destDir : path) : M unit :=
  let* entries := readdirSync sourceDir in
  forEach entries
    (fun '(name, _) =>
       if excluded DEFAULT_EXCLUDES name then ret tt
       else cpSync (sourceDir ++ [name]) (destDir ++ [name]) (fun _ => true)).

Definition copyWorkspace (sourceDir destDir : path) : M unit :=
  ensureDir destDir;;
  copyEntries sourceDir destDir.

(** [listRelativeEntries]: the walk, depth first; the fuel bounds the
    depth of the tree. *)
Fixpoint walkEntries (fuel : nat) (rootDir currentRel : path) : M (list path) :=
  match fuel with
  | O => outOfFuel
  | S fuel' =>
      let* entries := readdirSync (rootDir ++ currentRel) in
      (fix each (es : list (string * node)) : M (list path) :=
         match es with
         | [] => ret []
         | (name, kind) :: rest =>
             let relPath := currentRel ++ [name] in
             if excluded DEFAULT_EXCLUDES (List.hd "" relPath) then each rest
             else
               let* sub := match kind with
                           | Dir => walkEntries fuel' rootDir relPath
                           | File _ => ret []
                           end in
               let* others := each rest in
               ret (relPath :: sub ++ others)
         end) entries
  end.

Definition listRelativeEntries (rootDir : path) : M (list path) :=
  let* fs := getFs in
  walkEntries (S (size fs)) rootDir [].

(** The sort by descending length of the relative path text, children
    before their parents; paths of the same length come in the reverse of
    the order of the listing, which is the file system's own. *)
Fixpoint insertByLength (x : path) (l : list path) : list path :=
  match l with
  | [] => [x]
  | y :: r =>
      if (String.length (JS.join "/" y) <? String.length (JS.join "/" x))%nat
      then x :: l else y :: insertByLength x r
  end.

Definition syncWorkspace (sourceDir destDir : path) : M unit :=
  ensureDir destDir;;
  let* sourceEntries := listRelativeEntries sourceDir in
  let* destEntries := listRelativeEntries destDir in
  let toRemove :=
    fold_right insertByLength []
      (List.filter (fun e => negb (existsb (fun s => bool_decide (s = e)) sourceEntries))
         destEntries) in
  forEach toRemove (fun rel => rmSync (destDir ++ rel));;
  cpSync sourceDir destDir
    (fun src =>
       match Fs.below sourceDir src with
       | Some (top :: _) => negb (excluded DEFAULT_EXCLUDES top)
       | _ => true
       end).

(** *** Diffs, tests, patches *)

Definition diffExcludes : list string :=
  ["--exclude=.git"; "--exclude=.orchestrator"; "--exclude=node_modules";
   "--exclude=dist"; "--exclude=build"].

Definition diffDirs (rootDir worktreeDir : path) : M string :=
  let* result :=
    runCommand (simpleCommand "diff"
                  ("-ruN" :: diffExcludes ++ [showPath rootDir; showPath worktreeDir])
                  rootDir None) in
  if negb (exitCode result =? 0) && negb (exitCode result =? 1)
  then throw (Error ("diff failed: " +:+ stderr result))
  else ret (stdout result).

Definition diffDirsBetween (baseDir otherDir : path) : M string :=
  let parent := dirname baseDir in
  let* result :=
    runCommand (simpleCommand "diff"
                  ("-ruN" :: diffExcludes ++ [basenameOf baseDir; basenameOf otherDir])
                  parent None) in
  if negb (exitCode result =? 0) && negb (exitCode result =? 1)
  then throw (Error ("diff failed: " +:+ stderr result))
  else ret (stdout result).

Definition testsEnabled (config : Config) : bool :=
  match tests config with Some t => isTrue (cc_enabled t) | None => false end.

Definition runTestsOnce (config : Config) (cwd logPath : path) (timeoutMs : option Z)
  : M RunResult :=
  let* result :=
    runCommand (simpleCommand
                  (match tests config with Some t => cc_command t | None => "npm" end)
                  (match tests config with
                   | Some t => cc_args t ?? ["test"]
                   | None => ["test"]
                   end)
                  cwd timeoutMs) in
  writeText logPath (stdout result +:+ stderr result);;
  ret result.

Definition applyPatchToWorktree (worktreePath patchPath : path) (isGit : bool)
  : M (bool * string * string) :=
  let command := if isGit then "git" else "patch" in
  let args := if isGit then ["apply"; "-p1"; showPath patchPath]
              else ["-p1"; "-i"; showPath patchPath] in
  let* result := runCommand (simpleCommand command args worktreePath None) in
  ret (exitCode result =? 0, stdout result, stderr result).

(** *** Review summaries *)

(** [v.toString()] on a parsed value. *)
Definition toStringCall (v : json) : exn + string :=
  match v with
  | JObj fields =>
      match Json.lookupField "toString" fields with
      | Some _ => inl (TypeError "toString is not a function")
      | None => inr (Json.toStr v)
      end
  | _ => inr (Json.toStr v)
  end.

(** [a ?? b] on a property that may be missing or [null]. *)
Definition nullish (v : option json) : bool :=
  match v with
  | None | Some JNull => true
  | _ => false
  end.

Definition optToString (v : option json) : exn + option string :=
  if nullish v then inr None
  else match v with
       | Some x => match toStringCall x with
                   | inr s => inr (Some s)
                   | inl e => inl e
                   end
       | None => inr None
       end.

Definition normalizeIssue (prefix : string) (idx : nat) (it : json) : exn + ReviewIssue :=
  match it with
  | JNull => inl (TypeError "Cannot read properties of null")
  | _ =>
      match optToString (Json.getProp it "id"),
            optToString (Json.getProp it "summary"),
            optToString (Json.getProp it "file"),
            optToString (Json.getProp it "suggested_fix") with
      | inr id, inr summary, inr file, inr fix_ =>
          inr {| ri_id := id ?? (prefix +:+ "-" +:+ JS.showZ (Z.of_nat idx + 1));
                 ri_summary := JS.trim (summary ?? "");
                 ri_file := file;
                 ri_suggested_fix := fix_ |}
      | inl e, _, _, _ | _, inl e, _, _ | _, _, inl e, _ | _, _, _, inl e => inl e
      end
  end.

Fixpoint normalizeItems (prefix : string) (idx : nat) (items : list json)
  : exn + list ReviewIssue :=
  match items with
  | [] => inr []
  | it :: rest =>
      match normalizeIssue prefix idx it with
      | inl e => inl e
      | inr issue =>
          match normalizeItems prefix (S idx) rest with
          | inl e => inl e
          | inr issues => inr (issue :: issues)
          end
      end
  end.

(** [normalize] of [parseReviewSummary]: [map] over the items, then
    [filter] on a non-empty summary; a value that is no array has no
    [map]. *)
Definition normalize (items : option json) (prefix : string) : exn + list ReviewIssue :=
  if nullish items then inr []
  else match items with
       | Some (JArr l) =>
           match normalizeItems prefix 0 l with
           | inr issues =>
               inr (List.filter (fun it => JS.nonEmpty (ri_summary it)) issues)
           | inl e => inl e
           end
       | _ => inl (TypeError "map is not a function")
       end.

Definition parseReviewSummary (text : string) : exn + option ReviewSummary :=
  let parsed := extractJson text in
  if negb (Json.truthy parsed) then inr None
  else
    match normalize (Json.getProp parsed "blockers") "B" with
    | inl e => inl e
    | inr bs =>
        match normalize (Json.getProp parsed "warnings") "W" with
        | inl e => inl e
        | inr ws =>
            match optToString (Json.getProp parsed "notes") with
            | inl e => inl e
            | inr n => inr (Some {| blockers := bs; warnings := ws; notes := n ?? "" |})
            end
        end
    end.

Definition mergeReviewSummaries (summaries : list ReviewSummary) : ReviewSummary :=
  let '(bs, ws, ns) :=
    fold_left
      (fun '(bs, ws, ns) s =>
         (bs ++ blockers s, ws ++ warnings s,
          if JS.nonEmpty (JS.trim (notes s)) then ns ++ [JS.trim (notes s)] else ns))
      summaries ([], [], []) in
  {| blockers := bs; warnings := ws; notes := truncateInline (JS.join " | " ns) 240 |}.

Definition liftExn {A} (r : exn + A) : M A :=
  match r with
  | inr a => ret a
  | inl e => throw e
  end.

(** The loop of [readReviewSummaries] over the reviewers. *)
Fixpoint readReviewsInto (runDir : path) (reviewers : list AgentName)
    (summaries : list ReviewSummary) : M (list ReviewSummary) :=
  match reviewers with
  | [] => ret summaries
  | reviewer :: rest =>
      let* text := readText (runDir ++ ["review"; agentName reviewer +:+ ".md"]) in
      let* parsed := liftExn (parseReviewSummary (text ?? "")) in
      readReviewsInto runDir rest
        (match parsed with Some p => summaries ++ [p] | None => summaries end)
  end.

Definition readReviewSummaries (runDir : path) (reviewers : list AgentName)
  : M ReviewSummary :=
  let* summaries := readReviewsInto runDir reviewers [] in
  ret (mergeReviewSummaries summaries).

(** *** The [for (let round = 1; round <= bound; round += 1)] loop *)

(** The body receives the round number and the loop variables; the fuel
    bounds the number of iterations the model is willing to run. *)
Fixpoint forRounds {S} (fuel : nat) (round bound : Z)
    (body : Z -> S -> M (LoopStep S)) (s : S) : M S :=
  if round <=? bound then
    match fuel with
    | O => outOfFuel
    | Datatypes.S fuel' =>
        let* step := body round s in
        match step with
        | Break s' => ret s'
        | Continue s' => forRounds fuel' (round + 1) bound body s'
        end
    end
  else ret s.

(** *** orchestrator.ts: the decision phase *)

Definition modeName (m : DecisionMode) : string :=
  match m with
  | judge => "judge"
  | debate => "debate"
  | prefer_codex => "prefer-codex"
  | prefer_claude => "prefer-claude"
  | mode_neither => "neither"
  end.

Definition decisionJson (d : Decision) : json :=
  JObj ([("mode", JStr (modeName (d_mode d))); ("winner", d_winner d);
         ("rationale", d_rationale d)]
        ++ match d_judgeAgent d with
           | Some a => [("judgeAgent", JStr (agentName a))]
           | None => []
           end
        ++ match d_executionDriver d with
           | Some a => [("executionDriver", JStr (agentName a))]
           | None => []
           end).

(** [codexPick?.winner && claudePick?.winner &&
     codexPick.winner === claudePick.winner]. *)
Definition consensus (codexPick claudePick : json) : bool :=
  match Json.getProp codexPick "winner", Json.getProp claudePick "winner" with
  | Some a, Some b => Json.truthy a && Json.truthy b && Json.strictEq a b
  | _, _ => false
  end.

Definition consensusRationale (stage : string) (codexPick claudePick : json) : json :=
  JStr ("Consensus after " +:+ stage +:+ ". Codex: "
        +:+ Json.show (Json.getProp codexPick "rationale")
        +:+ " Claude: " +:+ Json.show (Json.getProp claudePick "rationale")).

Section Decide.

Variable A : DecideArgs.
Local Abbreviation config := (da_config A).
Local Abbreviation context := (da_context A).
Local Abbreviation runDir := (da_runDir A).
Local Abbreviation overrideMode := (da_overrideMode A).
Local Abbreviation agentMeta := (da_agentMeta A).
Local Abbreviation sharedContext := (da_sharedContext A).
Local Abbreviation analysisWorktrees := (da_analysisWorktrees A).
Local Abbreviation transcriptStream := (da_transcriptStream A).
Local Abbreviation timeoutMs := (da_timeoutMs A).

Definition decidePhaseDir : path := runDir ++ ["decide"].

Definition decisionConfig : DecisionConfig :=
  decision config ??
    {| dc_mode := mode_neither; dc_judgeAgent := None; dc_debateRounds := None |}.

Definition decisionMode : DecisionMode := overrideMode ?? dc_mode decisionConfig.

(** The configured bound on debate rounds. *)
Definition debateRoundBound : Z := dc_debateRounds decisionConfig ?? 1.

(** The loop over [judgeAgents]: each judge answers [prompt] and its output
    file is read back. *)
Fixpoint askEach (judges : list AgentName) (prompt : string) (dir : path) (round : Z)
    (outputs : string * string) : M (string * string) :=
  match judges with
  | [] => ret outputs
  | j :: rest =>
      let outputPath := dir ++ [agentName j +:+ ".md"] in
      let* judgeResult :=
        runAgentPhase j (agents config j) "judge" prompt
          (analysisWorktrees j ?? processCwd) (Some outputPath)
          (dir ++ [agentName j]) context
          (am_version (agentMeta j)) (am_capabilities (agentMeta j)) timeoutMs in
      let* text := readText outputPath in
      let outputs :=
        match j with
        | codex => (text ?? "", snd outputs)
        | claude => (fst outputs, text ?? "")
        end in
      appendTranscript runDir "debate" "agent" (Some j) "response"
        (formatAgentOutput (stdout judgeResult) (stderr judgeResult))
        (Some round) transcriptStream;;
      askEach rest prompt dir round outputs
  end.

Definition askJudges (prompt : string) (dir : path) (round : Z) : M (string * string) :=
  askEach [codex; claude] prompt dir round ("", "").

(** What a run of the decision phase went through: the decision, and in a
    debate the two initial judgments and the rounds. *)
Record DecisionLog := {
  dl_decision : Decision;
  dl_initial : option (string * string);
  dl_history : list DebateRound }.

Record DebateState := {
  ds_final : option Decision;
  ds_prior : string * string;
  ds_history : list DebateRound }.

Definition debateRoundDir (round : Z) : path :=
  decidePhaseDir ++ ["debate_round_" +:+ JS.showZ round].

(** The body of the debate loop. *)
Definition debateRound (plans : string * string * string * string)
    (round : Z) (st : DebateState) : M (LoopStep DebateState) :=
  let '(planCodex, planClaude, propCodex, propClaude) := plans in
  let debateDir := debateRoundDir round in
  ensureDir debateDir;;
  let debatePrompt :=
    buildJudgeDebatePrompt context planCodex planClaude propCodex propClaude
      sharedContext (ds_prior st) in
  appendTranscript runDir "debate" "system" None "prompt" debatePrompt
    (Some round) transcriptStream;;
  let* roundOutputs := askJudges debatePrompt debateDir round in
  let codexPick := extractJson (fst roundOutputs) in
  let claudePick := extractJson (snd roundOutputs) in
  let history := ds_history st ++
    [{| dr_round := round; dr_codexPick := codexPick; dr_claudePick := claudePick |}] in
  if consensus codexPick claudePick then
    ret (Break
           {| ds_final :=
                Some {| d_mode := decisionMode;
                        d_winner := Json.getProp codexPick "winner" ?? JNull;
                        d_rationale :=
                          consensusRationale ("debate round " +:+ JS.showZ round)
                            codexPick claudePick;
                        d_judgeAgent := None; d_executionDriver := None |};
              ds_prior := ds_prior st;
              ds_history := history |})
  else
    ret (Continue
           {| ds_final := ds_final st;
              ds_prior := roundOutputs;
              ds_history := history |}).

(** The debate from the two initial judgments on: the consensus
    short-circuit, else the bounded loop and its verdict. *)
Definition debateFrom (fuel : nat) (plans : string * string * string * string)
    (initialOutputs : string * string) : M (Decision * list DebateRound) :=
  let codexPick := extractJson (fst initialOutputs) in
  let claudePick := extractJson (snd initialOutputs) in
  if consensus codexPick claudePick then
    let decision :=
      {| d_mode := decisionMode;
         d_winner := Json.getProp codexPick "winner" ?? JNull;
         d_rationale := consensusRationale "initial judgment" codexPick claudePick;
         d_judgeAgent := None; d_executionDriver := None |} in
    writeText (decidePhaseDir ++ ["decision.json"]) (JSON_pretty (decisionJson decision));;
    ret (decision, [])
  else
    let rounds := debateRoundBound in
    let* st :=
      forRounds fuel 1 rounds (debateRound plans)
        {| ds_final := None; ds_prior := initialOutputs; ds_history := [] |} in
    let finalDecision :=
      match ds_final st with
      | Some d => d
      | None =>
          {| d_mode := decisionMode;
             d_winner := JStr "neither";
             d_rationale := JStr "Judges did not converge after debate rounds.";
             d_judgeAgent := None; d_executionDriver := None |}
      end in
    writeText (decidePhaseDir ++ ["decision.json"])
      (JSON_pretty (decisionJson finalDecision));;
    appendTranscript runDir "debate" "system" None "decision"
      (JSON_pretty (decisionJson finalDecision)) None transcriptStream;;
    ret (finalDecision, ds_history st).

(** The two independent judgments that open a debate. *)
Definition debateInitial (plans : string * string * string * string)
  : M (string * string) :=
  let '(planCodex, planClaude, propCodex, propClaude) := plans in
  let initialPrompt :=
    buildJudgePrompt context planCodex planClaude propCodex propClaude
      sharedContext "independent" in
  appendTranscript runDir "debate" "system" None "prompt" initialPrompt
    (Some 0) transcriptStream;;
  askJudges initialPrompt decidePhaseDir 0.

Definition readPlans : M (string * string * string * string) :=
  let* planCodex := readText (runDir ++ ["plan"; "codex.md"]) in
  let* planClaude := readText (runDir ++ ["plan"; "claude.md"]) in
  let* propCodex := readText (runDir ++ ["propose"; "codex.md"]) in
  let* propClaude := readText (runDir ++ ["propose"; "claude.md"]) in
  ret (planCodex ?? "", planClaude ?? "", propCodex ?? "", propClaude ?? "").

Definition runJudge (plans : string * string * string * string) : M Decision :=
  let '(planCodex, planClaude, propCodex, propClaude) := plans in
  let judgeAgent := dc_judgeAgent decisionConfig ?? codex in
  let prompt :=
    buildJudgePrompt context planCodex planClaude propCodex propClaude
      sharedContext "independent" in
  appendTranscript runDir "judge" "system" None "prompt" prompt None transcriptStream;;
  let judgeOutput := decidePhaseDir ++ ["judge.md"] in
  let* judgeResult :=
    runAgentPhase judgeAgent (agents config judgeAgent) "judge" prompt
      (analysisWorktrees judgeAgent ?? processCwd) (Some judgeOutput)
      (decidePhaseDir ++ ["judge"]) context
      (am_version (agentMeta judgeAgent)) (am_capabilities (agentMeta judgeAgent))
      timeoutMs in
  appendTranscript runDir "judge" "agent" (Some judgeAgent) "response"
    (formatAgentOutput (stdout judgeResult) (stderr judgeResult)) None
    transcriptStream;;
  let* judgeText := readText judgeOutput in
  let parsed := extractJson (judgeText ?? "") in
  let winner := Json.getProp parsed "winner" in
  let rationale := Json.getProp parsed "rationale" in
  let decision :=
    {| d_mode := decisionMode;
       d_winner := if nullish winner then JStr "neither" else winner ?? JNull;
       d_rationale :=
         if nullish rationale
         then JStr "Judge output was not parseable. Defaulting to neither."
         else rationale ?? JNull;
       d_judgeAgent := Some judgeAgent; d_executionDriver := None |} in
  writeText (decidePhaseDir ++ ["decision.json"]) (JSON_pretty (decisionJson decision));;
  appendTranscript runDir "judge" "system" None "decision"
    (JSON_pretty (decisionJson decision)) None transcriptStream;;
  ret decision.

Definition runRuleBased : M Decision :=
  let decision :=
    {| d_mode := decisionMode;
       d_winner :=
         match decisionMode with
         | prefer_codex => JStr "codex"
         | prefer_claude => JStr "claude"
         | _ => JStr "neither"
         end;
       d_rationale :=
         match decisionMode with
         | prefer_codex => JStr "Rule-based decision: prefer codex."
         | prefer_claude => JStr "Rule-based decision: prefer claude."
         | _ => JStr "Rule-based decision: neither."
         end;
       d_judgeAgent := None; d_executionDriver := None |} in
  writeText (decidePhaseDir ++ ["decision.json"]) (JSON_pretty (decisionJson decision));;
  appendTranscript runDir "decide" "system" None "decision"
    (JSON_pretty (decisionJson decision)) None transcriptStream;;
  ret decision.

(** The phase, returning with the decision what a debate went through. *)
Definition runDecision (fuel : nat) : M DecisionLog :=
  ensureDir decidePhaseDir;;
  let* plans := readPlans in
  match decisionMode with
  | judge =>
      let* decision := runJudge plans in
      ret {| dl_decision := decision; dl_initial := None; dl_history := [] |}
  | debate =>
      let* initialOutputs := debateInitial plans in
      let* r := debateFrom fuel plans initialOutputs in
      ret {| dl_decision := fst r; dl_initial := Some initialOutputs;
             dl_history := snd r |}
  | _ =>
      let* decision := runRuleBased in
      ret {| dl_decision := decision; dl_initial := None; dl_history := [] |}
  end.

Definition runDecisionPhase (fuel : nat) : M Decision :=
  let* log := runDecision fuel in
  ret (dl_decision log).

End Decide.

(** *** orchestrator.ts: the joint implementation phase *)

Definition implementationMode (config : Config) : ImplementationMode :=
  match implementation config with
  | Some ic => ic_mode ic ?? parallel
  | None => parallel
  end.

Definition worktreesRootOf (rootDir : path) (run : string) : path :=
  rootDir ++ [".orchestrator"; "worktrees"; run].

Definition statsJson (st : DiffStats) : json :=
  JObj [("added", JNum (added st)); ("removed", JNum (removed st))].

Section Joint.

Variable A : PhaseArgs.
Local Abbreviation config := (pa_config A).
Local Abbreviation context := (pa_context A).
Local Abbreviation runDir := (pa_runDir A).
Local Abbreviation decision_ := (pa_decision A).
Local Abbreviation isGit := (pa_isGit A).
Local Abbreviation rootDir := (pa_rootDir A).
Local Abbreviation agentMeta := (pa_agentMeta A).
Local Abbreviation sharedContext := (pa_sharedContext A).
Local Abbreviation executionPlan := (pa_executionPlan A).
Local Abbreviation transcriptStream := (pa_transcriptStream A).
Local Abbreviation timeoutMs := (pa_timeoutMs A).

Definition jointPhaseDir : path := runDir ++ ["implement"; "joint"].

Definition implConfig : ImplementationConfig :=
  implementation config ??
    {| ic_mode := None; ic_driver := None; ic_maxRounds := None;
       ic_applyNavigatorPatch := None; ic_testsDuringLoop := None;
       ic_swapDriverOnFail := None; ic_swapDriverEachRound := None |}.

Definition jointMaxRounds : Z := ic_maxRounds implConfig ?? 1.
Definition testsDuringLoop : bool := ic_testsDuringLoop implConfig ?? false.
Definition applyNavigatorPatch : ApplyMode := ic_applyNavigatorPatch implConfig ?? apply_auto.
Definition swapDriverOnFail : bool := ic_swapDriverOnFail implConfig ?? false.
Definition swapDriverEachRound : bool := ic_swapDriverEachRound implConfig ?? false.

Definition jointWorktreesRoot : path := worktreesRootOf rootDir (runId context).
Definition driverWorktree : path := jointWorktreesRoot ++ ["driver"].

(** The variables of the loop, and the rounds run so far. *)
Record JointState := {
  js_driver : AgentName;
  js_navigator : AgentName;
  js_lastTestExit : option Z;
  js_lastNavigatorNotes : string;
  js_lastApplyOk : bool;
  js_history : list JointRound }.

Definition note (phase content : string) (round : Z) : M unit :=
  appendTranscript runDir phase "system" None "note" content (Some round)
    transcriptStream.

(** [navigatorPatch.trim()] as a condition. *)
Definition patchNonEmpty (navigatorPatch : string) : bool :=
  JS.nonEmpty (JS.trim navigatorPatch).

(** [testExit === null || testExit === 0]. *)
Definition testsAbsentOrPassing (testExit : option Z) : bool :=
  match testExit with
  | None => true
  | Some c => c =? 0
  end.

(** [testExit && testExit !== 0]. *)
Definition testsFailed (testExit : option Z) : bool :=
  match testExit with
  | None => false
  | Some c => negb (c =? 0) && negb (c =? 0)
  end.

(** The end of the loop body: the loop variables are updated, then the
    stop conditions and the swaps are tried in their order. *)
Definition jointRoundEnd (round : Z) (st : JointState) (navigatorNotes : string)
    (navigatorPatch : string) (applied : bool) (testExit : option Z)
  : M (LoopStep JointState) :=
  let lastNavigatorNotes := navigatorNotes in
  let lastTestExit := testExit in
  let lastApplyOk := applied || negb (patchNonEmpty navigatorPatch) in
  let history := js_history st ++
    [{| jr_round := round; jr_driver := js_driver st; jr_navigator := js_navigator st;
        jr_navigatorPatch := navigatorPatch; jr_applied := applied;
        jr_testExit := testExit |}] in
  let st :=
    {| js_driver := js_driver st; js_navigator := js_navigator st;
       js_lastTestExit := lastTestExit; js_lastNavigatorNotes := lastNavigatorNotes;
       js_lastApplyOk := lastApplyOk; js_history := history |} in
  if negb (patchNonEmpty navigatorPatch) && testsAbsentOrPassing testExit then
    note "implement"
      (if match testExit with Some c => c =? 0 | None => false end
       then "Stopping early: tests passing and no navigator changes."
       else "Stopping early: no navigator changes.") round;;
    ret (Break st)
  else if negb lastApplyOk then
    note "implement" "Stopping early: navigator patch failed to apply." round;;
    ret (Break st)
  else if swapDriverOnFail && testsFailed testExit then
    let previousDriver := js_driver st in
    let driver := js_navigator st in
    let navigator := otherAgent driver in
    note "implement"
      ("Swapping driver role from " +:+ agentName previousDriver +:+ " to "
       +:+ agentName driver +:+ " due to failing tests.") round;;
    ret (Continue
           {| js_driver := driver; js_navigator := navigator;
              js_lastTestExit := lastTestExit;
              js_lastNavigatorNotes := lastNavigatorNotes;
              js_lastApplyOk := lastApplyOk; js_history := history |})
  else if swapDriverEachRound && (round <? jointMaxRounds) then
    let previousDriver := js_driver st in
    let driver := js_navigator st in
    let navigator := otherAgent driver in
    note "implement"
      ("Swapping driver role from " +:+ agentName previousDriver +:+ " to "
       +:+ agentName driver +:+ " for next round.") round;;
    ret (Continue
           {| js_driver := driver; js_navigator := navigator;
              js_lastTestExit := lastTestExit;
              js_lastNavigatorNotes := lastNavigatorNotes;
              js_lastApplyOk := lastApplyOk; js_history := history |})
  else ret (Continue st).

(** The body of the joint loop. *)
Definition jointRound (round : Z) (st : JointState) : M (LoopStep JointState) :=
  let driver := js_driver st in
  let navigator := js_navigator st in
  let roundDir := jointPhaseDir ++ ["round_" +:+ JS.showZ round] in
  ensureDir roundDir;;
  let driverDir := roundDir ++ ["driver"] in
  let navigatorDir := roundDir ++ ["navigator"] in
  ensureDir driverDir;;
  ensureDir navigatorDir;;
  let* driverPlan := readText (runDir ++ ["plan"; agentName driver +:+ ".md"]) in
  let* driverPropose := readText (runDir ++ ["propose"; agentName driver +:+ ".md"]) in
  let driverPrompt :=
    buildJointDriverPrompt context decision_ driver navigator (driverPlan ?? "")
      (driverPropose ?? "") sharedContext executionPlan (js_lastNavigatorNotes st)
      (js_lastTestExit st) round jointMaxRounds in
  appendTranscript runDir "implement" "system" None "prompt" driverPrompt
    (Some round) transcriptStream;;
  let* driverResult :=
    runAgentPhase driver (agents config driver) "implement" driverPrompt
      driverWorktree (Some (driverDir ++ ["output.md"])) driverDir context
      (am_version (agentMeta driver)) (am_capabilities (agentMeta driver))
      timeoutMs in
  appendTranscript runDir "implement" "agent" (Some driver) "response"
    (formatAgentOutput (stdout driverResult) (stderr driverResult))
    (Some round) transcriptStream;;
  let* driverDiff :=
    if isGit then gitDiff driverWorktree else diffDirs rootDir driverWorktree in
  writeText (driverDir ++ ["diff.patch"]) driverDiff;;
  let* testExit :=
    if testsDuringLoop && testsEnabled config then
      let* testResult :=
        runTestsOnce config driverWorktree (driverDir ++ ["test.log"]) timeoutMs in
      note "implement"
        ("Driver tests exit code: " +:+ JS.showZ (exitCode testResult)) round;;
      ret (Some (exitCode testResult))
    else ret None in
  let navigatorWorktree :=
    jointWorktreesRoot ++ ["navigator_round_" +:+ JS.showZ round] in
  copyWorkspace driverWorktree navigatorWorktree;;
  let navigatorPrompt :=
    buildJointNavigatorPrompt context decision_ driver navigator sharedContext
      executionPlan driverDiff testExit round jointMaxRounds in
  appendTranscript runDir "implement" "system" None "prompt" navigatorPrompt
    (Some round) transcriptStream;;
  let* navigatorResult :=
    runAgentPhase navigator (agents config navigator) "collab" navigatorPrompt
      navigatorWorktree (Some (navigatorDir ++ ["output.md"])) navigatorDir context
      (am_version (agentMeta navigator)) (am_capabilities (agentMeta navigator))
      timeoutMs in
  appendTranscript runDir "implement" "agent" (Some navigator) "response"
    (formatAgentOutput (stdout navigatorResult) (stderr navigatorResult))
    (Some round) transcriptStream;;
  let* navigatorPatch := diffDirsBetween driverWorktree navigatorWorktree in
  writeText (navigatorDir ++ ["navigator.patch"]) navigatorPatch;;
  let* applied :=
    match applyNavigatorPatch with
    | apply_auto =>
        if patchNonEmpty navigatorPatch then
          let* applyResult :=
            applyPatchToWorktree driverWorktree
              (navigatorDir ++ ["navigator.patch"]) isGit in
          let '(applied, out, err) := applyResult in
          writeText (navigatorDir ++ ["apply.log"]) (out +:+ err);;
          note "implement"
            ("Navigator patch apply: " +:+ (if applied then "ok" else "failed"))
            round;;
          ret applied
        else ret false
    | apply_manual => ret false
    end in
  let* testExit :=
    if testsDuringLoop && testsEnabled config then
      let* testResult :=
        runTestsOnce config driverWorktree (navigatorDir ++ ["post_test.log"])
          timeoutMs in
      note "implement"
        ("Post-patch tests exit code: " +:+ JS.showZ (exitCode testResult)) round;;
      ret (Some (exitCode testResult))
    else ret testExit in
  jointRoundEnd round st
    (formatAgentOutput (stdout navigatorResult) (stderr navigatorResult))
    navigatorPatch applied testExit.

Definition jointMetaJson (driver navigator : AgentName) (changedFiles : list string)
    (stats : DiffStats) : json :=
  JObj [("driver", JStr (agentName driver));
        ("navigator", JStr (agentName navigator));
        ("rounds", JNum jointMaxRounds);
        ("changedFiles", JArr (List.map JStr changedFiles));
        ("diffStats", statsJson stats)].

(** What follows the loop: the final patch and the meta record. *)
Definition jointFinish (st : JointState) : M unit :=
  let* finalPatch :=
    if isGit then gitDiff driverWorktree else diffDirs rootDir driverWorktree in
  writeText (jointPhaseDir ++ ["final.patch"]) finalPatch;;
  let* changedFiles := if isGit then gitStatusFiles driverWorktree else ret [] in
  writeText (jointPhaseDir ++ ["meta.json"])
    (JSON_pretty (jointMetaJson (js_driver st) (js_navigator st) changedFiles
                    (summarizeDiff finalPatch))).

(** What precedes the loop: the roles and the driver's worktree. *)
Definition jointStart : M JointState :=
  ensureDir jointPhaseDir;;
  let* driver := liftExn (match resolveDriver (ic_driver implConfig) decision_ with
                          | Some a => inr a
                          | None => inl (TypeError "winner is not an agent name")
                          end) in
  let navigator := otherAgent driver in
  let* present := existsSync driverWorktree in
  (if negb present then
     if isGit then ensureWorktree rootDir driverWorktree
     else copyWorkspace rootDir driverWorktree
   else ret tt);;
  ret {| js_driver := driver; js_navigator := navigator;
         js_lastTestExit := None; js_lastNavigatorNotes := "";
         js_lastApplyOk := true; js_history := [] |}.

(** The phase, returning next to nothing the loop variables it ended
    with. *)
Definition runJoint (fuel : nat) : M JointState :=
  let* st0 := jointStart in
  let* st := forRounds fuel 1 jointMaxRounds jointRound st0 in
  jointFinish st;;
  ret st.

Definition runImplementationPhaseJoint (fuel : nat) : M unit :=
  runJoint fuel;; ret tt.

End Joint.

(** *** orchestrator.ts: the convergence phase *)

Definition issueJson (it : ReviewIssue) : json :=
  JObj ([("id", JStr (ri_id it)); ("summary", JStr (ri_summary it))]
        ++ match ri_file it with Some f => [("file", JStr f)] | None => [] end
        ++ match ri_suggested_fix it with
           | Some f => [("suggested_fix", JStr f)]
           | None => []
           end).

Definition reviewJson (r : ReviewSummary) : json :=
  JObj [("blockers", JArr (List.map issueJson (blockers r)));
        ("warnings", JArr (List.map issueJson (warnings r)));
        ("notes", JStr (notes r))].

Section Converge.

Variable A : PhaseArgs.
Local Abbreviation config := (pa_config A).
Local Abbreviation context := (pa_context A).
Local Abbreviation runDir := (pa_runDir A).
Local Abbreviation decision_ := (pa_decision A).
Local Abbreviation isGit := (pa_isGit A).
Local Abbreviation rootDir := (pa_rootDir A).
Local Abbreviation agentMeta := (pa_agentMeta A).
Local Abbreviation sharedContext := (pa_sharedContext A).
Local Abbreviation executionPlan := (pa_executionPlan A).
Local Abbreviation transcriptStream := (pa_transcriptStream A).
Local Abbreviation timeoutMs := (pa_timeoutMs A).

Definition convergePhaseDir : path := runDir ++ ["converge"].

Definition convergeEnabled : bool :=
  match converge config with Some c => isTrue (cv_enabled c) | None => false end.

Definition reviewEnabled : bool :=
  match review config with Some r => rc_enabled r | None => false end.

(** The value the configuration gives for [converge.maxRounds], with
    its default. *)
Definition convergeConfigured : Z :=
  match converge config with Some c => cv_maxRounds c ?? 1 | None => 1 end.

(** [Math.max(1, config.converge.maxRounds ?? 1)]. *)
Definition convergeMaxRounds : Z := Z.max 1 convergeConfigured.

(** The variables of the loop, and the rounds run so far. *)
Record ConvergeState := {
  cs_fixer : AgentName;
  cs_critic : AgentName;
  cs_finalReview : ReviewSummary;
  cs_currentDiff : string;
  cs_currentStats : DiffStats;
  cs_currentFiles : list string;
  cs_lastTestExit : option Z;
  cs_history : list ConvergeRound }.

Definition cnote (content : string) (round : option Z) : M unit :=
  appendTranscript runDir "converge" "system" None "note" content round
    transcriptStream.

Definition currentDiffOf (canonicalWorktree : path) : M string :=
  if isGit then gitDiff canonicalWorktree else diffDirs rootDir canonicalWorktree.

(** The review a round ends with: built from the critic's text alone. *)
Definition reviewOfCritic (criticText : string) : exn + ReviewSummary :=
  match parseReviewSummary criticText with
  | inl e => inl e
  | inr (Some r) => inr (mergeReviewSummaries [r])
  | inr None => inr (mergeReviewSummaries [])
  end.

(** [okByReview && okByTests]. *)
Definition convergeDone (finalReview : ReviewSummary) (lastTestExit : option Z) : bool :=
  (lengthZ (blockers finalReview) =? 0) &&
  match lastTestExit with None => true | Some c => c =? 0 end.

(** The body of the convergence loop. *)
Definition convergeRound (canonicalWorktree : path) (executionPlan : string)
    (round : Z) (st : ConvergeState) : M (LoopStep ConvergeState) :=
  let fixer := cs_fixer st in
  let critic := cs_critic st in
  let roundDir := convergePhaseDir ++ ["round_" +:+ JS.showZ round] in
  ensureDir roundDir;;
  let fixPrompt :=
    buildConvergeFixPrompt context decision_ fixer critic sharedContext executionPlan
      (cs_finalReview st) (cs_currentFiles st) (cs_currentStats st)
      (cs_lastTestExit st) round convergeMaxRounds in
  appendTranscript runDir "converge" "system" None "prompt" fixPrompt (Some round)
    transcriptStream;;
  let* fixerResult :=
    runAgentPhase fixer (agents config fixer) "converge" fixPrompt canonicalWorktree
      (Some (roundDir ++ ["fixer.md"])) (roundDir ++ ["fixer"]) context
      (am_version (agentMeta fixer)) (am_capabilities (agentMeta fixer)) timeoutMs in
  appendTranscript runDir "converge" "agent" (Some fixer) "response"
    (formatAgentOutput (stdout fixerResult) (stderr fixerResult)) (Some round)
    transcriptStream;;
  let* currentDiff := currentDiffOf canonicalWorktree in
  let currentStats := summarizeDiff currentDiff in
  let currentFiles :=
    extractChangedFilesFromDiff currentDiff (showPath rootDir)
      (showPath canonicalWorktree) in
  writeText (roundDir ++ ["diff.patch"]) currentDiff;;
  let* lastTestExit :=
    if testsEnabled config then
      let* testResult :=
        runTestsOnce config canonicalWorktree (roundDir ++ ["test.log"]) timeoutMs in
      cnote ("Round " +:+ JS.showZ round +:+ " tests exit code: "
             +:+ JS.showZ (exitCode testResult)) (Some round);;
      ret (Some (exitCode testResult))
    else ret (cs_lastTestExit st) in
  let reviewPrompt :=
    buildReviewPrompt context ("converge (fixer: " +:+ agentName fixer +:+ ")")
      currentDiff sharedContext in
  appendTranscript runDir "converge" "system" None "prompt" reviewPrompt (Some round)
    transcriptStream;;
  let* criticResult :=
    runAgentPhase critic (agents config critic) "review" reviewPrompt canonicalWorktree
      (Some (roundDir ++ ["critic.json"])) (roundDir ++ ["critic"]) context
      (am_version (agentMeta critic)) (am_capabilities (agentMeta critic)) timeoutMs in
  let* criticRead := readText (roundDir ++ ["critic.json"]) in
  let criticText := criticRead ?? "" in
  appendTranscript runDir "converge" "agent" (Some critic) "response"
    (if JS.nonEmpty criticText then criticText
     else formatAgentOutput (stdout criticResult) (stderr criticResult))
    (Some round) transcriptStream;;
  let* finalReview := liftExn (reviewOfCritic criticText) in
  writeText (roundDir ++ ["review.json"]) (JSON_pretty (reviewJson finalReview));;
  let history := cs_history st ++
    [{| cr_round := round; cr_fixer := fixer; cr_critic := critic;
        cr_review := finalReview; cr_testExit := lastTestExit |}] in
  if convergeDone finalReview lastTestExit then
    cnote "Converge complete: no blockers and tests passing (if enabled)."
      (Some round);;
    ret (Break
           {| cs_fixer := fixer; cs_critic := critic; cs_finalReview := finalReview;
              cs_currentDiff := currentDiff; cs_currentStats := currentStats;
              cs_currentFiles := currentFiles; cs_lastTestExit := lastTestExit;
              cs_history := history |})
  else if round <? convergeMaxRounds then
    let previousFixer := fixer in
    let fixer := critic in
    let critic := otherAgent fixer in
    cnote ("Swapping fixer role from " +:+ agentName previousFixer +:+ " to "
           +:+ agentName fixer +:+ " for next converge round.") (Some round);;
    ret (Continue
           {| cs_fixer := fixer; cs_critic := critic; cs_finalReview := finalReview;
              cs_currentDiff := currentDiff; cs_currentStats := currentStats;
              cs_currentFiles := currentFiles; cs_lastTestExit := lastTestExit;
              cs_history := history |})
  else
    ret (Continue
           {| cs_fixer := fixer; cs_critic := critic; cs_finalReview := finalReview;
              cs_currentDiff := currentDiff; cs_currentStats := currentStats;
              cs_currentFiles := currentFiles; cs_lastTestExit := lastTestExit;
              cs_history := history |}).

(** The worktree the phase works in; a winner outside its declared type
    cannot name one. *)
Definition canonicalWorktreeOf : exn + path :=
  match implementationMode config with
  | joint => inr (worktreesRootOf rootDir (runId context) ++ ["driver"])
  | parallel =>
      match asAgentName (d_winner decision_) with
      | Some a => inr (worktreesRootOf rootDir (runId context) ++ [agentName a])
      | None => inl (TypeError "winner is not an agent name")
      end
  end.

(** The fixer before the loop: the resolved driver or the winner, then
    in joint mode the driver that the implementation phase recorded. *)
Definition initialFixer : M (option AgentName) :=
  let fixer :=
    match implementationMode config with
    | joint =>
        resolveDriver
          (match implementation config with Some ic => ic_driver ic | None => None end)
          decision_
    | parallel => asAgentName (d_winner decision_)
    end in
  match implementationMode config with
  | joint =>
      let* metaText := readText (runDir ++ ["implement"; "joint"; "meta.json"]) in
      match metaText with
      | Some text =>
          if JS.nonEmpty text then
            match JSON_parse text with
            | Some meta =>
                match Json.getProp meta "driver" with
                | Some d => if Json.truthy d then ret (asAgentName d) else ret fixer
                | None => ret fixer
                end
            | None => ret fixer
            end
          else ret fixer
      | None => ret fixer
      end
  | parallel => ret fixer
  end.

(** What precedes the loop; [None] when the phase returns early. *)
Definition convergeSetup : M (option (path * string * ConvergeState)) :=
  if negb convergeEnabled then ret None
  else if negb reviewEnabled then ret None
  else if match implementationMode config with
          | joint => false
          | parallel => winnerIsNeither decision_
          end
  then ret None
  else
    ensureDir convergePhaseDir;;
    let* canonicalWorktree := liftExn canonicalWorktreeOf in
    let* present := existsSync canonicalWorktree in
    if negb present then ret None
    else
      let* fixer0 := initialFixer in
      let* fixer := liftExn (match fixer0 with
                             | Some a => inr a
                             | None => inl (TypeError "fixer is not an agent name")
                             end) in
      let critic := otherAgent fixer in
      let reviewers :=
        match review config with
        | Some r => match rc_reviewer r with
                    | rv_both => [codex; claude]
                    | rv_codex => [codex]
                    | rv_claude => [claude]
                    end
        | None => []
        end in
      let* initialReview := readReviewSummaries runDir reviewers in
      let* plan := readText (runDir ++ ["execution_plan"; "final.md"]) in
      let executionPlan := plan ?? "" in
      let* currentDiff := currentDiffOf canonicalWorktree in
      let currentStats := summarizeDiff currentDiff in
      let currentFiles :=
        extractChangedFilesFromDiff currentDiff (showPath rootDir)
          (showPath canonicalWorktree) in
      let* lastTestExit :=
        if testsEnabled config then
          let* testResult :=
            runTestsOnce config canonicalWorktree
              (convergePhaseDir ++ ["pre_test.log"]) timeoutMs in
          cnote ("Pre-converge tests exit code: " +:+ JS.showZ (exitCode testResult))
            None;;
          ret (Some (exitCode testResult))
        else ret None in
      let needsConverge :=
        (lengthZ (blockers initialReview) >? 0) ||
        match lastTestExit with Some c => negb (c =? 0) | None => false end in
      if negb needsConverge then ret None
      else
        ret (Some (canonicalWorktree, executionPlan,
                   {| cs_fixer := fixer; cs_critic := critic;
                      cs_finalReview := initialReview;
                      cs_currentDiff := currentDiff;
                      cs_currentStats := currentStats;
                      cs_currentFiles := currentFiles;
                      cs_lastTestExit := lastTestExit;
                      cs_history := [] |})).

Definition convergeMetaJson (canonicalWorktree : path) (st : ConvergeState) : json :=
  JObj [("canonicalWorktree", JStr (showPath canonicalWorktree));
        ("final", reviewJson (cs_finalReview st));
        ("diffStats", statsJson (cs_currentStats st));
        ("files", JArr (List.map JStr (cs_currentFiles st)))].

Definition convergeFinish (canonicalWorktree : path) (st : ConvergeState) : M unit :=
  writeText (convergePhaseDir ++ ["final.patch"]) (cs_currentDiff st);;
  writeText (convergePhaseDir ++ ["meta.json"])
    (JSON_pretty (convergeMetaJson canonicalWorktree st)).

(** The loop alone, from the state the setup produced. *)
Definition convergeLoop (fuel : nat) (canonicalWorktree : path)
    (executionPlan : string) (st0 : ConvergeState) : M ConvergeState :=
  forRounds fuel 1 convergeMaxRounds (convergeRound canonicalWorktree executionPlan) st0.

(** The phase, returning next to nothing the loop variables it ended
    with ([None] when it returned before the loop). *)
Definition runConverge (fuel : nat) : M (option ConvergeState) :=
  let* setup := convergeSetup in
  match setup with
  | None => ret None
  | Some (canonicalWorktree, executionPlan, st0) =>
      let* st := convergeLoop fuel canonicalWorktree executionPlan st0 in
      convergeFinish canonicalWorktree st;;
      ret (Some st)
  end.

Definition runConvergePhase (fuel : nat) : M unit :=
  runConverge fuel;; ret tt.

End Converge.

(** *** orchestrator.ts: the final apply step *)

(** The worktree the patch comes from; a winner outside its declared type
    cannot name one. *)
Definition sourceWorktreeOf (rootDir runDir : path) (decision_ : Decision)
    (config : Config) : exn + path :=
  let run := basenameOf runDir in
  let worktreesRoot := worktreesRootOf rootDir run in
  match implementationMode config with
  | joint => inr (worktreesRoot ++ ["driver"])
  | parallel =>
      match asAgentName (d_winner decision_) with
      | Some a => inr (worktreesRoot ++ [agentName a])
      | None => inl (TypeError "winner is not an agent name")
      end
  end.

Definition applyWinnerPatch (rootDir runDir : path) (decision_ : Decision)
    (isGit : bool) (config : Config) : M unit :=
  let implementationMode_ := implementationMode config in
  if match implementationMode_ with
     | joint => false
     | parallel => winnerIsNeither decision_
     end
  then ret tt
  else
    let applyLog := runDir ++ ["final"; "apply.log"] in
    let* sourceWorktree := liftExn (sourceWorktreeOf rootDir runDir decision_ config) in
    let* blocked :=
      if match guardrails config with Some g => isTrue (g_enabled g) | None => false end
      then
        let patchPath := runDir ++ ["final"; "final.patch"] in
        let* patchRead := readText patchPath in
        let patchText := patchRead ?? "" in
        let files :=
          extractChangedFilesFromDiff patchText (showPath rootDir)
            (showPath (if isGit then rootDir else sourceWorktree)) in
        let stats := summarizeDiff patchText in
        let violations := evaluateGuardrails config files stats in
        if lengthZ violations >? 0 then
          writeText applyLog
            ("Guardrails blocked apply." +:+ JS.nl +:+ JS.nl
             +:+ JS.join JS.nl (List.map (fun v => "- " +:+ v) violations)
             +:+ JS.nl);;
          ret true
        else ret false
      else ret false in
    if blocked then ret tt
    else
      let* applied :=
        if isGit then
          let patchPath := runDir ++ ["final"; "final.patch"] in
          let* present := existsSync patchPath in
          if negb present then ret false
          else
            let* applyResult :=
              runCommand (simpleCommand "git" ["apply"; showPath patchPath] rootDir None) in
            writeText applyLog (stdout applyResult +:+ stderr applyResult);;
            ret true
        else
          let* present := existsSync sourceWorktree in
          if negb present
          then throw (Error ("Worktree not found for apply: " +:+ showPath sourceWorktree))
          else
            syncWorkspace sourceWorktree rootDir;;
            writeText applyLog
              ("Synced worktree into workspace (non-git mode)." +:+ JS.nl
               +:+ "Source: " +:+ showPath sourceWorktree +:+ JS.nl
               +:+ "Target: " +:+ showPath rootDir +:+ JS.nl);;
            ret true in
      if negb applied then ret tt
      else if testsEnabled config then
        let* testResult :=
          runCommand (simpleCommand
                        (match tests config with Some t => cc_command t | None => "" end)
                        (match tests config with Some t => cc_args t ?? [] | None => [] end)
                        rootDir None) in
        writeText (runDir ++ ["final"; "tests.log"])
          (stdout testResult +:+ stderr testResult)
      else ret tt.

(** ** What the specification says, in the terms of the model *)

Definition stepState {S} (step : LoopStep S) : S :=
  match step with Continue s | Break s => s end.

Definition isBreak {S} (step : LoopStep S) : bool :=
  match step with Break _ => true | Continue _ => false end.

(** Stop condition (a): the navigator patch is empty and the tests are
    absent or passing. *)
Definition stopsConverged (r : JointRound) : bool :=
  negb (patchNonEmpty (jr_navigatorPatch r)) && testsAbsentOrPassing (jr_testExit r).

(** Stop condition (b): there is a navigator patch and it was not applied. *)
Definition stopsPatchFailed (r : JointRound) : bool :=
  patchNonEmpty (jr_navigatorPatch r) && negb (jr_applied r).

(** Swap condition (c): swap-on-fail is enabled and the last test run of
    the round failed. *)
Definition swapsOnFail (A : PhaseArgs) (r : JointRound) : bool :=
  swapDriverOnFail A && testsFailed (jr_testExit r).

(** Swap condition (d): the unconditional swap is enabled and rounds
    remain. *)
Definition swapsEachRound (A : PhaseArgs) (r : JointRound) : bool :=
  swapDriverEachRound A && (jr_round r <? jointMaxRounds A).

(** The joint loop as the specification describes it: from round [round]
    on, with the roles [d] and [n], the loop runs the rounds [h] and ends
    with the roles [fin].  After each round the conditions are tried in the
    order (a), (b), (c), (d). *)
Inductive JointRun (A : PhaseArgs)
  : Z -> AgentName -> AgentName -> list JointRound -> AgentName * AgentName -> Prop :=
| JointRun_exhausted round d n :
    jointMaxRounds A < round ->
    JointRun A round d n [] (d, n)
| JointRun_converged round d n r :
    round <= jointMaxRounds A ->
    jr_round r = round -> jr_driver r = d -> jr_navigator r = n ->
    stopsConverged r = true ->
    JointRun A round d n [r] (d, n)
| JointRun_patch_failed round d n r :
    round <= jointMaxRounds A ->
    jr_round r = round -> jr_driver r = d -> jr_navigator r = n ->
    stopsConverged r = false -> stopsPatchFailed r = true ->
    JointRun A round d n [r] (d, n)
| JointRun_swap_on_fail round d n r h fin :
    round <= jointMaxRounds A ->
    jr_round r = round -> jr_driver r = d -> jr_navigator r = n ->
    stopsConverged r = false -> stopsPatchFailed r = false ->
    swapsOnFail A r = true ->
    JointRun A (round + 1) n d h fin ->
    JointRun A round d n (r :: h) fin
| JointRun_swap_each_round round d n r h fin :
    round <= jointMaxRounds A ->
    jr_round r = round -> jr_driver r = d -> jr_navigator r = n ->
    stopsConverged r = false -> stopsPatchFailed r = false ->
    swapsOnFail A r = false -> swapsEachRound A r = true ->
    JointRun A (round + 1) n d h fin ->
    JointRun A round d n (r :: h) fin
| JointRun_keep round d n r h fin :
    round <= jointMaxRounds A ->
    jr_round r = round -> jr_driver r = d -> jr_navigator r = n ->
    stopsConverged r = false -> stopsPatchFailed r = false ->
    swapsOnFail A r = false -> swapsEachRound A r = false ->
    JointRun A (round + 1) d n h fin ->
    JointRun A round d n (r :: h) fin.

(** The stop condition of a convergence round: the round's review has no
    blocker and the tests are absent or passing. *)
Definition convergeStops (r : ConvergeRound) : bool :=
  convergeDone (cr_review r) (cr_testExit r).

(** The convergence loop as the specification describes it: from round
    [round] on, with the roles [f] and [c], the loop runs the rounds [h] and
    ends with the roles [fin].  It stops at the first round that meets the
    stop condition; otherwise the roles swap while rounds remain. *)
Inductive ConvergeRun (A : PhaseArgs)
  : Z -> AgentName -> AgentName -> list ConvergeRound -> AgentName * AgentName -> Prop :=
| ConvergeRun_exhausted round f c :
    convergeMaxRounds A < round ->
    ConvergeRun A round f c [] (f, c)
| ConvergeRun_done round f c r :
    round <= convergeMaxRounds A ->
    cr_round r = round -> cr_fixer r = f -> cr_critic r = c ->
    convergeStops r = true ->
    ConvergeRun A round f c [r] (f, c)
| ConvergeRun_swap round f c r h fin :
    round < convergeMaxRounds A ->
    cr_round r = round -> cr_fixer r = f -> cr_critic r = c ->
    convergeStops r = false ->
    ConvergeRun A (round + 1) c f h fin ->
    ConvergeRun A round f c (r :: h) fin
| ConvergeRun_last round f c r :
    round = convergeMaxRounds A ->
    cr_round r = round -> cr_fixer r = f -> cr_critic r = c ->
    convergeStops r = false ->
    ConvergeRun A round f c [r] (f, c).

(** The review a round ends with replaces the one before: it holds the
    blockers and warnings of the critic's output of that round and nothing
    else. *)
Definition reviewFromCriticAlone (review : ReviewSummary) : Prop :=
  exists criticText,
    reviewOfCritic criticText = inr review /\
    match parseReviewSummary criticText with
    | inr (Some parsed) =>
        blockers review = blockers parsed /\ warnings review = warnings parsed
    | inr None => blockers review = [] /\ warnings review = []
    | inl _ => False
    end.

(** A computation that never runs out of fuel. *)
Definition total {X} (m : M X) : Prop := forall w, fst (m w) <> OutOfFuel.

(** *** Guardrails, rule by rule *)










(** *** JSON extraction, tier by tier *)

(** The text of the third tier: from the first opening brace to the last
    closing brace, when the second comes after the first. *)
Definition braceSpan (value : string) : option string :=
  match JS.indexOf value "{", JS.lastIndexOf value "}" with
  | Some f, Some l => if (f <? l)%nat then Some (JS.slice value f (l + 1)) else None
  | _, _ => None
  end.

(** The extraction in the specification's words: the texts of the three
    tiers in their order, and the value of the first one that parses. *)
Definition tierTexts (value : string) : list (option string) :=
  [Some (JS.trim value); matchFenced value; braceSpan value].

Fixpoint firstParsed (tiers : list (option string)) : option json :=
  match tiers with
  | [] => None
  | Some text :: rest =>
      match JSON_parse text with
      | Some v => Some v
      | None => firstParsed rest
      end
  | None :: rest => firstParsed rest
  end.

Definition extractJsonAsSpecified (value : string) : json :=
  match firstParsed (tierTexts value) with
  | Some v => v
  | None => JNull
  end.




(** *** Traces *)

(** The directories an effect list asks to create. *)
Definition mkdirsOf (effects : list Effect) : list path :=
  omap (fun e => match e with EMkdir p => Some p | _ => None end) effects.

(** A debate round subdirectory: a directory right under the phase
    directory whose name starts with [debate_round_]. *)
Definition isDebateRoundDir (A : DecideArgs) (p : path) : bool :=
  match Fs.below (decidePhaseDir A) p with
  | Some [name] => JS.startsWith name "debate_round_"
  | _ => false
  end.

(** The debate round subdirectories an effect list creates, each once. *)
Definition debateRoundDirsOf (A : DecideArgs) (effects : list Effect) : list path :=
  remove_dups (List.filter (isDebateRoundDir A) (mkdirsOf effects)).

(** Every effect of a computation satisfies [P]. *)
Definition emits {X} (P : Effect -> Prop) (m : M X) : Prop :=
  forall w, exists l, w_trace (snd (m w)) = w_trace w ++ l /\ Forall P l.

(** An effect that creates no directory outside [Q]. *)
Definition mkdirsIn (Q : path -> Prop) (e : Effect) : Prop :=
  match e with
  | EMkdir p => Q p
  | _ => True
  end.

(** A directory created during the rounds [lo..hi]: a round directory only
    if it is the directory of one of these rounds. *)
Definition roundIn A (lo hi : Z) (p : path) : Prop :=
  isDebateRoundDir A p = true -> exists k, lo <= k <= hi /\ p = debateRoundDir A k.



(** *** Lines of a diff *)

(** A file header of a unified diff. *)
Definition isHeaderLine (line : string) : bool :=
  JS.startsWith line "+++ " || JS.startsWith line "--- ".

Definition isAddedLine (line : string) : bool :=
  negb (isHeaderLine line) && JS.startsWith line "+".

Definition isRemovedLine (line : string) : bool :=
  negb (isHeaderLine line) && JS.startsWith line "-".

(** Ascending code-unit order. *)
Definition ascending (l : list string) : Prop :=
  Sorted (fun a b => String.leb a b = true) l.

(** No star in a glob. *)
Definition starFree (glob : string) : bool :=
  forallb (fun ch => negb (Ascii.eqb ch "*")) (chars glob).

(** *** git.ts: isGitRepo *)

Definition isGitRepo (rootDir : path) : M bool :=
  catch
    (let* result :=
       runCommand (simpleCommand "git" ["rev-parse"; "--is-inside-work-tree"]
                     rootDir None) in
     ret ((exitCode result =? 0) && String.eqb (JS.trim (stdout result)) "true"))
    (ret false).

(** *** Processes *)

(** Starting a process: what the outside world answers, and the world
    after it, with the start on the trace. *)
Definition started (o : RunOptions) (w : World) : (string + ProcExit) * World :=
  let '(r, fs', ext') := spawn o (w_fs w) (w_ext w) in
  (r, {| w_fs := fs'; w_ext := ext'; w_trace := w_trace w ++ [ESpawn o] |}).

(** The exit code a finished process is given. *)
Definition exitOf (pe : ProcExit) : Z :=
  match pe_code pe with
  | Some c => c
  | None => if pe_timedOut pe then 124 else 0
  end.

(** The entry [gitStatusFiles] makes of a line of the status. *)
Definition statusEntry (line : string) : string := JS.drop 3 (JS.trim line).

(** *** Frames *)

(** A computation that leaves a regular file at [q] as it is. *)
Definition keepsFile {X} (q : path) (m : M X) : Prop :=
  forall w c, w_fs w !! q = Some (File c) -> w_fs (snd (m w)) !! q = Some (File c).

(** An effect that starts no process. *)
Definition noSpawn (e : Effect) : Prop :=
  match e with
  | ESpawn _ => False
  | _ => True
  end.

(** The winner a rule-based mode decides. *)
Definition ruleWinner (mode : DecisionMode) : string :=
  match mode with
  | prefer_codex => "codex"
  | prefer_claude => "claude"
  | _ => "neither"
  end.

(** The decision [runJudge] makes of the judge's text. *)
Definition judged (mode : DecisionMode) (judgeAgent : AgentName) (judgeText : string)
  : Decision :=
  let parsed := extractJson judgeText in
  {| d_mode := mode;
     d_winner :=
       match Json.getProp parsed "winner" with
       | None | Some JNull => JStr "neither"
       | Some v => v
       end;
     d_rationale :=
       match Json.getProp parsed "rationale" with
       | None | Some JNull => JStr "Judge output was not parseable. Defaulting to neither."
       | Some v => v
       end;
     d_judgeAgent := Some judgeAgent; d_executionDriver := None |}.

(** *** What a round of the joint loop records *)

Definition roundFacts (A : PhaseArgs) (r : JointRound) : Prop :=
  (applyNavigatorPatch A = apply_manual -> jr_applied r = false) /\
  (patchNonEmpty (jr_navigatorPatch r) = false -> jr_applied r = false) /\
  (jr_testExit r = None <-> testsDuringLoop A && testsEnabled (pa_config A) = false).

(** A computation that leaves the path [q] as it is, whatever it holds and
    however the computation ends. *)
Definition leaves {X} (q : path) (m : M X) : Prop :=
  forall w, w_fs (snd (m w)) !! q = w_fs w !! q.

(** A path of the destination under a top-level entry that the copies
    exclude. *)
Definition underExcluded (destDir q : path) : Prop :=
  exists name rest, excluded DEFAULT_EXCLUDES name = true /\ q = destDir ++ name :: rest.

(** *** orchestrator.ts: the final phase *)

(** The patch that the final phase takes: the one of the convergence when
    it is there, else the one of the joint implementation or of the
    winner; a winner outside its declared type cannot name one. *)
Definition finalPatchSource (runDir : path) (decision_ : Decision) (config : Config)
    (convergeThere : bool) : exn + option path :=
  if convergeThere then inr (Some (runDir ++ ["converge"; "final.patch"]))
  else
    match implementationMode config with
    | joint => inr (Some (runDir ++ ["implement"; "joint"; "final.patch"]))
    | parallel =>
        if winnerIsNeither decision_ then inr None
        else
          match asAgentName (d_winner decision_) with
          | Some a => inr (Some (runDir ++ ["implement"; agentName a; "diff.patch"]))
          | None => inl (TypeError "winner is not an agent name")
          end
    end.

(** [safeRunMode]: the [runMode] of the parsed context; [null] when the
    text does not parse, and when the access throws on a parsed [null]. *)
Definition safeRunMode (contextText : string) : option json :=
  match JSON_parse contextText with
  | Some JNull => None
  | Some parsed =>
      match Json.getProp parsed "runMode" with
      | Some JNull => None
      | found => found
      end
  | None => None
  end.

Definition buildSummary (runDir : path) (decision_ : Decision) : M string :=
  let* taskRead := readText (runDir ++ ["task.md"]) in
  let task_ := taskRead ?? "" in
  let* context_ := readText (runDir ++ ["context.json"]) in
  let runMode_ :=
    match context_ with
    | Some text => if JS.nonEmpty text then safeRunMode text else None
    | None => None
    end in
  let lines :=
    ["Task: " +:+ task_;
     match runMode_ with
     | Some v => if Json.truthy v then "Run mode: " +:+ Json.toStr v else ""
     | None => ""
     end;
     "Decision winner: " +:+ Json.toStr (d_winner decision_);
     "Decision rationale: " +:+ Json.toStr (d_rationale decision_)] in
  ret (JS.join (JS.nl +:+ JS.nl) (List.filter JS.nonEmpty lines)).

Definition runFinalPhase (runDir : path) (decision_ : Decision) (config : Config)
  : M unit :=
  let finalDir := runDir ++ ["final"] in
  ensureDir finalDir;;
  writeText (finalDir ++ ["winner.json"]) (JSON_pretty (decisionJson decision_));;
  let convergePatch := runDir ++ ["converge"; "final.patch"] in
  let* convergeThere := existsSync convergePatch in
  let* patchPath := liftExn (finalPatchSource runDir decision_ config convergeThere) in
  match patchPath with
  | Some p =>
      let* patch := readText p in
      match patch with
      | Some text =>
          if JS.nonEmpty text then writeText (finalDir ++ ["final.patch"]) text
          else ret tt
      | None => ret tt
      end
  | None => ret tt
  end;;
  let* summary := buildSummary runDir decision_ in
  writeText (finalDir ++ ["summary.md"]) summary.

(** The text of the file at [p]; empty when there is no file. *)
Definition contentOf (fs : FS) (p : path) : string :=
  match fs !! p with Some (File c) => c | _ => "" end.

(** An argument that holds no opening brace, so no placeholder. *)
Definition braceFree (arg : string) : bool :=
  forallb (fun ch => negb (Ascii.eqb ch "{")) (chars arg).

(** *** transcript.ts: wrapping the text of a bubble *)

(** [raw.replace(/\r/g, "")]. *)
Fixpoint removeCR (s : string) : string :=
  match s with
  | EmptyString => EmptyString
  | String c r => if Ascii.eqb c (ascii_of_nat 13) then removeCR r else String c (removeCR r)
  end.

(** [line.split(/(\s+)/).filter((w) => w.length > 0)]: the maximal runs
    of white space and of other characters, in their order. *)
Fixpoint runs (s : string) : list string :=
  match s with
  | EmptyString => []
  | String c r =>
      match runs r with
      | String d t :: rest =>
          if Bool.eqb (JS.isSpace c) (JS.isSpace d)
          then String c (String d t) :: rest
          else String c EmptyString :: String d t :: rest
      | _ => [String c EmptyString]
      end
  end.

(** The hard split of a token: [for (i = 0; i < w.length; i += width)
    out.push(w.slice(i, i + width))], on the part of [w] from [i] on.
    With a width of 0 the loop does not end; the fuel then runs out. *)
Fixpoint hardSplit (fuel width : nat) (rest : string) : option (list string) :=
  match rest with
  | EmptyString => Some []
  | _ =>
      match fuel with
      | O => None
      | S fuel' =>
          match hardSplit fuel' width (JS.drop width rest) with
          | Some chunks => Some (JS.take width rest :: chunks)
          | None => None
          end
      end
  end.

(** One turn of the loop over the words, on the lines pushed so far and
    the current line. *)
Definition wrapWord (width : nat) (st : option (list string * string)) (w : string)
  : option (list string * string) :=
  match st with
  | None => None
  | Some (out, current) =>
      let next := if JS.nonEmpty current then current +:+ w else w in
      if (String.length next <=? width)%nat then Some (out, next)
      else
        let out := if JS.nonEmpty current then out ++ [JS.trimEnd current] else out in
        if (width <? String.length w)%nat then
          match hardSplit (String.length w) width w with
          | Some chunks => Some (out ++ chunks, "")
          | None => None
          end
        else Some (out, JS.trimStart w)
  end.

Definition wrapLine (width : nat) (out : list string) (raw : string)
  : option (list string) :=
  let line := removeCR raw in
  if (String.length line =? 0)%nat then Some (out ++ [""])
  else if (String.length line <=? width)%nat then Some (out ++ [line])
  else
    match fold_left (wrapWord width) (runs line) (Some (out, "")) with
    | Some (out, current) =>
        Some (if JS.nonEmpty current then out ++ [JS.trimEnd current] else out)
    | None => None
    end.

(** [wrapText] for a width that is a natural number; [None] when the
    call does not return. *)
Definition wrapText (text : string) (width : nat) : option (list string) :=
  fold_left
    (fun acc raw => match acc with Some out => wrapLine width out raw | None => None end)
    (JS.splitOn JS.LF text) (Some []).

(** The characters of a text that are no white space, in their order. *)
Fixpoint visible (s : string) : list ascii :=
  match s with
  | EmptyString => []
  | String c r => if JS.isSpace c then visible r else c :: visible r
  end.

(** *** memory.ts: the file memory store *)

(** [s.split(/\s+/)]: the pieces between the runs of white space, an
    empty piece before a leading and after a trailing run. *)
Fixpoint splitSpaces (s : string) : list string :=
  match s with
  | EmptyString => [EmptyString]
  | String c r =>
      if JS.isSpace c then
        match r with
        | String d _ => if JS.isSpace d then splitSpaces r else EmptyString :: splitSpaces r
        | EmptyString => EmptyString :: splitSpaces r
        end
      else
        match splitSpaces r with
        | x :: xs => String c x :: xs
        | [] => [String c EmptyString]
        end
  end.

(** The characters that [term.replace(/[^a-z0-9_-]/g, "")] keeps. *)
Definition isTermChar (c : ascii) : bool :=
  let n := nat_of_ascii c in
  ((97 <=? n)%nat && (n <=? 122)%nat) || ((48 <=? n)%nat && (n <=? 57)%nat)
  || (n =? 95)%nat || (n =? 45)%nat.

Fixpoint keepTermChars (s : string) : string :=
  match s with
  | EmptyString => EmptyString
  | String c r => if isTermChar c then String c (keepTermChars r) else keepTermChars r
  end.

Definition queryTerms (queryText : string) : list string :=
  List.filter (fun term => (2 <? String.length term)%nat)
    (List.map keepTermChars (splitSpaces (JS.toLowerCase queryText))).

(** [entry.tags?.join(" ") ?? ""]; tags that are neither missing nor an
    array have no [join]. *)
Definition tagsText (entry : json) : exn + string :=
  match Json.getProp entry "tags" with
  | None | Some JNull => inr ""
  | Some (JArr items) =>
      inr (JS.join " "
             (List.map (fun x => match x with JNull => "" | _ => Json.toStr x end) items))
  | Some _ => inl (TypeError "entry.tags?.join is not a function")
  end.

Definition haystackOf (entry : json) : exn + string :=
  match entry with
  | JNull => inl (TypeError "Cannot read properties of null")
  | _ =>
      match tagsText entry with
      | inr tags =>
          inr (JS.toLowerCase (Json.show (Json.getProp entry "text") +:+ " " +:+ tags))
      | inl e => inl e
      end
  end.

Definition scoreEntry (entry : json) (queryText : string) : exn + Z :=
  let terms := queryTerms queryText in
  if lengthZ terms =? 0 then inr 0
  else
    match haystackOf entry with
    | inr haystack =>
        inr (fold_left
               (fun score term =>
                  if JS.nonEmpty term && JS.includes haystack term then score + 1 else score)
               terms 0)
    | inl e => inl e
    end.

(** [entries.map((entry) => ({entry, score: scoreEntry(entry, queryText)}))]. *)
Fixpoint scoreAll (entries : list json) (queryText : string) : exn + list (json * Z) :=
  match entries with
  | [] => inr []
  | entry :: rest =>
      match scoreEntry entry queryText with
      | inl e => inl e
      | inr score =>
          match scoreAll rest queryText with
          | inl e => inl e
          | inr scored => inr ((entry, score) :: scored)
          end
      end
  end.

(** The stable sort by descending score, [fold_right insertByScore []]:
    an item goes before the items after it that score no more. *)
Fixpoint insertByScore (x : json * Z) (l : list (json * Z)) : list (json * Z) :=
  match l with
  | [] => [x]
  | y :: r => if snd y <=? snd x then x :: l else y :: insertByScore x r
  end.

(** [l.slice(0, limit)] for an integer limit. *)
Definition sliceTo {A} (limit : Z) (l : list A) : list A :=
  List.firstn (Z.to_nat (if limit <? 0 then Z.max (lengthZ l + limit) 0 else limit)) l.

Definition memoryInit (filePath : path) : M unit :=
  ensureDir (dirname filePath);;
  let* present := existsSync filePath in
  if negb present
  then trace (EWrite filePath "");; liftFs (fun fs => Fs.writeFile fs filePath "")
  else ret tt.

Definition memoryPut (filePath : path) (entry : json) : M unit :=
  memoryInit filePath;;
  appendFileSync filePath (JSON_stringify entry +:+ JS.nl).

Definition memoryQuery (filePath : path) (queryText : string) (limit : Z)
  : M (list json) :=
  let* present := existsSync filePath in
  if negb present then ret []
  else
    let* content := liftRead (fun fs => Fs.readFile fs filePath) in
    let lines := List.filter JS.nonEmpty (JS.splitOn JS.LF content) in
    let entries := omap JSON_parse lines in
    let* scored := liftExn (scoreAll entries queryText) in
    ret (List.map fst
           (sliceTo limit
              (fold_right insertByScore []
                 (List.filter (fun item => snd item >? 0) scored)))).

(** Scores in descending order. *)
Definition descending (scores : list Z) : Prop := Sorted (fun a b => b <= a) scores.

(** ** Proofs *)

(** *** The monad *)

Lemma bind_Ok {X Y} (m : M X) (k : X -> M Y) w y w' :
  bind m k w = (Ok y, w') ->
  exists x w1, m w = (Ok x, w1) /\ k x w1 = (Ok y, w').
Proof.
  unfold bind. destruct (m w) as [[x|e|] w1]; intros H; try discriminate.
  exists x, w1. split; [reflexivity | exact H].
Qed.

Lemma ret_Ok {X} (x y : X) w w' : ret x w = (Ok y, w') -> x = y /\ w = w'.
Proof. unfold ret. intros H. injection H as -> ->. split; reflexivity. Qed.

Ltac inv_bind H :=
  let x := fresh "x" in
  let w1 := fresh "w" in
  let Hm := fresh "Hm" in
  apply bind_Ok in H; destruct H as (x & w1 & Hm & H); cbv beta zeta in H.

Ltac skip_bind H :=
  let x := fresh "x" in
  let w1 := fresh "w" in
  apply bind_Ok in H; destruct H as (x & w1 & _ & H); cbv beta zeta in H.

(** *** The joint loop *)

Lemma otherAgent_involutive a : otherAgent (otherAgent a) = a.
Proof. destruct a; reflexivity. Qed.

Lemma otherAgent_neq a : otherAgent a <> a.
Proof. destruct a; discriminate. Qed.

(** What the end of a round decides, read off the round's record. *)
Lemma jointRoundEnd_spec A round st notes_ patch applied testExit w step w' :
  jointRoundEnd A round st notes_ patch applied testExit w = (Ok step, w') ->
  let r := {| jr_round := round; jr_driver := js_driver st;
              jr_navigator := js_navigator st; jr_navigatorPatch := patch;
              jr_applied := applied; jr_testExit := testExit |} in
  js_history (stepState step) = js_history st ++ [r] /\
  isBreak step = stopsConverged r || stopsPatchFailed r /\
  (js_driver (stepState step), js_navigator (stepState step)) =
    (if stopsConverged r || stopsPatchFailed r then (js_driver st, js_navigator st)
     else if swapsOnFail A r || swapsEachRound A r
          then (js_navigator st, otherAgent (js_navigator st))
          else (js_driver st, js_navigator st)).
Proof.
  intros H r. unfold jointRoundEnd in H.
  unfold stopsConverged, stopsPatchFailed, swapsOnFail, swapsEachRound. simpl.
  destruct (patchNonEmpty patch) eqn:Hp; simpl in *.
  - destruct applied; simpl in *.
    + destruct (swapDriverOnFail A && testsFailed testExit) eqn:Hc; simpl in *.
      * skip_bind H. apply ret_Ok in H as [<- _]. simpl. auto.
      * destruct (swapDriverEachRound A && (round <? jointMaxRounds A)) eqn:Hd; simpl in *.
        -- skip_bind H. apply ret_Ok in H as [<- _]. simpl. auto.
        -- apply ret_Ok in H as [<- _]. simpl. auto.
    + skip_bind H. apply ret_Ok in H as [<- _]. simpl. auto.
  - destruct (testsAbsentOrPassing testExit) eqn:Ht; simpl in *.
    + skip_bind H. apply ret_Ok in H as [<- _]. simpl. auto.
    + rewrite orb_true_r in H. simpl in H.
      destruct (swapDriverOnFail A && testsFailed testExit) eqn:Hc; simpl in *.
      * skip_bind H. apply ret_Ok in H as [<- _]. simpl. auto.
      * destruct (swapDriverEachRound A && (round <? jointMaxRounds A)) eqn:Hd; simpl in *.
        -- skip_bind H. apply ret_Ok in H as [<- _]. simpl. auto.
        -- apply ret_Ok in H as [<- _]. simpl. auto.
Qed.

Lemma jointRound_spec A round st w step w' :
  jointRound A round st w = (Ok step, w') ->
  exists notes_ patch applied testExit w1,
    jointRoundEnd A round st notes_ patch applied testExit w1 = (Ok step, w').
Proof.
  unfold jointRound. intros H. cbv zeta in H.
  repeat skip_bind H. eauto 10.
Qed.

(** The loop runs as [JointRun] says; the roles stay each other's other
    agent. *)
Lemma jointLoop_run A fuel : forall round st w st' w',
  js_navigator st = otherAgent (js_driver st) ->
  forRounds fuel round (jointMaxRounds A) (jointRound A) st w = (Ok st', w') ->
  exists h,
    js_history st' = js_history st ++ h /\
    JointRun A round (js_driver st) (js_navigator st) h (js_driver st', js_navigator st') /\
    js_navigator st' = otherAgent (js_driver st').
Proof.
  induction fuel as [|fuel IH]; intros round st w st' w' Hinv H; simpl in H.
  - destruct (round <=? jointMaxRounds A) eqn:Hle; [discriminate|].
    apply ret_Ok in H as [<- _]. exists []. rewrite app_nil_r.
    split; [reflexivity|]. split; [|exact Hinv].
    apply JointRun_exhausted. apply Z.leb_gt in Hle. lia.
  - destruct (round <=? jointMaxRounds A) eqn:Hle.
    2:{ apply ret_Ok in H as [<- _]. exists []. rewrite app_nil_r.
        split; [reflexivity|]. split; [|exact Hinv].
        apply JointRun_exhausted. apply Z.leb_gt in Hle. lia. }
    apply Z.leb_le in Hle.
    inv_bind H. rename x into step.
    apply jointRound_spec in Hm as (notes_ & patch & applied & testExit & w1 & Hend).
    apply jointRoundEnd_spec in Hend as (Hh & Hb & Hroles).
    set (r := {| jr_round := round; jr_driver := js_driver st;
                 jr_navigator := js_navigator st; jr_navigatorPatch := patch;
                 jr_applied := applied; jr_testExit := testExit |}) in *.
    destruct step as [s1|s1]; simpl in *.
    + (* the loop goes on *)
      symmetry in Hb. apply orb_false_iff in Hb as [Ha Hbf].
      rewrite Ha, Hbf in Hroles. simpl in Hroles.
      assert (Hinv1 : js_navigator s1 = otherAgent (js_driver s1)).
      { destruct (swapsOnFail A r || swapsEachRound A r);
          injection Hroles as -> ->; [reflexivity | exact Hinv]. }
      destruct (IH _ _ _ _ _ Hinv1 H) as (h & Hh' & Hrun & Hinv').
      exists (r :: h). split; [rewrite Hh', Hh, <- app_assoc; reflexivity|].
      split; [|exact Hinv'].
      destruct (swapsOnFail A r) eqn:Hc; simpl in Hroles.
      * injection Hroles as Hd Hn. rewrite Hd, Hn in Hrun.
        rewrite Hinv in Hrun at 2. rewrite otherAgent_involutive in Hrun.
        eapply JointRun_swap_on_fail; eauto.
      * destruct (swapsEachRound A r) eqn:Hd'; simpl in Hroles.
        -- injection Hroles as Hd Hn. rewrite Hd, Hn in Hrun.
           rewrite Hinv in Hrun at 2. rewrite otherAgent_involutive in Hrun.
           eapply JointRun_swap_each_round; eauto.
        -- injection Hroles as Hd Hn. rewrite Hd, Hn in Hrun.
           eapply JointRun_keep; eauto.
    + (* the loop stops *)
      apply ret_Ok in H as [<- _].
      symmetry in Hb. rewrite Hb in Hroles. injection Hroles as Hd Hn.
      exists [r]. split; [exact Hh|]. rewrite Hd, Hn. split; [|exact Hinv].
      destruct (stopsConverged r) eqn:Ha.
      * eapply JointRun_converged; eauto.
      * simpl in Hb. eapply JointRun_patch_failed; eauto.
Qed.

Lemma liftExn_Ok {X} (r : exn + X) w x w' :
  liftExn r w = (Ok x, w') -> r = inr x /\ w = w'.
Proof.
  destruct r as [e|x0]; simpl; intros H.
  - discriminate.
  - apply ret_Ok in H as [-> ->]. split; reflexivity.
Qed.

Lemma jointStart_spec A w st w' :
  jointStart A w = (Ok st, w') ->
  resolveDriver (ic_driver (implConfig A)) (pa_decision A) = Some (js_driver st) /\
  js_navigator st = otherAgent (js_driver st) /\
  js_history st = [].
Proof.
  unfold jointStart. intros H. skip_bind H. inv_bind H.
  apply liftExn_Ok in Hm as [Hd _].
  skip_bind H. skip_bind H. apply ret_Ok in H as [<- _]. simpl.
  destruct (resolveDriver (ic_driver (implConfig A)) (pa_decision A)) as [d|];
    [|discriminate].
  injection Hd as ->. auto.
Qed.

(** A whole joint phase: the roles it starts with and the rounds it runs. *)
Lemma runJoint_run A fuel w st w' :
  runJoint A fuel w = (Ok st, w') ->
  exists d0,
    resolveDriver (ic_driver (implConfig A)) (pa_decision A) = Some d0 /\
    JointRun A 1 d0 (otherAgent d0) (js_history st) (js_driver st, js_navigator st) /\
    js_navigator st = otherAgent (js_driver st).
Proof.
  unfold runJoint. intros H. inv_bind H. rename x into st0.
  apply jointStart_spec in Hm as (Hd & Hn & Hh).
  inv_bind H. rename x into st1. skip_bind H. apply ret_Ok in H as [<- _].
  apply jointLoop_run in Hm as (h & Hh' & Hrun & Hinv); [|exact Hn].
  exists (js_driver st0). split; [exact Hd|].
  rewrite Hh in Hh'. simpl in Hh'. rewrite Hh', <- Hn. auto.
Qed.

(** In a run, the roles of every round are each other's other agent, the
    rounds are numbered from [round] on, and a round that meets a stop
    condition is the last one. *)
Lemma JointRun_facts A round d n h fin :
  JointRun A round d n h fin ->
  n = otherAgent d ->
  (forall i r, h !! i = Some r ->
     jr_round r = round + Z.of_nat i /\
     jr_round r <= jointMaxRounds A /\
     jr_navigator r = otherAgent (jr_driver r) /\
     (stopsConverged r || stopsPatchFailed r = true -> length h = S i)) /\
  snd fin = otherAgent (fst fin).
Proof.
  induction 1 as [round d n Hlt | round d n r Hle Hr Hd Hn Ha
                 | round d n r Hle Hr Hd Hn Ha Hb
                 | round d n r h fin Hle Hr Hd Hn Ha Hb Hc Hrun IH
                 | round d n r h fin Hle Hr Hd Hn Ha Hb Hc Hd' Hrun IH
                 | round d n r h fin Hle Hr Hd Hn Ha Hb Hc Hd' Hrun IH];
    intros Hinv.
  - split; [intros i r Hi; destruct i; discriminate | exact Hinv].
  - split; [|exact Hinv]. intros [|i] r' Hi; [|destruct i; discriminate].
    injection Hi as <-. rewrite Hr, Hd, Hn. repeat split; auto; lia.
  - split; [|exact Hinv]. intros [|i] r' Hi; [|destruct i; discriminate].
    injection Hi as <-. rewrite Hr, Hd, Hn. repeat split; auto; lia.
  - destruct IH as [IH Hfin]; [rewrite Hinv; symmetry; apply otherAgent_involutive|].
    split; [|exact Hfin]. intros [|i] r' Hi.
    + injection Hi as <-. rewrite Hr, Hd, Hn, Ha, Hb.
      repeat split; auto; try lia; try discriminate.
    + destruct (IH i r' Hi) as (H1 & H2 & H3 & H4). repeat split; auto; try lia.
      intros Hs. simpl. rewrite (H4 Hs). reflexivity.
  - destruct IH as [IH Hfin]; [rewrite Hinv; symmetry; apply otherAgent_involutive|].
    split; [|exact Hfin]. intros [|i] r' Hi.
    + injection Hi as <-. rewrite Hr, Hd, Hn, Ha, Hb.
      repeat split; auto; try lia; try discriminate.
    + destruct (IH i r' Hi) as (H1 & H2 & H3 & H4). repeat split; auto; try lia.
      intros Hs. simpl. rewrite (H4 Hs). reflexivity.
  - destruct IH as [IH Hfin]; [exact Hinv|].
    split; [|exact Hfin]. intros [|i] r' Hi.
    + injection Hi as <-. rewrite Hr, Hd, Hn, Ha, Hb.
      repeat split; auto; try lia; try discriminate.
    + destruct (IH i r' Hi) as (H1 & H2 & H3 & H4). repeat split; auto; try lia.
      intros Hs. simpl. rewrite (H4 Hs). reflexivity.
Qed.


(** *** The convergence loop *)

Lemma mergeReviewSummaries_one r :
  blockers (mergeReviewSummaries [r]) = blockers r /\
  warnings (mergeReviewSummaries [r]) = warnings r.
Proof.
  unfold mergeReviewSummaries. simpl.
  destruct (JS.nonEmpty (JS.trim (notes r))); simpl; auto.
Qed.

Lemma reviewOfCritic_alone criticText review :
  reviewOfCritic criticText = inr review -> reviewFromCriticAlone review.
Proof.
  intros H. exists criticText. split; [exact H|].
  unfold reviewOfCritic in H.
  destruct (parseReviewSummary criticText) as [e|[parsed|]]; [discriminate| |].
  - injection H as <-. apply mergeReviewSummaries_one.
  - injection H as <-. split; reflexivity.
Qed.

Lemma convergeRound_spec A cw plan round st w step w' :
  convergeRound A cw plan round st w = (Ok step, w') ->
  exists review lastTestExit,
    let r := {| cr_round := round; cr_fixer := cs_fixer st; cr_critic := cs_critic st;
                cr_review := review; cr_testExit := lastTestExit |} in
    reviewFromCriticAlone review /\
    (if testsEnabled (pa_config A) then lastTestExit <> None
     else lastTestExit = cs_lastTestExit st) /\
    cs_history (stepState step) = cs_history st ++ [r] /\
    cs_finalReview (stepState step) = review /\
    cs_lastTestExit (stepState step) = lastTestExit /\
    isBreak step = convergeStops r /\
    (cs_fixer (stepState step), cs_critic (stepState step)) =
      (if convergeStops r then (cs_fixer st, cs_critic st)
       else if round <? convergeMaxRounds A
            then (cs_critic st, otherAgent (cs_critic st))
            else (cs_fixer st, cs_critic st)).
Proof.
  unfold convergeRound. intros H. cbv zeta in H.
  do 6 skip_bind H. inv_bind H. rename x5 into lastTestExit, Hm into Htests.
  do 4 skip_bind H. inv_bind H. rename x9 into review, Hm into Hrev.
  skip_bind H.
  apply liftExn_Ok in Hrev as [Hrev _].
  exists review, lastTestExit. simpl.
  split; [eapply reviewOfCritic_alone; eauto|].
  split.
  { destruct (testsEnabled (pa_config A)).
    - inv_bind Htests. skip_bind Htests. apply ret_Ok in Htests as [<- _]. discriminate.
    - apply ret_Ok in Htests as [<- _]. reflexivity. }
  unfold convergeStops. simpl.
  destruct (convergeDone review lastTestExit).
  - skip_bind H. apply ret_Ok in H as [<- _]. simpl. auto 10.
  - destruct (round <? convergeMaxRounds A).
    + skip_bind H. apply ret_Ok in H as [<- _]. simpl. auto 10.
    + apply ret_Ok in H as [<- _]. simpl. auto 10.
Qed.

Lemma last_cons {X} (l : list X) : forall x d, List.last (x :: l) d = List.last l x.
Proof.
  induction l as [|y l IH]; intros x d; [reflexivity|].
  change (List.last (x :: y :: l) d) with (List.last (y :: l) d).
  rewrite (IH y d), (IH y x). reflexivity.
Qed.

Lemma ConvergeRun_past_bound A round f c h fin :
  ConvergeRun A round f c h fin -> convergeMaxRounds A < round ->
  h = [] /\ fin = (f, c).
Proof. destruct 1; intros; try lia. split; reflexivity. Qed.

Lemma convergeLoop_run A cw plan fuel : forall round st w st' w',
  cs_critic st = otherAgent (cs_fixer st) ->
  (cs_lastTestExit st = None <-> testsEnabled (pa_config A) = false) ->
  forRounds fuel round (convergeMaxRounds A) (convergeRound A cw plan) st w = (Ok st', w') ->
  exists h,
    cs_history st' = cs_history st ++ h /\
    ConvergeRun A round (cs_fixer st) (cs_critic st) h (cs_fixer st', cs_critic st') /\
    cs_critic st' = otherAgent (cs_fixer st') /\
    Forall (fun r => reviewFromCriticAlone (cr_review r) /\
                     (cr_testExit r = None <-> testsEnabled (pa_config A) = false)) h /\
    cs_finalReview st' = List.last (List.map cr_review h) (cs_finalReview st).
Proof.
  induction fuel as [|fuel IH]; intros round st w st' w' Hinv Htest H; simpl in H.
  - destruct (round <=? convergeMaxRounds A) eqn:Hle; [discriminate|].
    apply ret_Ok in H as [<- _]. exists []. rewrite app_nil_r.
    repeat split; auto. apply ConvergeRun_exhausted. apply Z.leb_gt in Hle. lia.
  - destruct (round <=? convergeMaxRounds A) eqn:Hle.
    2:{ apply ret_Ok in H as [<- _]. exists []. rewrite app_nil_r.
        repeat split; auto. apply ConvergeRun_exhausted. apply Z.leb_gt in Hle. lia. }
    apply Z.leb_le in Hle.
    inv_bind H. rename x into step.
    apply convergeRound_spec in Hm
      as (review & lastTestExit & Hrev & Hte & Hh & Hfr & Hlt & Hb & Hroles).
    cbv zeta in *.
    set (r := {| cr_round := round; cr_fixer := cs_fixer st; cr_critic := cs_critic st;
                 cr_review := review; cr_testExit := lastTestExit |}) in *.
    assert (Htest1 : lastTestExit = None <-> testsEnabled (pa_config A) = false).
    { destruct (testsEnabled (pa_config A)).
      - split; [intros Hn; contradiction | discriminate].
      - rewrite Hte. exact Htest. }
    assert (Hr : reviewFromCriticAlone (cr_review r) /\
                 (cr_testExit r = None <-> testsEnabled (pa_config A) = false))
      by (split; assumption).
    destruct step as [s1|s1]; simpl in *.
    + (* the loop goes on *)
      symmetry in Hb. rewrite Hb in Hroles.
      assert (Hinv1 : cs_critic s1 = otherAgent (cs_fixer s1)).
      { destruct (round <? convergeMaxRounds A);
          injection Hroles as -> ->; [reflexivity | exact Hinv]. }
      assert (Htest2 : cs_lastTestExit s1 = None <-> testsEnabled (pa_config A) = false)
        by (rewrite Hlt; exact Htest1).
      destruct (IH _ _ _ _ _ Hinv1 Htest2 H) as (h & Hh' & Hrun & Hinv' & Hall & Hfin).
      destruct (round <? convergeMaxRounds A) eqn:Hlt'.
      * apply Z.ltb_lt in Hlt'.
        exists (r :: h). split; [rewrite Hh', Hh, <- app_assoc; reflexivity|].
        injection Hroles as Hf Hc. rewrite Hf, Hc in Hrun.
        rewrite Hinv in Hrun at 2. rewrite otherAgent_involutive in Hrun.
        split; [eapply ConvergeRun_swap; eauto|].
        split; [exact Hinv'|]. split; [constructor; assumption|].
        rewrite Hfin, Hfr. change (map cr_review (r :: h)) with (review :: map cr_review h).
        rewrite last_cons. reflexivity.
      * apply Z.ltb_ge in Hlt'.
        destruct (ConvergeRun_past_bound _ _ _ _ _ _ Hrun ltac:(lia)) as [-> Hfin'].
        rewrite app_nil_r in Hh'.
        injection Hroles as Hf Hc. injection Hfin' as Hf' Hc'.
        exists [r]. split; [rewrite Hh', Hh; reflexivity|].
        rewrite Hf', Hc', Hf, Hc.
        split; [eapply ConvergeRun_last; eauto; lia|].
        split; [rewrite <- Hf, <- Hc; exact Hinv1|].
        split; [constructor; [assumption | constructor]|].
        rewrite Hfin, Hfr. reflexivity.
    + (* the loop stops *)
      apply ret_Ok in H as [<- _].
      symmetry in Hb. rewrite Hb in Hroles. injection Hroles as Hf Hc.
      exists [r]. split; [exact Hh|]. rewrite Hf, Hc.
      split; [eapply ConvergeRun_done; eauto|].
      split; [exact Hinv|]. split; [constructor; [assumption | constructor]|].
      rewrite Hfr. reflexivity.
Qed.

Lemma convergeSetup_spec A w cw plan st0 w' :
  convergeSetup A w = (Ok (Some (cw, plan, st0)), w') ->
  cs_critic st0 = otherAgent (cs_fixer st0) /\
  cs_history st0 = [] /\
  (cs_lastTestExit st0 = None <-> testsEnabled (pa_config A) = false).
Proof.
  unfold convergeSetup. intros H.
  destruct (negb (convergeEnabled A)); [apply ret_Ok in H as [H _]; discriminate|].
  destruct (negb (reviewEnabled A)); [apply ret_Ok in H as [H _]; discriminate|].
  match type of H with
  | (if ?c then _ else _) _ = _ =>
      destruct c; [apply ret_Ok in H as [H _]; discriminate|]
  end.
  do 2 skip_bind H. inv_bind H.
  destruct (negb x1); [apply ret_Ok in H as [H _]; discriminate|].
  do 5 skip_bind H. inv_bind H. rename x7 into lastTestExit, Hm0 into Htests.
  match type of H with
  | (if ?c then _ else _) _ = _ =>
      destruct c; [apply ret_Ok in H as [H _]; discriminate|]
  end.
  apply ret_Ok in H as [H _]. injection H as _ _ <-. simpl.
  repeat split; auto.
  - intros ->. destruct (testsEnabled (pa_config A)); [|reflexivity].
    inv_bind Htests. skip_bind Htests. apply ret_Ok in Htests as [Hx _]. discriminate.
  - intros Hen. rewrite Hen in Htests. apply ret_Ok in Htests as [<- _]. reflexivity.
Qed.

(** A whole convergence phase that reaches its loop. *)
Lemma runConverge_run A fuel w st w' :
  runConverge A fuel w = (Ok (Some st), w') ->
  exists f0,
    ConvergeRun A 1 f0 (otherAgent f0) (cs_history st) (cs_fixer st, cs_critic st) /\
    cs_critic st = otherAgent (cs_fixer st) /\
    Forall (fun r => reviewFromCriticAlone (cr_review r) /\
                     (cr_testExit r = None <-> testsEnabled (pa_config A) = false))
      (cs_history st) /\
    forall d, cs_history st <> [] ->
              cs_finalReview st = List.last (List.map cr_review (cs_history st)) d.
Proof.
  unfold runConverge. intros H. inv_bind H.
  destruct x as [[[cw plan] st0]|]; [|apply ret_Ok in H as [H _]; discriminate].
  apply convergeSetup_spec in Hm as (Hinv & Hh & Htest).
  inv_bind H. skip_bind H. apply ret_Ok in H as [H _]. injection H as <-.
  unfold convergeLoop in Hm.
  apply convergeLoop_run in Hm as (h & Hh' & Hrun & Hinv' & Hall & Hfin); auto.
  rewrite Hh in Hh'. simpl in Hh'. rewrite Hh'.
  exists (cs_fixer st0). rewrite <- Hinv. repeat split; auto.
  intros d Hne. rewrite Hfin. destruct h as [|r h]; [contradiction|].
  simpl map. rewrite !last_cons. reflexivity.
Qed.

(** In a run the roles of every round are each other's other agent, the
    rounds are numbered from [round] on and stay within the bound, a round
    that meets the stop condition is the last one, and a last round either
    meets it or is the round of the bound. *)
Lemma ConvergeRun_facts A round f c h fin :
  ConvergeRun A round f c h fin ->
  c = otherAgent f ->
  (forall i r, h !! i = Some r ->
     cr_round r = round + Z.of_nat i /\
     cr_round r <= convergeMaxRounds A /\
     cr_critic r = otherAgent (cr_fixer r) /\
     (convergeStops r = true -> length h = S i) /\
     (length h = S i -> convergeStops r = true \/ cr_round r = convergeMaxRounds A)) /\
  snd fin = otherAgent (fst fin).
Proof.
  induction 1 as [round f c Hlt | round f c r Hle Hr Hf Hc Hs
                 | round f c r h fin Hlt Hr Hf Hc Hs Hrun IH
                 | round f c r Hle Hr Hf Hc Hs];
    intros Hinv.
  - split; [intros i r Hi; destruct i; discriminate | exact Hinv].
  - split; [|exact Hinv]. intros [|i] r' Hi; [|destruct i; discriminate].
    injection Hi as <-. rewrite Hr, Hf, Hc. repeat split; auto; lia.
  - destruct IH as [IH Hfin]; [rewrite Hinv; symmetry; apply otherAgent_involutive|].
    split; [|exact Hfin]. intros [|i] r' Hi.
    + injection Hi as <-. rewrite Hr, Hf, Hc, Hs.
      repeat split; auto; try lia; try discriminate.
      intros Hlen. simpl in Hlen. injection Hlen as Hlen.
      apply length_zero_iff_nil in Hlen. subst h.
      inversion Hrun; lia.
    + destruct (IH i r' Hi) as (H1 & H2 & H3 & H4 & H5).
      repeat split; auto; try lia.
      all: intros Hx; simpl in *;
        first [rewrite (H4 Hx); reflexivity | injection Hx as Hx; auto].
  - split; [|exact Hinv]. intros [|i] r' Hi; [|destruct i; discriminate].
    injection Hi as <-. rewrite Hr, Hf, Hc.
    repeat split; auto; try lia; try (rewrite Hs; discriminate).
Qed.

(** *** Termination: what never runs out of fuel *)

Lemma total_ret {X} (x : X) : total (ret x).
Proof. intros w. discriminate. Qed.

Lemma total_throw {X} e : total (@throw X e).
Proof. intros w. discriminate. Qed.

Lemma total_bind {X Y} (m : M X) (k : X -> M Y) :
  total m -> (forall x, total (k x)) -> total (bind m k).
Proof.
  intros Hm Hk w. unfold bind. specialize (Hm w).
  destruct (m w) as [[x|e|] w1]; simpl in *; [apply Hk | discriminate | congruence].
Qed.

Lemma total_trace e : total (trace e).
Proof. intros w. discriminate. Qed.

Lemma total_getFs : total getFs.
Proof. intros w. discriminate. Qed.

Lemma total_liftFs f : total (liftFs f).
Proof. intros w. unfold liftFs. destruct (f (w_fs w)); discriminate. Qed.

Lemma total_liftRead {X} (f : FS -> exn + X) : total (liftRead f).
Proof. intros w. unfold liftRead. destruct (f (w_fs w)); discriminate. Qed.

Lemma total_clock : total clock.
Proof. intros w. unfold clock. destruct (now (w_ext w)). discriminate. Qed.

Lemma total_existsSync p : total (existsSync p).
Proof. intros w. discriminate. Qed.

Lemma total_liftExn {X} (r : exn + X) : total (liftExn r).
Proof. destruct r; [apply total_throw | apply total_ret]. Qed.

Create HintDb total.

#[local] Hint Resolve total_ret total_throw total_trace total_getFs total_liftFs
  total_liftRead total_clock total_existsSync total_liftExn : total.

Ltac total_step :=
  lazymatch goal with
  | |- total (bind _ _) => apply total_bind; [|intros]
  | |- total (if ?c then _ else _) => destruct c
  | |- total (match ?x with _ => _ end) => destruct x
  | |- total _ => solve [auto with total]
  end.

Ltac total_tac := repeat total_step.

Lemma total_ensureDir p : total (ensureDir p).
Proof. unfold ensureDir. total_tac. Qed.
#[local] Hint Resolve total_ensureDir : total.

Lemma total_writeText p c : total (writeText p c).
Proof. unfold writeText. total_tac. Qed.
#[local] Hint Resolve total_writeText : total.

Lemma total_readText p : total (readText p).
Proof. unfold readText. total_tac. Qed.
#[local] Hint Resolve total_readText : total.

Lemma total_appendFileSync p c : total (appendFileSync p c).
Proof. unfold appendFileSync. total_tac. Qed.
#[local] Hint Resolve total_appendFileSync : total.

Lemma total_stdoutWrite t : total (stdoutWrite t).
Proof. unfold stdoutWrite. total_tac. Qed.
#[local] Hint Resolve total_stdoutWrite : total.

Lemma total_spawn o :
  total (fun w : World =>
           let '(r, fs', ext') := spawn o (w_fs w) (w_ext w) in
           (Ok r, {| w_fs := fs'; w_ext := ext'; w_trace := w_trace w |})).
Proof. intros w. destruct (spawn o (w_fs w) (w_ext w)) as [[r fs'] ext']. discriminate. Qed.
#[local] Hint Resolve total_spawn : total.

Lemma total_runCommand o : total (runCommand o).
Proof. unfold runCommand. total_tac. Qed.
#[local] Hint Resolve total_runCommand : total.

Lemma total_runAgentPhase a ac ph pr cwd out logDir ctx v caps t :
  total (runAgentPhase a ac ph pr cwd out logDir ctx v caps t).
Proof. unfold runAgentPhase. total_tac. Qed.
#[local] Hint Resolve total_runAgentPhase : total.

Lemma total_appendTranscript runDir ph role a kind content round stream :
  total (appendTranscript runDir ph role a kind content round stream).
Proof. unfold appendTranscript. total_tac. Qed.
#[local] Hint Resolve total_appendTranscript : total.

Lemma total_gitDiff p : total (gitDiff p).
Proof. unfold gitDiff. total_tac. Qed.

Lemma total_diffDirs p q : total (diffDirs p q).
Proof. unfold diffDirs. total_tac. Qed.

Lemma total_runTestsOnce c cwd logPath t : total (runTestsOnce c cwd logPath t).
Proof. unfold runTestsOnce. total_tac. Qed.
#[local] Hint Resolve total_gitDiff total_diffDirs total_runTestsOnce : total.

Lemma forRounds_total {S} (body : Z -> S -> M (LoopStep S)) bound :
  (forall r s, total (body r s)) ->
  forall fuel round s,
    (Z.to_nat (bound - round + 1) <= fuel)%nat ->
    total (forRounds fuel round bound body s).
Proof.
  intros Hbody. induction fuel as [|fuel IH]; intros round s Hfuel w; simpl.
  - destruct (round <=? bound) eqn:Hle; [|discriminate].
    apply Z.leb_le in Hle. lia.
  - destruct (round <=? bound) eqn:Hle; [|discriminate].
    apply Z.leb_le in Hle.
    apply total_bind; [apply Hbody|].
    intros [s'|s']; [|apply total_ret].
    apply IH. lia.
Qed.

Lemma total_cnote A content round : total (cnote A content round).
Proof. unfold cnote. total_tac. Qed.
#[local] Hint Resolve total_cnote : total.

Lemma total_currentDiffOf A cw : total (currentDiffOf A cw).
Proof. unfold currentDiffOf. total_tac. Qed.
#[local] Hint Resolve total_currentDiffOf : total.


Lemma total_readReviewSummaries runDir reviewers :
  total (readReviewSummaries runDir reviewers).
Proof.
  unfold readReviewSummaries. apply total_bind; [|intros; apply total_ret].
  generalize (@nil ReviewSummary).
  induction reviewers as [|r rs IH]; intros acc; simpl; [apply total_ret|].
  total_step; [total_tac|]. total_step; [total_tac|]. apply IH.
Qed.
#[local] Hint Resolve total_readReviewSummaries : total.

Lemma total_initialFixer A : total (initialFixer A).
Proof. unfold initialFixer. total_tac. Qed.
#[local] Hint Resolve total_initialFixer : total.




Lemma lookup_In {X} (l : list X) i x : l !! i = Some x -> In x l.
Proof. intros H. apply list_elem_of_In. eapply list_elem_of_lookup_2. exact H. Qed.

Lemma In_lookup {X} (l : list X) x : In x l -> exists i, l !! i = Some x.
Proof. intros H. apply list_elem_of_In in H. apply list_elem_of_lookup_1 in H. exact H. Qed.


(** C10.  The two roles are always two distinct agents: [otherAgent] is an
    involution without fixed point, in every round of the joint loop the
    navigator is the other agent of the driver, in every round of the
    convergence loop the critic is the other agent of the fixer, and the same
    holds for the roles each loop ends with, after any swap. *)
Theorem roles_always_distinct :
  (forall a, otherAgent (otherAgent a) = a /\ otherAgent a <> a) /\
  (forall A fuel w st w',
     runJoint A fuel w = (Ok st, w') ->
     (forall r, In r (js_history st) ->
        jr_navigator r = otherAgent (jr_driver r) /\ jr_driver r <> jr_navigator r) /\
     js_navigator st = otherAgent (js_driver st) /\ js_driver st <> js_navigator st) /\
  (forall A fuel w st w',
     runConverge A fuel w = (Ok (Some st), w') ->
     (forall r, In r (cs_history st) ->
        cr_critic r = otherAgent (cr_fixer r) /\ cr_fixer r <> cr_critic r) /\
     cs_critic st = otherAgent (cs_fixer st) /\ cs_fixer st <> cs_critic st).
Proof.
  split; [intros a; split; [apply otherAgent_involutive | apply otherAgent_neq]|].
  split.
  - intros A fuel w st w' H.
    apply runJoint_run in H as (d0 & _ & Hrun & Hinv).
    destruct (JointRun_facts _ _ _ _ _ _ Hrun eq_refl) as [Hfacts _].
    split; [|split; [exact Hinv|]].
    + intros r Hr. apply In_lookup in Hr as [i Hi].
      destruct (Hfacts i r Hi) as (_ & _ & Hn & _).
      split; [exact Hn|]. rewrite Hn. intros Heq. symmetry in Heq.
      exact (otherAgent_neq _ Heq).
    + rewrite Hinv. intros Heq. symmetry in Heq. exact (otherAgent_neq _ Heq).
  - intros A fuel w st w' H.
    apply runConverge_run in H as (f0 & Hrun & Hinv & _).
    destruct (ConvergeRun_facts _ _ _ _ _ _ Hrun eq_refl) as [Hfacts _].
    split; [|split; [exact Hinv|]].
    + intros r Hr. apply In_lookup in Hr as [i Hi].
      destruct (Hfacts i r Hi) as (_ & _ & Hn & _).
      split; [exact Hn|]. rewrite Hn. intros Heq. symmetry in Heq.
      exact (otherAgent_neq _ Heq).
    + rewrite Hinv. intros Heq. symmetry in Heq. exact (otherAgent_neq _ Heq).
Qed.

(** *** Guardrails *)







(** *** JSON extraction *)

(** C8, amended.  The extraction tries three tiers in order: the parse of
    the trimmed text; the parse of the content of the first [```json] fenced
    block, when that content is not empty; the parse of the span from the
    first opening brace to the last closing brace.  The first and the second
    tier count only when their value is truthy (a parse that fails, or that
    yields null, false, 0 or the empty string, falls through); the third
    tier's value is returned as it is, and null when there is no tier
    left. *)
Theorem extractJson_three_tiers :
  forall value,
    extractJson value =
      let direct := safeJsonParse (JS.trim value) in
      let fenced :=
        match matchFenced value with
        | Some content => if JS.nonEmpty content then safeJsonParse content else JNull
        | None => JNull
        end in
      let braces :=
        match braceSpan value with
        | Some span => safeJsonParse span
        | None => JNull
        end in
      if Json.truthy direct then direct
      else if Json.truthy fenced then fenced
      else braces.
Proof.
  intros value. unfold extractJson, braceSpan. cbv zeta.
  destruct (Json.truthy (safeJsonParse (JS.trim value))); [reflexivity|].
  destruct (matchFenced value) as [content|]; simpl.
  - destruct (JS.nonEmpty content); simpl.
    + destruct (Json.truthy (safeJsonParse content)); [reflexivity|].
      destruct (JS.indexOf value "{"), (JS.lastIndexOf value "}");
        try reflexivity. destruct (_ <? _)%nat; reflexivity.
    + destruct (JS.indexOf value "{"), (JS.lastIndexOf value "}");
        try reflexivity. destruct (_ <? _)%nat; reflexivity.
  - destruct (JS.indexOf value "{"), (JS.lastIndexOf value "}");
      try reflexivity. destruct (_ <? _)%nat; reflexivity.
Qed.

(** *** The file system *)









Lemma dirname_snoc (p : path) x : dirname (p ++ [x]) = p.
Proof. unfold dirname. apply removelast_last. Qed.


(** *** Worktree acquisition *)


(** *** The final apply step *)

Lemma readText_file p content w :
  w_fs w !! p = Some (File content) -> readText p w = (Ok (Some content), w).
Proof.
  intros H. unfold readText. unfold bind at 1. unfold existsSync.
  assert (Fs.existsSync (w_fs w) p = true) as ->.
  { unfold Fs.existsSync. destruct p; [reflexivity | rewrite H; reflexivity]. }
  change (negb true) with false. cbv iota. unfold bind, liftRead. cbv beta.
  assert (Fs.readFile (w_fs w) p = inr content) as ->.
  { unfold Fs.readFile. rewrite H. reflexivity. }
  reflexivity.
Qed.



(** *** Traces: what a computation adds *)

Lemma emits_ret {X} (P : Effect -> Prop) (x : X) : emits P (ret x).
Proof. intros w. exists []. rewrite app_nil_r. split; [reflexivity | constructor]. Qed.

Lemma emits_throw {X} (P : Effect -> Prop) e : emits P (@throw X e).
Proof. intros w. exists []. rewrite app_nil_r. split; [reflexivity | constructor]. Qed.

Lemma emits_bind {X Y} (P : Effect -> Prop) (m : M X) (k : X -> M Y) :
  emits P m -> (forall x, emits P (k x)) -> emits P (bind m k).
Proof.
  intros Hm Hk w. unfold bind. destruct (Hm w) as (l1 & H1 & HP1).
  destruct (m w) as [[x|e|] w1]; simpl in *.
  - destruct (Hk x w1) as (l2 & H2 & HP2). exists (l1 ++ l2).
    rewrite H2, H1, app_assoc. split; [reflexivity | apply Forall_app; auto].
  - exists l1. auto.
  - exists l1. auto.
Qed.

Lemma emits_trace (P : Effect -> Prop) e : P e -> emits P (trace e).
Proof. intros He w. exists [e]. split; [reflexivity | repeat constructor; exact He]. Qed.

Lemma emits_silent {X} (P : Effect -> Prop) (m : M X) :
  (forall w, w_trace (snd (m w)) = w_trace w) -> emits P m.
Proof.
  intros H w. exists []. rewrite app_nil_r. split; [apply H | constructor].
Qed.

Lemma emits_getFs (P : Effect -> Prop) : emits P getFs.
Proof. apply emits_silent. reflexivity. Qed.

Lemma emits_liftFs (P : Effect -> Prop) f : emits P (liftFs f).
Proof. apply emits_silent. intros w. unfold liftFs. destruct (f (w_fs w)); reflexivity. Qed.

Lemma emits_liftRead {X} (P : Effect -> Prop) (f : FS -> exn + X) : emits P (liftRead f).
Proof. apply emits_silent. intros w. unfold liftRead. destruct (f (w_fs w)); reflexivity. Qed.

Lemma emits_clock (P : Effect -> Prop) : emits P clock.
Proof. apply emits_silent. intros w. unfold clock. destruct (now (w_ext w)). reflexivity. Qed.

Lemma emits_existsSync (P : Effect -> Prop) p : emits P (existsSync p).
Proof. apply emits_silent. reflexivity. Qed.

Lemma emits_liftExn {X} (P : Effect -> Prop) (r : exn + X) : emits P (liftExn r).
Proof. destruct r; [apply emits_throw | apply emits_ret]. Qed.

Lemma emits_spawn (P : Effect -> Prop) o :
  emits P (fun w : World =>
             let '(r, fs', ext') := spawn o (w_fs w) (w_ext w) in
             (Ok r, {| w_fs := fs'; w_ext := ext'; w_trace := w_trace w |})).
Proof.
  apply emits_silent. intros w.
  destruct (spawn o (w_fs w) (w_ext w)) as [[r fs'] ext']. reflexivity.
Qed.

Lemma emits_run {X} (P : Effect -> Prop) (m : M X) w r w' :
  emits P m -> m w = (r, w') -> exists l, w_trace w' = w_trace w ++ l /\ Forall P l.
Proof. intros Hm H. destruct (Hm w) as (l & Hl & HP). rewrite H in Hl. eauto. Qed.

Create HintDb emits.

#[local] Hint Resolve emits_ret emits_throw emits_getFs emits_liftFs emits_liftRead
  emits_clock emits_existsSync emits_liftExn emits_spawn : emits.

Ltac emits_step :=
  lazymatch goal with
  | |- emits _ (bind _ _) => apply emits_bind; [|intros]
  | |- emits _ (if ?c then _ else _) => destruct c
  | |- emits _ (match ?x with _ => _ end) => destruct x
  | |- emits _ (trace _) => apply emits_trace; simpl; auto
  | |- emits _ _ => solve [auto with emits]
  end.

Ltac emits_tac := repeat emits_step.

Section MkdirsIn.

Variable Q : path -> Prop.

Lemma emits_ensureDir p : Q p -> emits (mkdirsIn Q) (ensureDir p).
Proof. intros Hp. unfold ensureDir. emits_tac. Qed.

Lemma emits_writeText p c : Q (dirname p) -> emits (mkdirsIn Q) (writeText p c).
Proof.
  intros Hp. unfold writeText.
  apply emits_bind; [apply emits_ensureDir; exact Hp | intros]. emits_tac.
Qed.

Lemma emits_appendFileSync p c : emits (mkdirsIn Q) (appendFileSync p c).
Proof. unfold appendFileSync. emits_tac. Qed.

Lemma emits_stdoutWrite t : emits (mkdirsIn Q) (stdoutWrite t).
Proof. unfold stdoutWrite. emits_tac. Qed.

Lemma emits_runCommand o : emits (mkdirsIn Q) (runCommand o).
Proof. unfold runCommand. emits_tac. Qed.

Lemma emits_readText p : emits (mkdirsIn Q) (readText p).
Proof. unfold readText. emits_tac. Qed.

Lemma emits_runAgentPhase a ac ph pr cwd out logDir ctx v caps t :
  Q logDir -> Q (dirname out) ->
  emits (mkdirsIn Q) (runAgentPhase a ac ph pr cwd (Some out) logDir ctx v caps t).
Proof.
  intros Hlog Hout. unfold runAgentPhase.
  apply emits_bind; [apply emits_ensureDir; exact Hlog | intros].
  apply emits_bind;
    [apply emits_writeText; rewrite dirname_snoc; exact Hlog | intros].
  apply emits_bind; [apply emits_runCommand | intros].
  apply emits_bind; [apply emits_writeText; exact Hout | intros].
  apply emits_ret.
Qed.

Lemma emits_appendTranscript runDir ph role a kind content round stream :
  Q (runDir ++ ["conversation"]) ->
  emits (mkdirsIn Q) (appendTranscript runDir ph role a kind content round stream).
Proof.
  intros Hc. unfold appendTranscript.
  apply emits_bind; [apply emits_clock | intros].
  apply emits_bind; [apply emits_ensureDir; exact Hc | intros].
  apply emits_bind; [apply emits_appendFileSync | intros].
  apply emits_bind; [apply emits_appendFileSync | intros].
  apply emits_bind; [destruct (ts_jsonl stream); [apply emits_stdoutWrite | apply emits_ret] | intros].
  destruct (ts_ui stream); [apply emits_stdoutWrite | apply emits_ret].
Qed.

End MkdirsIn.

(** *** Paths under the decision directory *)

Lemma below_app (p l : path) : Fs.below p (p ++ l) = Some l.
Proof.
  induction p as [|x p IH]; simpl; [reflexivity|].
  rewrite String.eqb_refl. exact IH.
Qed.

Lemma below_sibling (p : path) (a b : string) (l : path) :
  a <> b -> Fs.below (p ++ [a]) (p ++ b :: l) = None.
Proof.
  intros Hab. induction p as [|x p IH]; simpl.
  - apply String.eqb_neq in Hab. rewrite Hab. reflexivity.
  - rewrite String.eqb_refl. exact IH.
Qed.

Lemma showZ_inj (a b : Z) : JS.showZ a = JS.showZ b -> a = b.
Proof.
  unfold JS.showZ. intros H. apply DecimalZ.to_int_inj.
  assert (Hs : Some (Z.to_int a) = Some (Z.to_int b)).
  { rewrite <- !NilEmpty.isi. rewrite H. reflexivity. }
  injection Hs as Hs. exact Hs.
Qed.

Lemma debateRoundDir_inj A (a b : Z) : debateRoundDir A a = debateRoundDir A b -> a = b.
Proof.
  unfold debateRoundDir. intros H. apply app_inv_head in H.
  injection H as H. apply showZ_inj.
  unfold String.append in H. simpl in H.
  repeat (injection H as H). exact H.
Qed.

Lemma isDebateRoundDir_phaseDir A : isDebateRoundDir A (decidePhaseDir A) = false.
Proof.
  unfold isDebateRoundDir.
  rewrite <- (app_nil_r (decidePhaseDir A)) at 2. rewrite below_app. reflexivity.
Qed.

Lemma isDebateRoundDir_child A name :
  isDebateRoundDir A (decidePhaseDir A ++ [name]) = JS.startsWith name "debate_round_".
Proof. unfold isDebateRoundDir. rewrite below_app. reflexivity. Qed.

Lemma isDebateRoundDir_grandchild A name x :
  isDebateRoundDir A ((decidePhaseDir A ++ [name]) ++ [x]) = false.
Proof. unfold isDebateRoundDir. rewrite <- app_assoc. rewrite below_app. reflexivity. Qed.

Lemma isDebateRoundDir_round A k : isDebateRoundDir A (debateRoundDir A k) = true.
Proof. unfold debateRoundDir. rewrite isDebateRoundDir_child. reflexivity. Qed.

Lemma isDebateRoundDir_conversation A :
  isDebateRoundDir A (da_runDir A ++ ["conversation"]) = false.
Proof.
  unfold isDebateRoundDir, decidePhaseDir.
  rewrite below_sibling; [reflexivity | discriminate].
Qed.

Lemma isDebateRoundDir_agent A j :
  isDebateRoundDir A (decidePhaseDir A ++ [agentName j]) = false.
Proof. rewrite isDebateRoundDir_child. destruct j; reflexivity. Qed.

(** *** The debate *)

Lemma roundIn_other A lo hi p : isDebateRoundDir A p = false -> roundIn A lo hi p.
Proof. intros H H'. rewrite H in H'. discriminate. Qed.

Lemma roundIn_weaken A lo hi lo' hi' e :
  lo' <= lo -> hi <= hi' -> mkdirsIn (roundIn A lo hi) e -> mkdirsIn (roundIn A lo' hi') e.
Proof.
  intros Hlo Hhi. destruct e; simpl; auto.
  intros H Hp. destruct (H Hp) as (k & Hk & ->). exists k. split; [lia | reflexivity].
Qed.

Lemma emits_askEach A (Q : path -> Prop) judges prompt dir round outs :
  Q dir -> (forall j, Q (dir ++ [agentName j])) -> Q (da_runDir A ++ ["conversation"]) ->
  emits (mkdirsIn Q) (askEach A judges prompt dir round outs).
Proof.
  intros Hdir Hlog Hconv. revert outs.
  induction judges as [|j rest IH]; intros outs; simpl.
  - apply emits_ret.
  - apply emits_bind;
      [apply emits_runAgentPhase; [apply Hlog | rewrite dirname_snoc; exact Hdir] | intros].
    apply emits_bind; [apply emits_readText | intros].
    apply emits_bind; [apply emits_appendTranscript; exact Hconv | intros].
    apply IH.
Qed.

Lemma emits_debateInitial A plans :
  emits (mkdirsIn (fun p => isDebateRoundDir A p = false)) (debateInitial A plans).
Proof.
  destruct plans as [[[pc pl] qc] ql]. unfold debateInitial, askJudges.
  apply emits_bind;
    [apply emits_appendTranscript; apply isDebateRoundDir_conversation | intros].
  apply emits_askEach.
  - apply isDebateRoundDir_phaseDir.
  - apply isDebateRoundDir_agent.
  - apply isDebateRoundDir_conversation.
Qed.

Lemma emits_readPlans A (Q : path -> Prop) : emits (mkdirsIn Q) (readPlans A).
Proof.
  unfold readPlans. repeat (apply emits_bind; [apply emits_readText | intros]).
  apply emits_ret.
Qed.

Lemma ensureDir_Ok p w w' :
  ensureDir p w = (Ok tt, w') -> w_trace w' = w_trace w ++ [EMkdir p].
Proof.
  unfold ensureDir. intros H. inv_bind H.
  unfold trace in Hm. injection Hm as _ <-.
  unfold liftFs in H. simpl in H.
  destruct (Fs.mkdirp (w_fs w) p); [discriminate|].
  injection H as <-. reflexivity.
Qed.

Lemma writeText_Ok p c w w' :
  writeText p c w = (Ok tt, w') ->
  w_trace w' = w_trace w ++ [EMkdir (dirname p); EWrite p c].
Proof.
  unfold writeText. intros H. inv_bind H. destruct x.
  apply ensureDir_Ok in Hm. inv_bind H.
  unfold trace in Hm0. injection Hm0 as _ <-.
  unfold liftFs in H. simpl in H.
  destruct (Fs.writeFile (w_fs w0) p c); [discriminate|].
  injection H as <-. simpl. rewrite Hm, <- app_assoc. reflexivity.
Qed.

Lemma consensus_same_winner (codexPick claudePick : json) (s : string) :
  s <> "" ->
  Json.getProp codexPick "winner" = Some (JStr s) ->
  Json.getProp claudePick "winner" = Some (JStr s) ->
  consensus codexPick claudePick = true.
Proof.
  intros Hs Hc Hl. unfold consensus. rewrite Hc, Hl. simpl.
  rewrite String.eqb_refl. destruct s; [contradiction | reflexivity].
Qed.

(** One round of the debate: its directory is created, the judges' picks
    are recorded, and the round ends the loop exactly on a consensus. *)
Lemma debateRound_spec A plans round st w step w' :
  debateRound A plans round st w = (Ok step, w') ->
  exists r l,
    dr_round r = round /\
    ds_history (stepState step) = ds_history st ++ [r] /\
    isBreak step = consensus (dr_codexPick r) (dr_claudePick r) /\
    (isBreak step = false -> ds_final (stepState step) = ds_final st) /\
    w_trace w' = w_trace w ++ EMkdir (debateRoundDir A round) :: l /\
    Forall (mkdirsIn (roundIn A round round)) l.
Proof.
  destruct plans as [[[pc pl] qc] ql]. unfold debateRound. intros H.
  inv_bind H. destruct x. apply ensureDir_Ok in Hm.
  inv_bind H.
  eapply emits_run in Hm0;
    [|apply (emits_appendTranscript (roundIn A round round));
      apply roundIn_other, isDebateRoundDir_conversation].
  destruct Hm0 as (l1 & Hl1 & HP1).
  inv_bind H. unfold askJudges in Hm0.
  eapply emits_run in Hm0;
    [|apply (emits_askEach A (roundIn A round round))].
  2: { intros _. exists round. split; [lia | reflexivity]. }
  2: { intros j. apply roundIn_other. unfold debateRoundDir.
       apply isDebateRoundDir_grandchild. }
  2: { apply roundIn_other, isDebateRoundDir_conversation. }
  destruct Hm0 as (l2 & Hl2 & HP2).
  set (r := {| dr_round := round; dr_codexPick := extractJson (fst x0);
               dr_claudePick := extractJson (snd x0) |}).
  exists r, (l1 ++ l2).
  assert (Htr : w_trace w2 = w_trace w ++ EMkdir (debateRoundDir A round) :: l1 ++ l2).
  { rewrite Hl2, Hl1, Hm, <- !app_assoc. reflexivity. }
  assert (HP : Forall (mkdirsIn (roundIn A round round)) (l1 ++ l2)).
  { apply Forall_app; auto. }
  destruct (consensus (extractJson (fst x0)) (extractJson (snd x0))) eqn:Hc;
    apply ret_Ok in H; destruct H as [<- <-]; simpl; rewrite ?Hc;
    repeat split; auto; discriminate.
Qed.

Section DebateLoop.

Variable A : DecideArgs.
Variable plans : string * string * string * string.
Local Abbreviation bound := (debateRoundBound A).

Lemma debateLoop_run fuel : forall round st w st' w',
  forRounds fuel round bound (debateRound A plans) st w = (Ok st', w') ->
  exists new l,
    ds_history st' = ds_history st ++ new /\
    w_trace w' = w_trace w ++ l /\
    Forall (mkdirsIn (roundIn A round bound)) l /\
    ((forall r, In r new -> consensus (dr_codexPick r) (dr_claudePick r) = false) ->
     ds_final st' = ds_final st /\
     List.map dr_round new = seqZ round (bound - round + 1) /\
     forall k, round <= k <= bound -> In (EMkdir (debateRoundDir A k)) l).
Proof.
  induction fuel as [|fuel IH]; intros round st w st' w' H; simpl in H.
  - destruct (round <=? bound) eqn:Hle; [discriminate|].
    apply Z.leb_gt in Hle. apply ret_Ok in H. destruct H as [<- <-].
    exists [], []. rewrite !app_nil_r. repeat split; auto.
    + rewrite seqZ_nil; [reflexivity | lia].
    + intros k Hk. lia.
  - destruct (round <=? bound) eqn:Hle.
    + apply Z.leb_le in Hle. inv_bind H.
      apply debateRound_spec in Hm.
      destruct Hm as (r & l & Hround & Hhist & Hbreak & Hfinal & Htr & HP).
      destruct x as [s'|s']; simpl in *.
      * apply IH in H. destruct H as (new & l' & Hh' & Htr' & HP' & Hrest).
        exists (r :: new), (EMkdir (debateRoundDir A round) :: l ++ l').
        split; [rewrite Hh', Hhist, <- app_assoc; reflexivity|].
        split; [rewrite Htr', Htr, <- app_assoc; reflexivity|].
        split.
        { constructor.
          - intros _. exists round. split; [lia | reflexivity].
          - apply Forall_app. split.
            + eapply Forall_impl; [exact HP|].
              intros e. apply roundIn_weaken; lia.
            + eapply Forall_impl; [exact HP'|].
              intros e. apply roundIn_weaken; lia. }
        intros Hno.
        destruct Hrest as (Hf & Hmap & Hdirs).
        { intros r' Hr'. apply Hno. right. exact Hr'. }
        split; [rewrite Hf; apply Hfinal; reflexivity|].
        split.
        { simpl. rewrite Hmap, Hround.
          rewrite (seqZ_cons round (bound - round + 1)) by lia.
          f_equal. f_equal; lia. }
        intros k Hk. destruct (Z.eq_dec k round) as [->|Hne].
        { left. reflexivity. }
        right. apply in_or_app. right. apply Hdirs. lia.
      * apply ret_Ok in H. destruct H as [<- <-].
        exists [r], (EMkdir (debateRoundDir A round) :: l).
        split; [exact Hhist|]. split; [exact Htr|].
        split.
        { constructor.
          - intros _. exists round. split; [lia | reflexivity].
          - eapply Forall_impl; [exact HP|].
            intros e. apply roundIn_weaken; lia. }
        intros Hno. specialize (Hno r (or_introl eq_refl)).
        rewrite Hno in Hbreak. discriminate.
    + apply Z.leb_gt in Hle. apply ret_Ok in H. destruct H as [<- <-].
      exists [], []. rewrite !app_nil_r. repeat split; auto.
      * rewrite seqZ_nil; [reflexivity | lia].
      * intros k Hk. lia.
Qed.

End DebateLoop.

(** *** The round directories of a trace *)

Lemma mkdirsOf_In (l : list Effect) (p : path) : In p (mkdirsOf l) <-> In (EMkdir p) l.
Proof.
  unfold mkdirsOf. rewrite <- !list_elem_of_In, list_elem_of_omap. split.
  - intros (e & He & Hp). destruct e; try discriminate.
    injection Hp as ->. exact He.
  - intros He. exists (EMkdir p). split; [exact He | reflexivity].
Qed.

Lemma debateRoundDirsOf_In A (l : list Effect) (p : path) :
  In p (debateRoundDirsOf A l) <-> isDebateRoundDir A p = true /\ In (EMkdir p) l.
Proof.
  unfold debateRoundDirsOf.
  rewrite <- list_elem_of_In, elem_of_remove_dups, list_elem_of_In.
  rewrite filter_In, mkdirsOf_In. tauto.
Qed.

Lemma debateRoundDirsOf_none A (l : list Effect) :
  Forall (mkdirsIn (fun p => isDebateRoundDir A p = false)) l ->
  debateRoundDirsOf A l = [].
Proof.
  intros H. destruct (debateRoundDirsOf A l) as [|p rest] eqn:E; [reflexivity|].
  assert (Hp : In p (debateRoundDirsOf A l)) by (rewrite E; left; reflexivity).
  apply debateRoundDirsOf_In in Hp. destruct Hp as [Hround Hin].
  rewrite List.Forall_forall in H. specialize (H _ Hin). simpl in H.
  rewrite H in Hround. discriminate.
Qed.

Lemma debateRoundDir_Inj A : Inj (=) (=) (debateRoundDir A).
Proof. intros a b. apply debateRoundDir_inj. Qed.

Lemma debateRoundDirsOf_exact A (l : list Effect) (bound : Z) :
  Forall (mkdirsIn (roundIn A 1 bound)) l ->
  (forall k, 1 <= k <= bound -> In (EMkdir (debateRoundDir A k)) l) ->
  Permutation (debateRoundDirsOf A l) (List.map (debateRoundDir A) (seqZ 1 bound)) /\
  Z.of_nat (length (debateRoundDirsOf A l)) = Z.max 0 bound.
Proof.
  intros Honly Hall.
  assert (HP : Permutation (debateRoundDirsOf A l)
                 (List.map (debateRoundDir A) (seqZ 1 bound))).
  { apply NoDup_Permutation.
    - apply NoDup_remove_dups.
    - apply (@NoDup_fmap_2 _ _ (debateRoundDir A) (debateRoundDir_Inj A)), NoDup_seqZ.
    - intros p. rewrite list_elem_of_In, debateRoundDirsOf_In.
      change (List.map (debateRoundDir A) (seqZ 1 bound))
        with (debateRoundDir A <$> seqZ 1 bound).
      rewrite list_elem_of_fmap. split.
      + intros [Hround Hin].
        rewrite List.Forall_forall in Honly. specialize (Honly _ Hin Hround).
        destruct Honly as (k & Hk & ->). exists k. split; [reflexivity|].
        apply elem_of_seqZ. lia.
      + intros (k & -> & Hk). apply elem_of_seqZ in Hk.
        split; [apply isDebateRoundDir_round | apply Hall; lia]. }
  split; [exact HP|].
  rewrite (Permutation_length HP), length_map, length_seqZ. lia.
Qed.

(** *** The decision phase returns *)

Lemma total_askEach A judges prompt dir round outs :
  total (askEach A judges prompt dir round outs).
Proof.
  revert outs. induction judges as [|j rest IH]; intros outs; simpl.
  - apply total_ret.
  - total_tac.
Qed.
#[local] Hint Resolve total_askEach : total.

Lemma total_debateRound A plans round st : total (debateRound A plans round st).
Proof.
  destruct plans as [[[pc pl] qc] ql]. unfold debateRound, askJudges. total_tac.
Qed.

Lemma total_debateFrom A fuel plans outs :
  (Z.to_nat (debateRoundBound A) <= fuel)%nat -> total (debateFrom A fuel plans outs).
Proof.
  intros Hfuel. unfold debateFrom.
  destruct (consensus _ _); [total_tac|].
  apply total_bind; [|intros; total_tac].
  apply forRounds_total; [apply total_debateRound|].
  replace (debateRoundBound A - 1 + 1) with (debateRoundBound A) by lia. exact Hfuel.
Qed.

Lemma total_runDecision A fuel :
  (Z.to_nat (debateRoundBound A) <= fuel)%nat -> total (runDecision A fuel).
Proof.
  intros Hfuel. unfold runDecision.
  apply total_bind; [apply total_ensureDir | intros].
  apply total_bind; [unfold readPlans; total_tac | intros plans].
  destruct (decisionMode A).
  - destruct plans as [[[pc pl] qc] ql]. unfold runJudge. total_tac.
  - apply total_bind.
    + destruct plans as [[[pc pl] qc] ql]. unfold debateInitial, askJudges. total_tac.
    + intros outs. apply total_bind; [apply total_debateFrom; exact Hfuel|].
      intros; apply total_ret.
  - unfold runRuleBased. total_tac.
  - unfold runRuleBased. total_tac.
  - unfold runRuleBased. total_tac.
Qed.

(** The decision phase in debate mode, cut at the two initial judgments. *)
Lemma runDecision_debate A fuel w log w' :
  decisionMode A = debate ->
  runDecision A fuel w = (Ok log, w') ->
  exists plans w0 outs w1 l0,
    dl_initial log = Some outs /\
    debateInitial A plans w0 = (Ok outs, w1) /\
    debateFrom A fuel plans outs w1 = (Ok (dl_decision log, dl_history log), w') /\
    w_trace w1 = w_trace w ++ l0 /\
    Forall (mkdirsIn (fun p => isDebateRoundDir A p = false)) l0.
Proof.
  intros Hmode H. unfold runDecision in H. rewrite Hmode in H.
  inv_bind H. destruct x. apply ensureDir_Ok in Hm.
  inv_bind H. rename x into plans.
  eapply emits_run in Hm0; [|apply (emits_readPlans A (fun p => isDebateRoundDir A p = false))].
  destruct Hm0 as (l1 & Hl1 & HP1).
  inv_bind H. rename x into outs.
  inv_bind H. destruct x as [d hist].
  apply ret_Ok in H. destruct H as [<- <-]. simpl.
  pose proof Hm0 as Hinit.
  eapply emits_run in Hinit; [|apply emits_debateInitial].
  destruct Hinit as (l2 & Hl2 & HP2).
  exists plans, w1, outs, w2, (EMkdir (decidePhaseDir A) :: l1 ++ l2).
  split; [reflexivity|]. split; [exact Hm0|]. split; [exact Hm1|].
  split; [rewrite Hl2, Hl1, Hm, <- !app_assoc; reflexivity|].
  constructor; [apply isDebateRoundDir_phaseDir|].
  apply Forall_app. auto.
Qed.

(** C3. In debate mode, when the two initial judgments name the same
    winner, that winner is the decision at once: the run records no debate
    round, creates no round directory, does nothing after the initial
    judgments but write the decision, and the rationale is the one of the
    initial judgment. *)
Theorem debate_consensus_short_circuit A fuel w log w' outs s :
  decisionMode A = debate ->
  runDecision A fuel w = (Ok log, w') ->
  dl_initial log = Some outs ->
  s <> "" ->
  Json.getProp (extractJson (fst outs)) "winner" = Some (JStr s) ->
  Json.getProp (extractJson (snd outs)) "winner" = Some (JStr s) ->
  d_winner (dl_decision log) = JStr s /\
  d_rationale (dl_decision log) =
    consensusRationale "initial judgment"
      (extractJson (fst outs)) (extractJson (snd outs)) /\
  (exists tail,
     d_rationale (dl_decision log) =
       JStr ("Consensus after initial judgment." +:+ tail)) /\
  dl_history log = [] /\
  (exists plans w0 w1,
     debateInitial A plans w0 = (Ok outs, w1) /\
     w_trace w' =
       w_trace w1 ++
         [EMkdir (decidePhaseDir A);
          EWrite (decidePhaseDir A ++ ["decision.json"])
            (JSON_pretty (decisionJson (dl_decision log)))]) /\
  exists l, w_trace w' = w_trace w ++ l /\ debateRoundDirsOf A l = [].
Proof.
  intros Hmode H Houts Hs Hc Hl.
  destruct (runDecision_debate A fuel w log w' Hmode H)
    as (plans & w0 & outs' & w1 & l0 & Houts' & Hinit & Hfrom & Hl0 & HP0).
  rewrite Houts in Houts'. injection Houts' as <-.
  pose proof (consensus_same_winner _ _ s Hs Hc Hl) as Hcons.
  unfold debateFrom in Hfrom. rewrite Hcons in Hfrom.
  inv_bind Hfrom. destruct x. apply writeText_Ok in Hm.
  apply ret_Ok in Hfrom. destruct Hfrom as [Hd <-].
  injection Hd as Hd Hh. rewrite <- Hh, <- Hd in *. clear Hd Hh.
  rewrite dirname_snoc in Hm.
  split; [simpl; rewrite Hc; reflexivity|]. split; [reflexivity|].
  split; [eexists; unfold consensusRationale; simpl; reflexivity|].
  split; [reflexivity|].
  split; [exists plans, w0, w1; split; [exact Hinit | exact Hm]|].
  eexists. split; [rewrite Hm, Hl0, <- app_assoc; reflexivity|].
  apply debateRoundDirsOf_none. apply Forall_app. split; [exact HP0|].
  constructor; [apply isDebateRoundDir_phaseDir|].
  constructor; [exact I | constructor].
Qed.

(** C4. In debate mode the decision phase returns, and when the judges
    reach no consensus, neither initially nor in any round, the winner is
    [neither], the rationale says that the judges did not converge, the
    rounds run are 1 up to the configured bound, and the round directories
    created are exactly those of these rounds: as many as the bound. *)
Theorem debate_no_convergence A fuel w :
  decisionMode A = debate ->
  (Z.to_nat (debateRoundBound A) <= fuel)%nat ->
  fst (runDecision A fuel w) <> OutOfFuel /\
  forall log w' outs,
    runDecision A fuel w = (Ok log, w') ->
    dl_initial log = Some outs ->
    consensus (extractJson (fst outs)) (extractJson (snd outs)) = false ->
    (forall r, In r (dl_history log) ->
       consensus (dr_codexPick r) (dr_claudePick r) = false) ->
    d_winner (dl_decision log) = JStr "neither" /\
    d_rationale (dl_decision log) = JStr "Judges did not converge after debate rounds." /\
    List.map dr_round (dl_history log) = seqZ 1 (debateRoundBound A) /\
    exists l,
      w_trace w' = w_trace w ++ l /\
      Permutation (debateRoundDirsOf A l)
        (List.map (debateRoundDir A) (seqZ 1 (debateRoundBound A))) /\
      Z.of_nat (length (debateRoundDirsOf A l)) = Z.max 0 (debateRoundBound A).
Proof.
  intros Hmode Hfuel. split; [apply total_runDecision; exact Hfuel|].
  intros log w' outs H Houts Hno0 Hno.
  destruct (runDecision_debate A fuel w log w' Hmode H)
    as (plans & w0 & outs' & w1 & l0 & Houts' & Hinit & Hfrom & Hl0 & HP0).
  rewrite Houts in Houts'. injection Houts' as <-.
  unfold debateFrom in Hfrom. rewrite Hno0 in Hfrom.
  inv_bind Hfrom. rename x into st.
  apply debateLoop_run in Hm.
  destruct Hm as (new & l1 & Hhist & Hl1 & HP1 & Hrest).
  simpl in Hhist.
  inv_bind Hfrom. destruct x. apply writeText_Ok in Hm.
  rewrite dirname_snoc in Hm.
  inv_bind Hfrom.
  eapply emits_run in Hm0;
    [|apply (emits_appendTranscript (roundIn A 1 (debateRoundBound A)));
      apply roundIn_other, isDebateRoundDir_conversation].
  destruct Hm0 as (l2 & Hl2 & HP2).
  apply ret_Ok in Hfrom. destruct Hfrom as [Hd <-].
  injection Hd as Hd Hh. rewrite <- Hh in *. rewrite <- Hd. clear Hd Hh.
  destruct Hrest as (Hfinal & Hmap & Hdirs).
  { rewrite Hhist in Hno. exact Hno. }
  simpl in Hfinal. rewrite Hfinal. simpl.
  split; [reflexivity|]. split; [reflexivity|].
  split.
  { rewrite Hhist, Hmap. f_equal. lia. }
  eexists. split.
  { rewrite Hl2, Hm, Hl1, Hl0, <- !app_assoc. reflexivity. }
  apply debateRoundDirsOf_exact.
  - apply Forall_app. split.
    { eapply Forall_impl; [exact HP0|]. intros [] He; simpl in *; auto.
      apply roundIn_other. exact He. }
    apply Forall_app. split; [exact HP1|].
    apply Forall_app. split; [|exact HP2].
    constructor; [apply roundIn_other, isDebateRoundDir_phaseDir|].
    constructor; [exact I | constructor].
  - intros k Hk. apply in_or_app. right. apply in_or_app. left.
    apply Hdirs. exact Hk.
Qed.

(** *** The final artifact of the joint phase *)







Lemma writeText_Ok_file p c w w' :
  writeText p c w = (Ok tt, w') -> w_fs w' !! p = Some (File c).
Proof.
  unfold writeText. intros H. inv_bind H. inv_bind H.
  unfold trace in Hm0. injection Hm0 as _ <-.
  unfold liftFs in H. simpl in H.
  destruct (Fs.writeFile (w_fs w0) p c) as [e|fs'] eqn:E; [discriminate|].
  injection H as <-. simpl.
  unfold Fs.writeFile in E.
  destruct (w_fs w0 !! p) as [[]|];
    try discriminate;
    destruct (_ && _); try discriminate;
    injection E as <-; apply lookup_insert_eq.
Qed.



(** ** Further properties of the code *)

(** *** summarizeDiff *)

Lemma startsWith_plus_minus line :
  JS.startsWith line "+" = true -> JS.startsWith line "-" = false.
Proof.
  destruct line as [|c r]; cbn [JS.startsWith]; intros H; [discriminate H|].
  destruct (Ascii.eqb "+" c) eqn:E; [|discriminate H].
  apply Ascii.eqb_eq in E. subst c. reflexivity.
Qed.

Lemma summarizeDiff_fold (step : DiffStats -> string -> DiffStats) lines :
  (forall st line,
     step st line =
       if isHeaderLine line then st
       else if JS.startsWith line "+"
            then {| added := added st + 1; removed := removed st |}
            else if JS.startsWith line "-"
                 then {| added := added st; removed := removed st + 1 |}
                 else st) ->
  forall st,
    added (fold_left step lines st) =
      added st + lengthZ (List.filter isAddedLine lines) /\
    removed (fold_left step lines st) =
      removed st + lengthZ (List.filter isRemovedLine lines).
Proof.
  intros Hstep. induction lines as [|line lines IH]; intros st.
  - unfold lengthZ. simpl. lia.
  - change (fold_left step (line :: lines) st)
      with (fold_left step lines (step st line)).
    destruct (IH (step st line)) as [IHa IHr]. rewrite IHa, IHr, Hstep.
    change (List.filter isAddedLine (line :: lines))
      with (if isAddedLine line then line :: List.filter isAddedLine lines
            else List.filter isAddedLine lines).
    change (List.filter isRemovedLine (line :: lines))
      with (if isRemovedLine line then line :: List.filter isRemovedLine lines
            else List.filter isRemovedLine lines).
    unfold isAddedLine, isRemovedLine.
    destruct (isHeaderLine line); cbn [negb andb].
    + split; reflexivity.
    + destruct (JS.startsWith line "+") eqn:Hp.
      * rewrite (startsWith_plus_minus _ Hp). unfold lengthZ.
        cbn [length added removed]. lia.
      * destruct (JS.startsWith line "-"); unfold lengthZ;
          cbn [length added removed]; lia.
Qed.

Lemma filter_length_le {X} (f : X -> bool) (l : list X) :
  (length (List.filter f l) <= length l)%nat.
Proof. induction l as [|x l IH]; simpl; [lia|]. destruct (f x); simpl; lia. Qed.

Lemma added_not_removed line : isAddedLine line = true -> isRemovedLine line = false.
Proof.
  unfold isAddedLine, isRemovedLine. destruct (isHeaderLine line); cbn [negb andb];
    [discriminate|]. apply startsWith_plus_minus.
Qed.

Lemma filter_added_removed_le (lines : list string) :
  (length (List.filter isAddedLine lines) + length (List.filter isRemovedLine lines)
   <= length lines)%nat.
Proof.
  induction lines as [|line lines IH]; [simpl; lia|].
  cbn [List.filter].
  destruct (isAddedLine line) eqn:Ha.
  - rewrite (added_not_removed _ Ha). cbn [length]. lia.
  - destruct (isRemovedLine line); cbn [length]; lia.
Qed.

(** X1. The statistics of a diff count every line once at most: the added
    lines are those that start with a plus, the removed ones those that
    start with a minus, the [+++ ] and [--- ] file headers counting for
    neither; so the two counters never exceed the number of lines. *)
Theorem summarizeDiff_counts :
  forall diff,
    let lines := JS.splitOn JS.LF diff in
    added (summarizeDiff diff) = lengthZ (List.filter isAddedLine lines) /\
    removed (summarizeDiff diff) = lengthZ (List.filter isRemovedLine lines) /\
    0 <= added (summarizeDiff diff) /\
    0 <= removed (summarizeDiff diff) /\
    added (summarizeDiff diff) + removed (summarizeDiff diff) <= lengthZ lines.
Proof.
  intros diff lines.
  unfold summarizeDiff. fold lines.
  match goal with
  | |- context [fold_left ?f lines ?st0] =>
      destruct (summarizeDiff_fold f lines (fun _ _ => eq_refl) st0) as [Ha Hr]
  end.
  rewrite Ha, Hr. cbn [added removed].
  pose proof (filter_added_removed_le lines). unfold lengthZ.
  repeat split; lia.
Qed.

(** *** extractChangedFilesFromDiff *)

Lemma existsb_eqb_In (x : string) (l : list string) :
  existsb (String.eqb x) l = true <-> In x l.
Proof.
  rewrite existsb_exists. split.
  - intros (y & Hy & He). apply String.eqb_eq in He. subst y. exact Hy.
  - intros H. exists x. split; [exact H | apply String.eqb_refl].
Qed.

Lemma dedup_spec (l seen : list string) :
  List.NoDup (dedup l seen) /\ forall x, In x (dedup l seen) -> ~ In x seen.
Proof.
  revert seen. induction l as [|x l IH]; intros seen; cbn [dedup].
  - split; [constructor | intros x []].
  - destruct (existsb (String.eqb x) seen) eqn:E; [apply IH|].
    destruct (IH (x :: seen)) as [Hnd Hout]. split.
    + constructor; [|exact Hnd]. intros Hin. apply (Hout x Hin). left. reflexivity.
    + intros y [<-|Hy].
      * intros Hin. apply existsb_eqb_In in Hin. congruence.
      * intros Hin. apply (Hout y Hy). right. exact Hin.
Qed.

Lemma insertSorted_Permutation x l : Permutation (insertSorted x l) (x :: l).
Proof.
  induction l as [|y l IH]; cbn [insertSorted]; [reflexivity|].
  destruct (String.leb x y); [reflexivity|].
  rewrite IH. apply perm_swap.
Qed.

Lemma sortStrings_Permutation l : Permutation (sortStrings l) l.
Proof.
  unfold sortStrings. induction l as [|x l IH]; cbn [fold_right]; [reflexivity|].
  rewrite insertSorted_Permutation. constructor. exact IH.
Qed.

Lemma insertSorted_ascending x l : ascending l -> ascending (insertSorted x l).
Proof.
  unfold ascending. induction l as [|y l IH]; intros Hs; cbn [insertSorted].
  - repeat constructor.
  - destruct (String.leb x y) eqn:E.
    + constructor; [exact Hs | constructor; exact E].
    + inversion Hs as [|y' l' Hl Hhd]; subst. constructor; [apply IH; exact Hl|].
      assert (Hyx : String.leb y x = true).
      { destruct (String.leb_total x y) as [H|H]; [congruence | exact H]. }
      destruct l as [|z l]; cbn [insertSorted]; [constructor; exact Hyx|].
      destruct (String.leb x z); [constructor; exact Hyx|].
      inversion Hhd; subst. constructor. assumption.
Qed.

Lemma sortStrings_ascending l : ascending (sortStrings l).
Proof.
  unfold sortStrings. induction l as [|x l IH]; cbn [fold_right].
  - constructor.
  - apply insertSorted_ascending. exact IH.
Qed.

(** X2. The changed files of a diff come as a set in order: no name twice,
    none empty, in ascending code-unit order, whatever the diff text and
    the two prefixes. *)
Theorem extractChangedFiles_sorted_set :
  forall diff rootDir worktreeDir,
    let files := extractChangedFilesFromDiff diff rootDir worktreeDir in
    List.NoDup files /\ ascending files /\ Forall (fun f => f <> "") files.
Proof.
  intros diff rootDir worktreeDir files. subst files.
  unfold extractChangedFilesFromDiff.
  match goal with |- context [dedup ?l []] => generalize l end.
  intros l. split; [|split].
  - eapply Permutation_NoDup; [symmetry; apply sortStrings_Permutation|].
    apply List.NoDup_filter. apply dedup_spec.
  - apply sortStrings_ascending.
  - apply Forall_forall. intros f Hf. apply list_elem_of_In in Hf.
    eapply Permutation_in in Hf; [|apply sortStrings_Permutation].
    apply filter_In in Hf. destruct Hf as [_ Hne]. intros ->. discriminate Hne.
Qed.

(** *** Globs *)

Lemma regExpTest_literal glob : forall target,
  starFree glob = true ->
  regExpTest (globToRegExp glob) target = String.eqb glob target.
Proof.
  unfold starFree, globToRegExp.
  induction glob as [|c glob IH]; intros target Hs.
  - destruct target; reflexivity.
  - cbn [chars forallb List.map] in *. apply andb_prop in Hs. destruct Hs as [Hc Hs].
    apply negb_true_iff in Hc. rewrite Hc.
    destruct target as [|d target]; [reflexivity|].
    cbn [regExpTest String.eqb]. rewrite (IH target Hs).
    destruct (Ascii.eqb c d); reflexivity.
Qed.

Lemma regExpTest_any target :
  regExpTest [AnyChars] target = negb (hasLineTerminator target).
Proof.
  unfold hasLineTerminator.
  induction target as [|d target IH]; [reflexivity|].
  cbn [chars existsb]. rewrite negb_orb, <- IH.
  cbn [regExpTest JS.nonEmpty negb orb]. reflexivity.
Qed.

Lemma regExpTest_prefix p : forall target,
  starFree p = true ->
  regExpTest (globToRegExp (p +:+ "*")) target =
    JS.startsWith target p && negb (hasLineTerminator (JS.drop (String.length p) target)).
Proof.
  unfold starFree, globToRegExp.
  induction p as [|c p IH]; intros target Hs.
  - apply regExpTest_any.
  - cbn [chars forallb] in Hs. apply andb_prop in Hs. destruct Hs as [Hc Hs].
    apply negb_true_iff in Hc.
    change (String c p +:+ "*") with (String c (p +:+ "*")).
    cbn [chars List.map]. rewrite Hc.
    destruct target as [|d target]; [reflexivity|].
    cbn [regExpTest JS.startsWith String.length JS.drop]. rewrite (IH target Hs).
    destruct (Ascii.eqb c d); reflexivity.
Qed.

(** X3. A forbidden-path pattern without a star names one target: it
    matches a file exactly when it equals the file's path, separators
    normalized, or the file's base name if the pattern holds no slash.
    Followed by a star it matches exactly the targets that start with it
    and hold no line break after it, slashes included. *)
Theorem matchesGlob_literal_and_prefix (p relPath : string) :
  starFree p = true ->
  let normalized := JS.replaceChar "\" "/" relPath in
  matchesGlob p relPath =
    String.eqb p (if JS.includes p "/" then normalized else basename normalized) /\
  matchesGlob (p +:+ "*") relPath =
    let target :=
      if JS.includes (p +:+ "*") "/" then normalized else basename normalized in
    JS.startsWith target p && negb (hasLineTerminator (JS.drop (String.length p) target)).
Proof.
  intros Hs normalized. unfold matchesGlob. fold normalized. split.
  - apply regExpTest_literal. exact Hs.
  - cbv zeta. apply regExpTest_prefix. exact Hs.
Qed.

(** *** Review summaries *)

Lemma length_append (a b : string) :
  String.length (a +:+ b) = (String.length a + String.length b)%nat.
Proof.
  induction a as [|c a IH]; [reflexivity|].
  change (String c a +:+ b) with (String c (a +:+ b)).
  cbn [String.length]. rewrite IH. reflexivity.
Qed.

Lemma take_length_le n s : (String.length (JS.take n s) <= n)%nat.
Proof.
  revert s. induction n as [|n IH]; intros s; [simpl; lia|].
  destruct s as [|c s]; cbn [JS.take String.length]; [lia|].
  specialize (IH s). lia.
Qed.

Lemma truncateInline_length text maxChars :
  Z.of_nat (String.length (truncateInline text maxChars)) <=
    (if maxChars <=? 0 then 0 else maxChars + 1).
Proof.
  unfold truncateInline.
  set (normalized := JS.trim _).
  destruct (maxChars <=? 0) eqn:E0; [simpl; lia|].
  apply Z.leb_gt in E0.
  destruct (Z.of_nat (String.length normalized) <=? maxChars) eqn:E1.
  - apply Z.leb_le in E1. lia.
  - rewrite length_append. cbn [String.length].
    pose proof (take_length_le (Z.to_nat maxChars) normalized). lia.
Qed.

Lemma mergeReviewSummaries_fold (summaries : list ReviewSummary) :
  forall bs ws (ns : list string),
    let '(bs', ws', _) :=
      fold_left
        (fun '(bs, ws, ns) s =>
           (bs ++ blockers s, ws ++ warnings s,
            if JS.nonEmpty (JS.trim (notes s)) then ns ++ [JS.trim (notes s)] else ns))
        summaries (bs, ws, ns) in
    bs' = bs ++ List.concat (List.map blockers summaries) /\
    ws' = ws ++ List.concat (List.map warnings summaries).
Proof.
  induction summaries as [|s rest IH]; intros bs ws ns.
  - cbn [fold_left List.map List.concat]. rewrite !app_nil_r. split; reflexivity.
  - cbn [fold_left List.map List.concat].
    specialize (IH (bs ++ blockers s) (ws ++ warnings s)
                  (if JS.nonEmpty (JS.trim (notes s)) then ns ++ [JS.trim (notes s)]
                   else ns)).
    destruct (fold_left _ rest _) as [[bs' ws'] ns'].
    destruct IH as [-> ->]. rewrite <- !app_assoc. split; reflexivity.
Qed.

(** X4. Merging review summaries loses no issue: the blockers of the merge
    are the blockers of the summaries one after the other, in their order,
    and so are the warnings; the merged notes are cut to 240 characters and
    a mark. *)
Theorem mergeReviewSummaries_keeps_issues :
  forall summaries,
    blockers (mergeReviewSummaries summaries) =
      List.concat (List.map blockers summaries) /\
    warnings (mergeReviewSummaries summaries) =
      List.concat (List.map warnings summaries) /\
    (String.length (notes (mergeReviewSummaries summaries)) <= 241)%nat.
Proof.
  intros summaries. unfold mergeReviewSummaries.
  pose proof (mergeReviewSummaries_fold summaries [] [] []) as H.
  destruct (fold_left _ summaries _) as [[bs ws] ns].
  destruct H as [-> ->]. cbn [blockers warnings notes app].
  split; [reflexivity|]. split; [reflexivity|].
  pose proof (truncateInline_length (JS.join " | " ns) 240) as Hlen.
  change (240 <=? 0) with false in Hlen. cbv iota in Hlen. lia.
Qed.

Lemma normalize_summaries items prefix issues :
  normalize items prefix = inr issues ->
  Forall (fun it => ri_summary it <> "") issues.
Proof.
  unfold normalize. destruct (nullish items).
  - intros H. injection H as <-. constructor.
  - destruct items as [[| | | |l|]|]; try discriminate.
    destruct (normalizeItems prefix 0 l) as [e|found]; [discriminate|].
    intros H. injection H as <-.
    apply Forall_forall. intros it Hit. apply list_elem_of_In, filter_In in Hit.
    destruct Hit as [_ Hne]. intros Heq. rewrite Heq in Hne. discriminate.
Qed.

(** X5. A parsed review holds no issue without a summary: every blocker
    and every warning that [parseReviewSummary] returns has a summary that
    is not empty. *)
Theorem parseReviewSummary_issues_have_summaries (text : string) (r : ReviewSummary) :
  parseReviewSummary text = inr (Some r) ->
  Forall (fun it => ri_summary it <> "") (blockers r) /\
  Forall (fun it => ri_summary it <> "") (warnings r).
Proof.
  unfold parseReviewSummary.
  destruct (negb (Json.truthy (extractJson text))); [discriminate|].
  destruct (normalize (Json.getProp (extractJson text) "blockers") "B") as [e|bs] eqn:Hb;
    [discriminate|].
  destruct (normalize (Json.getProp (extractJson text) "warnings") "W") as [e|ws] eqn:Hw;
    [discriminate|].
  destruct (optToString _) as [e|n]; [discriminate|].
  intros H. injection H as <-. cbn [blockers warnings].
  split; eapply normalize_summaries; eassumption.
Qed.

(** X6. A review whose [blockers] or [warnings] field is present, not
    null and not an array is no soft failure: [parseReviewSummary] raises
    a type error instead of returning null. *)
Theorem parseReviewSummary_rejects_non_arrays (text : string) (field : string) (v : json) :
  Json.truthy (extractJson text) = true ->
  (field = "blockers" \/
   field = "warnings" /\
   exists bs, normalize (Json.getProp (extractJson text) "blockers") "B" = inr bs) ->
  Json.getProp (extractJson text) field = Some v ->
  v <> JNull -> (forall l, v <> JArr l) ->
  parseReviewSummary text = inl (TypeError "map is not a function").
Proof.
  intros Ht Hfield Hv Hnull Harr.
  assert (Hn : forall prefix,
             normalize (Some v) prefix = inl (TypeError "map is not a function")).
  { intros prefix. unfold normalize.
    destruct v as [| | | |l|]; try reflexivity; [contradiction | destruct (Harr l eq_refl)]. }
  unfold parseReviewSummary. rewrite Ht. cbn [negb].
  destruct Hfield as [->|[-> [bs Hbs]]].
  - rewrite Hv, Hn. reflexivity.
  - rewrite Hbs, Hv, Hn. reflexivity.
Qed.

(** *** Writing and reading back *)

Lemma mkdirp_fold (p : path) (l : list path) : forall fs : FS,
  (forall q c, In q l -> fs !! q <> Some (File c)) ->
  exists fs',
    fold_left
      (fun acc q =>
         match acc with
         | inl e => inl e
         | inr fs =>
             match fs !! q with
             | Some Dir => inr fs
             | Some (File _) =>
                 inl (FsError (if decide (q = p) then "EEXIST" else "ENOTDIR") q)
             | None => inr (<[q := Dir]> fs)
             end
         end) l (inr fs) = inr fs' /\
    (forall q, In q l -> fs' !! q = Some Dir) /\
    (forall q, ~ In q l -> fs' !! q = fs !! q).
Proof.
  induction l as [|q0 l IH]; intros fs Hfiles.
  - exists fs. split; [reflexivity|]. split; [intros q []|reflexivity].
  - cbn [fold_left].
    destruct (fs !! q0) as [[c|]|] eqn:E0.
    + exfalso. apply (Hfiles q0 c); [left; reflexivity | exact E0].
    + destruct (IH fs) as (fs' & Hrun & Hin & Hout).
      { intros q c Hq. apply Hfiles. right. exact Hq. }
      exists fs'. split; [exact Hrun|]. split.
      * intros q [<-|Hq]; [|apply Hin; exact Hq].
        destruct (in_dec (fun a b : path => decide (a = b)) q0 l) as [Hl|Hl];
          [apply Hin; exact Hl | rewrite (Hout _ Hl); exact E0].
      * intros q Hq. apply Hout. intros Hl. apply Hq. right. exact Hl.
    + destruct (IH (<[q0 := Dir]> fs)) as (fs' & Hrun & Hin & Hout).
      { intros q c Hq. destruct (decide (q = q0)) as [->|Hne].
        - rewrite lookup_insert_eq. discriminate.
        - rewrite lookup_insert_ne by congruence. apply Hfiles. right. exact Hq. }
      exists fs'. split; [exact Hrun|]. split.
      * intros q [<-|Hq]; [|apply Hin; exact Hq].
        destruct (in_dec (fun a b : path => decide (a = b)) q0 l) as [Hl|Hl];
          [apply Hin; exact Hl | rewrite (Hout _ Hl); apply lookup_insert_eq].
      * intros q Hq. rewrite Hout by (intros Hl; apply Hq; right; exact Hl).
        apply lookup_insert_ne. intros ->. apply Hq. left. reflexivity.
Qed.

(** [mkdir -p] succeeds unless a component is a regular file; it makes
    every component a directory and touches nothing else. *)
Lemma mkdirp_spec (fs : FS) (p : path) :
  (forall q c, In q (Fs.prefixes p) -> fs !! q <> Some (File c)) ->
  exists fs',
    Fs.mkdirp fs p = inr fs' /\
    (forall q, In q (Fs.prefixes p) -> fs' !! q = Some Dir) /\
    (forall q, ~ In q (Fs.prefixes p) -> fs' !! q = fs !! q).
Proof. apply mkdirp_fold. Qed.

Lemma prefixes_length (p q : path) : In q (Fs.prefixes p) -> (length q <= length p)%nat.
Proof.
  revert q. induction p as [|x p IH]; intros q Hq; [destruct Hq|].
  cbn [Fs.prefixes] in Hq. destruct Hq as [<-|Hq]; [simpl; lia|].
  apply in_map_iff in Hq. destruct Hq as (q' & <- & Hq'). specialize (IH _ Hq').
  simpl. lia.
Qed.

Lemma prefixes_self (p : path) : p <> [] -> In p (Fs.prefixes p).
Proof.
  induction p as [|x p IH]; [contradiction|]. intros _.
  cbn [Fs.prefixes]. destruct p as [|y p]; [left; reflexivity|].
  right. apply in_map. apply IH. discriminate.
Qed.

Lemma dirname_length (p : path) : p <> [] -> (length (dirname p) < length p)%nat.
Proof.
  intros Hp. destruct (exists_last Hp) as (d & x & ->).
  rewrite dirname_snoc, length_app. simpl. lia.
Qed.

(** X7. [writeText] creates the missing directories above the file: unless
    a component of the directory path is a regular file or the target is
    a directory, it succeeds, [readText] then gives the content back, and
    in the file system only the file and the directories above it have
    changed. *)
Theorem writeText_then_readText (p : path) (content : string) (w : World) :
  p <> [] ->
  (forall q c, In q (Fs.prefixes (dirname p)) -> w_fs w !! q <> Some (File c)) ->
  w_fs w !! p <> Some Dir ->
  exists w',
    writeText p content w = (Ok tt, w') /\
    readText p w' = (Ok (Some content), w') /\
    (forall q, In q (Fs.prefixes (dirname p)) -> w_fs w' !! q = Some Dir) /\
    (forall q, q <> p -> ~ In q (Fs.prefixes (dirname p)) -> w_fs w' !! q = w_fs w !! q) /\
    w_trace w' = w_trace w ++ [EMkdir (dirname p); EWrite p content].
Proof.
  intros Hp Hfiles Hnot.
  destruct (mkdirp_spec (w_fs w) (dirname p) Hfiles) as (fs1 & Hmk & Hin & Hout).
  assert (Hpout : ~ In p (Fs.prefixes (dirname p))).
  { intros Hq. apply prefixes_length in Hq. pose proof (dirname_length p Hp). lia. }
  assert (Hdir : Fs.isDir fs1 (dirname p) = true).
  { unfold Fs.isDir. destruct (dirname p) as [|x d] eqn:Ed; [reflexivity|].
    rewrite (Hin (x :: d)); [reflexivity|]. rewrite <- Ed in *.
    apply prefixes_self. rewrite Ed. discriminate. }
  assert (Hwrite : Fs.writeFile fs1 p content = inr (<[p := File content]> fs1)).
  { unfold Fs.writeFile. rewrite (Hout p Hpout), Hdir.
    rewrite bool_decide_eq_false_2 by exact Hp. cbn [negb andb].
    destruct (w_fs w !! p) as [[c|]|]; try reflexivity. contradiction. }
  eexists. split.
  - unfold writeText, ensureDir, bind, trace, liftFs. cbn [w_fs w_ext w_trace].
    rewrite Hmk. cbn [w_fs w_ext w_trace]. rewrite Hwrite. reflexivity.
  - cbn [w_fs w_trace]. split; [|split; [|split]].
    + apply readText_file. cbn [w_fs]. apply lookup_insert_eq.
    + intros q Hq. rewrite lookup_insert_ne; [apply Hin; exact Hq|].
      intros ->. contradiction.
    + intros q Hne Hq. rewrite lookup_insert_ne by congruence. apply Hout. exact Hq.
    + rewrite <- app_assoc. reflexivity.
Qed.

(** X8. When an agent call with an output path returns, the output file
    holds exactly the standard output that the call returns, whatever the
    agent's exit code: reading the file gives that text. *)
Theorem runAgentPhase_output_file (a : AgentName) (ac : AgentConfig) (ph pr : string)
    (cwd out logDir : path) (ctx : RunContext) (v : option string)
    (caps : option (list string)) (t : option Z) (w w' : World) (result : RunResult) :
  runAgentPhase a ac ph pr cwd (Some out) logDir ctx v caps t w = (Ok result, w') ->
  readText out w' = (Ok (Some (stdout result)), w') /\
  exists l, w_trace w' = w_trace w ++ l ++ [EMkdir (dirname out); EWrite out (stdout result)].
Proof.
  intros H. unfold runAgentPhase in H.
  inv_bind H. destruct x. apply ensureDir_Ok in Hm.
  inv_bind H. destruct x. apply writeText_Ok in Hm0.
  inv_bind H. pose proof Hm1 as Hrun.
  eapply emits_run in Hrun; [|apply (emits_runCommand (fun _ => True))].
  destruct Hrun as (l & Hl & _).
  inv_bind H. apply ret_Ok in H. destruct H as [<- <-].
  destruct x0. split.
  - apply readText_file. eapply writeText_Ok_file. exact Hm2.
  - apply writeText_Ok in Hm2. rewrite Hl, Hm0, Hm in Hm2.
    match type of Hm2 with
    | _ = (((_ ++ ?a) ++ ?b) ++ ?c) ++ _ => exists (a ++ b ++ c)
    end.
    rewrite Hm2, <- !app_assoc. reflexivity.
Qed.

(** *** Processes *)

Lemma runCommand_started (o : RunOptions) (w : World) :
  ro_stdoutPath o = None -> ro_stderrPath o = None ->
  runCommand o w =
    match started o w with
    | (inl msg, w1) => (Throw (SpawnError msg), w1)
    | (inr pe, w1) =>
        (Ok {| exitCode := exitOf pe;
               stdout := if ro_captureStdout o then pe_stdout pe else "";
               stderr := if ro_captureStderr o then pe_stderr pe else "";
               timedOut := pe_timedOut pe |}, w1)
    end.
Proof.
  intros Hout Herr. unfold runCommand, started, exitOf, bind, trace, ret, throw.
  rewrite Hout, Herr. cbn [w_fs w_ext w_trace].
  destruct (spawn o (w_fs w) (w_ext w)) as [[[msg|pe] fs'] ext']; [reflexivity|].
  destruct (pe_code pe); reflexivity.
Qed.

Lemma runCommand_simple c args cwd t (w : World) :
  runCommand (simpleCommand c args cwd t) w =
    match started (simpleCommand c args cwd t) w with
    | (inl msg, w1) => (Throw (SpawnError msg), w1)
    | (inr pe, w1) =>
        (Ok {| exitCode := exitOf pe; stdout := pe_stdout pe; stderr := pe_stderr pe;
               timedOut := pe_timedOut pe |}, w1)
    end.
Proof. apply runCommand_started; reflexivity. Qed.

(** X9. A process that ran is never an exception for [runCommand],
    whatever its exit code: the call returns the code, 124 when the
    timeout killed the process, and 0 when another signal did; it throws
    only when the process could not start.  Without log paths it changes
    nothing itself. *)
Theorem runCommand_exit_codes (o : RunOptions) (w : World) :
  ro_stdoutPath o = None -> ro_stderrPath o = None ->
  match started o w with
  | (inl msg, w1) => runCommand o w = (Throw (SpawnError msg), w1)
  | (inr pe, w1) =>
      exists r,
        runCommand o w = (Ok r, w1) /\
        timedOut r = pe_timedOut pe /\
        (forall c, pe_code pe = Some c -> exitCode r = c) /\
        (pe_code pe = None -> exitCode r = if pe_timedOut pe then 124 else 0) /\
        stdout r = (if ro_captureStdout o then pe_stdout pe else "") /\
        stderr r = (if ro_captureStderr o then pe_stderr pe else "")
  end.
Proof.
  intros Hout Herr. rewrite (runCommand_started o w Hout Herr).
  destruct (started o w) as [[msg|pe] w1]; [reflexivity|].
  eexists. split; [reflexivity|]. cbn [exitCode stdout stderr timedOut]. unfold exitOf.
  split; [reflexivity|]. split; [intros c ->; reflexivity|].
  split; [intros ->; reflexivity|]. split; reflexivity.
Qed.

(** X10. [gitDiff] asks for the diff against HEAD and falls back to the
    plain diff only when that fails: it returns the output of the first
    of the two that exits with 0, throws [git diff failed] with the
    second's error output when both fail, and starts no third process. *)
Theorem gitDiff_fallback (worktreePath : path) (w : World) :
  let first :=
    simpleCommand "git" ["-C"; showPath worktreePath; "diff"; "HEAD"] worktreePath None in
  let second :=
    simpleCommand "git" ["-C"; showPath worktreePath; "diff"] worktreePath None in
  match started first w with
  | (inl msg, w1) => gitDiff worktreePath w = (Throw (SpawnError msg), w1)
  | (inr pe1, w1) =>
      if exitOf pe1 =? 0 then gitDiff worktreePath w = (Ok (pe_stdout pe1), w1)
      else
        match started second w1 with
        | (inl msg, w2) => gitDiff worktreePath w = (Throw (SpawnError msg), w2)
        | (inr pe2, w2) =>
            gitDiff worktreePath w =
              (if exitOf pe2 =? 0 then Ok (pe_stdout pe2)
               else Throw (Error ("git diff failed: " +:+ pe_stderr pe2)), w2)
        end
  end.
Proof.
  intros first second. subst first second. unfold gitDiff, bind.
  rewrite runCommand_simple.
  destruct (started _ w) as [[msg|pe1] w1]; [reflexivity|].
  cbn [exitCode stdout stderr].
  destruct (exitOf pe1 =? 0) eqn:E1; cbn [negb].
  - unfold ret. cbn [exitCode stdout]. rewrite E1. reflexivity.
  - rewrite runCommand_simple.
    destruct (started _ w1) as [[msg|pe2] w2]; [reflexivity|].
    cbn [exitCode stdout stderr].
    destruct (exitOf pe2 =? 0); reflexivity.
Qed.

(** X11. For the directory diff an exit code of 1 is a result like 0
    (differences found): [diffDirs] returns the output; any other code
    throws [diff failed] with the error output. *)
Theorem diffDirs_exit_codes (rootDir worktreeDir : path) (w : World) :
  let command :=
    simpleCommand "diff"
      ("-ruN" :: diffExcludes ++ [showPath rootDir; showPath worktreeDir]) rootDir None in
  match started command w with
  | (inl msg, w1) => diffDirs rootDir worktreeDir w = (Throw (SpawnError msg), w1)
  | (inr pe, w1) =>
      diffDirs rootDir worktreeDir w =
        (if (exitOf pe =? 0) || (exitOf pe =? 1) then Ok (pe_stdout pe)
         else Throw (Error ("diff failed: " +:+ pe_stderr pe)), w1)
  end.
Proof.
  intros command. subst command. unfold diffDirs, bind. rewrite runCommand_simple.
  destruct (started _ w) as [[msg|pe] w1]; [reflexivity|].
  cbn [exitCode stdout stderr].
  destruct (exitOf pe =? 0), (exitOf pe =? 1); reflexivity.
Qed.

(** X12. [isGitRepo] never throws: a git that cannot start, a non-zero
    exit or any other answer than [true] all mean that the directory is
    no repository. *)
Theorem isGitRepo_never_throws (rootDir : path) (w : World) :
  let command :=
    simpleCommand "git" ["rev-parse"; "--is-inside-work-tree"] rootDir None in
  isGitRepo rootDir w =
    (Ok match fst (started command w) with
        | inl _ => false
        | inr pe => (exitOf pe =? 0) && String.eqb (JS.trim (pe_stdout pe)) "true"
        end,
     snd (started command w)).
Proof.
  intros command. subst command. unfold isGitRepo, catch, bind.
  rewrite runCommand_simple.
  destruct (started _ w) as [[msg|pe] w1]; reflexivity.
Qed.

(** *** gitStatusFiles *)

Lemma rev_app_append (a b c : string) :
  String.rev_app a (b +:+ c) = String.rev_app a b +:+ c.
Proof.
  revert b. induction a as [|x a IH]; intros b; [reflexivity|].
  cbn [String.rev_app]. change (String x (b +:+ c)) with (String x b +:+ c). apply IH.
Qed.

Lemma rev_cons (x : ascii) (s : string) : String.rev (String x s) = String.rev s +:+ String x "".
Proof. unfold String.rev. cbn [String.rev_app]. apply (rev_app_append s "" (String x "")). Qed.

Lemma rev_snoc (s : string) (c : ascii) :
  String.rev (s +:+ String c "") = String c (String.rev s).
Proof.
  induction s as [|x s IH]; [reflexivity|].
  change (String x s +:+ String c "") with (String x (s +:+ String c "")).
  rewrite !rev_cons, IH. reflexivity.
Qed.

Lemma rev_involutive (s : string) : String.rev (String.rev s) = s.
Proof.
  induction s as [|x s IH]; [reflexivity|].
  rewrite rev_cons, rev_snoc, IH. reflexivity.
Qed.

Lemma trimEnd_stable (s : string) (c : ascii) :
  JS.isSpace c = false -> JS.trimEnd (s +:+ String c "") = s +:+ String c "".
Proof.
  intros Hc. unfold JS.trimEnd. rewrite rev_snoc. cbn [JS.trimStart]. rewrite Hc.
  rewrite rev_cons, rev_involutive. reflexivity.
Qed.

Lemma statusEntry_lines (l : list string) :
  List.map (JS.drop 3) (List.filter JS.nonEmpty (List.map JS.trim l)) =
  List.map statusEntry (List.filter (fun line => JS.nonEmpty (JS.trim line)) l).
Proof.
  induction l as [|x l IH]; [reflexivity|].
  cbn [List.map List.filter]. destruct (JS.nonEmpty (JS.trim x)); cbn [List.map];
    rewrite IH; reflexivity.
Qed.

(** X13. [gitStatusFiles] gives no file on a non-zero exit and else one
    entry for every line of the status that is not blank: the line
    trimmed, then cut by three characters.  So a line whose first column
    is set gives the path, and a line whose first column is blank, as for
    a change that is not staged, gives the path without its first
    character. *)
Theorem gitStatusFiles_entries (worktreePath : path) (w : World) :
  let command :=
    simpleCommand "git" ["-C"; showPath worktreePath; "status"; "--porcelain"]
      worktreePath None in
  match started command w with
  | (inl msg, w1) => gitStatusFiles worktreePath w = (Throw (SpawnError msg), w1)
  | (inr pe, w1) =>
      gitStatusFiles worktreePath w =
        (Ok (if exitOf pe =? 0
             then List.map statusEntry
                    (List.filter (fun line => JS.nonEmpty (JS.trim line))
                       (JS.splitOn JS.LF (pe_stdout pe)))
             else []), w1)
  end /\
  forall (x y c : ascii) (body : string),
    let name := body +:+ String c "" in
    JS.isSpace c = false ->
    (JS.isSpace x = false ->
     statusEntry (String x (String y (String " " name))) = name) /\
    (JS.isSpace y = false ->
     statusEntry (String " " (String y (String " " name))) = JS.drop 1 name).
Proof.
  intros command. split.
  - subst command. unfold gitStatusFiles, bind. rewrite runCommand_simple.
    destruct (started _ w) as [[msg|pe] w1]; [reflexivity|].
    cbn [exitCode stdout]. destruct (exitOf pe =? 0); cbn [negb]; [|reflexivity].
    unfold ret. rewrite statusEntry_lines. reflexivity.
  - intros x y c body name Hc. unfold statusEntry, JS.trim. split.
    + intros Hx. cbn [JS.trimStart]. rewrite Hx.
      change (String x (String y (String " " name)))
        with (String x (String y (String " " body)) +:+ String c "").
      rewrite (trimEnd_stable _ c Hc). reflexivity.
    + intros Hy. cbn [JS.trimStart]. change (JS.isSpace " ") with true. cbv iota.
      rewrite Hy.
      change (String y (String " " name))
        with (String y (String " " body) +:+ String c "").
      rewrite (trimEnd_stable _ c Hc). reflexivity.
Qed.

(** *** Files that a computation leaves alone *)

Lemma keepsFile_ret {X} (q : path) (x : X) : keepsFile q (ret x).
Proof. intros w c H. exact H. Qed.

Lemma keepsFile_throw {X} (q : path) e : keepsFile q (@throw X e).
Proof. intros w c H. exact H. Qed.

Lemma keepsFile_bind {X Y} (q : path) (m : M X) (k : X -> M Y) :
  keepsFile q m -> (forall x, keepsFile q (k x)) -> keepsFile q (bind m k).
Proof.
  intros Hm Hk w c H. unfold bind. specialize (Hm w c H).
  destruct (m w) as [[x|e|] w1]; cbn [snd] in *; [|exact Hm|exact Hm].
  apply Hk. exact Hm.
Qed.

Lemma keepsFile_unchanged {X} (q : path) (m : M X) :
  (forall w, w_fs (snd (m w)) = w_fs w) -> keepsFile q m.
Proof. intros Hfs w c H. rewrite Hfs. exact H. Qed.

Lemma keepsFile_trace (q : path) e : keepsFile q (trace e).
Proof. apply keepsFile_unchanged. reflexivity. Qed.

Lemma keepsFile_clock (q : path) : keepsFile q clock.
Proof.
  apply keepsFile_unchanged. intros w. unfold clock. destruct (now (w_ext w)). reflexivity.
Qed.

Lemma keepsFile_existsSync (q : path) p : keepsFile q (existsSync p).
Proof. apply keepsFile_unchanged. reflexivity. Qed.

Lemma keepsFile_liftRead {X} (q : path) (f : FS -> exn + X) : keepsFile q (liftRead f).
Proof.
  apply keepsFile_unchanged. intros w. unfold liftRead. destruct (f (w_fs w)); reflexivity.
Qed.

Lemma keepsFile_liftFs (q : path) (f : FS -> exn + FS) :
  (forall fs fs' c, f fs = inr fs' -> fs !! q = Some (File c) -> fs' !! q = Some (File c)) ->
  keepsFile q (liftFs f).
Proof.
  intros Hf w c H. unfold liftFs. destruct (f (w_fs w)) as [e|fs'] eqn:E; [exact H|].
  cbn [snd w_fs]. eapply Hf; eassumption.
Qed.

Lemma mkdirp_keeps (p : path) (l : list path) (q : path) (n : node) : forall fs fs' : FS,
  fold_left
    (fun acc q =>
       match acc with
       | inl e => inl e
       | inr fs =>
           match fs !! q with
           | Some Dir => inr fs
           | Some (File _) =>
               inl (FsError (if decide (q = p) then "EEXIST" else "ENOTDIR") q)
           | None => inr (<[q := Dir]> fs)
           end
       end) l (inr fs) = inr fs' ->
  fs !! q = Some n -> fs' !! q = Some n.
Proof.
  induction l as [|q0 l IH]; intros fs fs' H Hq.
  - injection H as <-. exact Hq.
  - cbn [fold_left] in H. destruct (fs !! q0) as [[c|]|] eqn:E0.
    + exfalso. clear -H. induction l as [|x l IHl]; [discriminate|]. exact (IHl H).
    + eapply IH; eassumption.
    + eapply IH; [exact H|]. rewrite lookup_insert_ne; [exact Hq|].
      intros ->. congruence.
Qed.

Lemma keepsFile_ensureDir (q : path) p : keepsFile q (ensureDir p).
Proof.
  unfold ensureDir. apply keepsFile_bind; [apply keepsFile_trace | intros _].
  apply keepsFile_liftFs. intros fs fs' c H Hq. unfold Fs.mkdirp in H.
  eapply mkdirp_keeps; eassumption.
Qed.

Lemma writeFile_other fs p content fs' (q : path) :
  p <> q -> Fs.writeFile fs p content = inr fs' -> fs' !! q = fs !! q.
Proof.
  intros Hne H. unfold Fs.writeFile in H.
  destruct (fs !! p) as [[c|]|]; try discriminate;
    destruct (_ && _); try discriminate; injection H as <-;
    apply lookup_insert_ne; exact Hne.
Qed.

Lemma appendFile_other fs p content fs' (q : path) :
  p <> q -> Fs.appendFile fs p content = inr fs' -> fs' !! q = fs !! q.
Proof.
  intros Hne H. unfold Fs.appendFile in H.
  destruct (fs !! p) as [[c|]|]; try discriminate.
  - injection H as <-. apply lookup_insert_ne; exact Hne.
  - destruct (_ && _); try discriminate. injection H as <-.
    apply lookup_insert_ne; exact Hne.
Qed.

Lemma keepsFile_writeText (q : path) p content : p <> q -> keepsFile q (writeText p content).
Proof.
  intros Hne. unfold writeText.
  apply keepsFile_bind; [apply keepsFile_ensureDir | intros _].
  apply keepsFile_bind; [apply keepsFile_trace | intros _].
  apply keepsFile_liftFs. intros fs fs' c H Hq.
  rewrite (writeFile_other _ _ _ _ q Hne H). exact Hq.
Qed.

Lemma keepsFile_appendFileSync (q : path) p content : p <> q -> keepsFile q (appendFileSync p content).
Proof.
  intros Hne. unfold appendFileSync.
  apply keepsFile_bind; [apply keepsFile_trace | intros _].
  apply keepsFile_liftFs. intros fs fs' c H Hq.
  rewrite (appendFile_other _ _ _ _ q Hne H). exact Hq.
Qed.

Lemma keepsFile_stdoutWrite (q : path) t : keepsFile q (stdoutWrite t).
Proof. apply keepsFile_trace. Qed.

Lemma keepsFile_readText (q : path) p : keepsFile q (readText p).
Proof.
  unfold readText. apply keepsFile_bind; [apply keepsFile_existsSync | intros present].
  destruct (negb present); [apply keepsFile_ret|].
  apply keepsFile_bind; [apply keepsFile_liftRead | intros; apply keepsFile_ret].
Qed.

Lemma keepsFile_appendTranscript (q : path) runDir ph role a kind content round stream :
  runDir ++ ["conversation"; "transcript.jsonl"] <> q ->
  runDir ++ ["conversation"; "transcript.md"] <> q ->
  keepsFile q (appendTranscript runDir ph role a kind content round stream).
Proof.
  intros H1 H2. unfold appendTranscript.
  apply keepsFile_bind; [apply keepsFile_clock | intros stamp].
  apply keepsFile_bind; [apply keepsFile_ensureDir | intros _].
  apply keepsFile_bind.
  { apply keepsFile_appendFileSync. rewrite <- app_assoc. exact H1. }
  intros _. apply keepsFile_bind.
  { apply keepsFile_appendFileSync. rewrite <- app_assoc. exact H2. }
  intros _. apply keepsFile_bind.
  { destruct (ts_jsonl stream); [apply keepsFile_stdoutWrite | apply keepsFile_ret]. }
  intros _. destruct (ts_ui stream); [apply keepsFile_stdoutWrite | apply keepsFile_ret].
Qed.

Lemma keepsFile_run {X} (q : path) (m : M X) w r w' c :
  keepsFile q m -> m w = (r, w') -> w_fs w !! q = Some (File c) ->
  w_fs w' !! q = Some (File c).
Proof. intros Hk Hrun Hq. specialize (Hk w c Hq). rewrite Hrun in Hk. exact Hk. Qed.

Lemma transcript_not_under (runDir : path) (dir name file : string) :
  dir <> "conversation" ->
  runDir ++ ["conversation"; name] <> (runDir ++ [dir]) ++ [file].
Proof.
  intros Hne H. rewrite <- app_assoc in H. apply app_inv_head in H.
  injection H as H _. congruence.
Qed.

(** *** The decision phase: what is decided, what is recorded *)

Lemma runAgentPhase_writes a ac ph pr cwd out logDir ctx v caps t (w w' : World) result :
  runAgentPhase a ac ph pr cwd (Some out) logDir ctx v caps t w = (Ok result, w') ->
  w_fs w' !! out = Some (File (stdout result)).
Proof.
  intros H. unfold runAgentPhase in H.
  inv_bind H. inv_bind H. inv_bind H. inv_bind H.
  apply ret_Ok in H. destruct H as [<- <-]. destruct x2.
  eapply writeText_Ok_file. exact Hm2.
Qed.

Lemma decision_json_not_transcript (A : DecideArgs) (name : string) :
  da_runDir A ++ ["conversation"; name] <> decidePhaseDir A ++ ["decision.json"].
Proof. unfold decidePhaseDir. apply transcript_not_under. discriminate. Qed.

Lemma judged_eq mode agent text :
  judged mode agent text =
    {| d_mode := mode;
       d_winner :=
         if nullish (Json.getProp (extractJson text) "winner") then JStr "neither"
         else Json.getProp (extractJson text) "winner" ?? JNull;
       d_rationale :=
         if nullish (Json.getProp (extractJson text) "rationale")
         then JStr "Judge output was not parseable. Defaulting to neither."
         else Json.getProp (extractJson text) "rationale" ?? JNull;
       d_judgeAgent := Some agent; d_executionDriver := None |}.
Proof.
  unfold judged. cbv zeta.
  destruct (Json.getProp (extractJson text) "winner") as [[]|];
    destruct (Json.getProp (extractJson text) "rationale") as [[]|]; reflexivity.
Qed.

Lemma runJudge_spec (A : DecideArgs) plans (w w' : World) d :
  runJudge A plans w = (Ok d, w') ->
  exists text,
    d = judged (decisionMode A) (dc_judgeAgent (decisionConfig A) ?? codex) text /\
    w_fs w' !! (decidePhaseDir A ++ ["judge.md"]) = Some (File text) /\
    w_fs w' !! (decidePhaseDir A ++ ["decision.json"]) =
      Some (File (JSON_pretty (decisionJson d))).
Proof.
  destruct plans as [[[pc pl] qc] ql]. unfold runJudge. intros H.
  inv_bind H. inv_bind H. rename x0 into judgeResult.
  apply runAgentPhase_writes in Hm0.
  inv_bind H.
  eapply keepsFile_run in Hm0;
    [|apply keepsFile_appendTranscript; apply transcript_not_under; discriminate|exact Hm1].
  inv_bind H. rewrite (readText_file _ _ _ Hm0) in Hm2.
  injection Hm2 as <- <-.
  change (Some (stdout judgeResult) ?? "") with (stdout judgeResult) in H.
  rewrite <- judged_eq in H.
  set (d0 := judged _ _ _) in H.
  inv_bind H. inv_bind H. apply ret_Ok in H. destruct H as [<- <-].
  destruct x1.
  pose proof (writeText_Ok_file _ _ _ _ Hm2) as Hjson.
  eapply keepsFile_run in Hm0;
    [|apply (keepsFile_writeText _ (decidePhaseDir A ++ ["decision.json"]))|exact Hm2].
  2:{ intros Heq. apply app_inv_head in Heq. discriminate. }
  eapply keepsFile_run in Hm0;
    [|apply keepsFile_appendTranscript; apply transcript_not_under; discriminate|exact Hm3].
  eapply keepsFile_run in Hjson;
    [|apply keepsFile_appendTranscript; apply decision_json_not_transcript|exact Hm3].
  exists (stdout judgeResult). auto.
Qed.

Lemma emits_noSpawn_ensureDir p : emits noSpawn (ensureDir p).
Proof. unfold ensureDir. emits_tac. Qed.

Lemma emits_noSpawn_writeText p c : emits noSpawn (writeText p c).
Proof.
  unfold writeText. apply emits_bind; [apply emits_noSpawn_ensureDir | intros].
  emits_tac.
Qed.

Lemma emits_noSpawn_readText p : emits noSpawn (readText p).
Proof. unfold readText. emits_tac. Qed.

Lemma emits_noSpawn_appendTranscript runDir ph role a kind content round stream :
  emits noSpawn (appendTranscript runDir ph role a kind content round stream).
Proof.
  unfold appendTranscript, appendFileSync, stdoutWrite.
  apply emits_bind; [apply emits_clock | intros].
  apply emits_bind; [apply emits_noSpawn_ensureDir | intros].
  emits_tac.
Qed.

Lemma runRuleBased_spec (A : DecideArgs) (w w' : World) d :
  runRuleBased A w = (Ok d, w') ->
  decisionMode A <> judge -> decisionMode A <> debate ->
  d_mode d = decisionMode A /\
  d_winner d = JStr (ruleWinner (decisionMode A)) /\
  w_fs w' !! (decidePhaseDir A ++ ["decision.json"]) =
    Some (File (JSON_pretty (decisionJson d))) /\
  exists l, w_trace w' = w_trace w ++ l /\ Forall noSpawn l.
Proof.
  unfold runRuleBased. intros H Hj Hd.
  set (d0 := {| d_mode := decisionMode A |}) in H.
  inv_bind H. destruct x. inv_bind H. apply ret_Ok in H. destruct H as [<- <-].
  pose proof (writeText_Ok_file _ _ _ _ Hm) as Hjson.
  eapply keepsFile_run in Hjson;
    [|apply keepsFile_appendTranscript; apply decision_json_not_transcript|exact Hm0].
  apply writeText_Ok in Hm.
  eapply emits_run in Hm0; [|apply emits_noSpawn_appendTranscript].
  destruct Hm0 as (l & Hl & HP).
  split; [reflexivity|]. split.
  { subst d0. cbn [d_winner]. unfold ruleWinner.
    destruct (decisionMode A); try reflexivity; contradiction. }
  split; [exact Hjson|].
  eexists. split; [rewrite Hl, Hm, <- app_assoc; reflexivity|].
  constructor; [exact I|]. constructor; [exact I | exact HP].
Qed.

Lemma debateFrom_records (A : DecideArgs) fuel plans outs (w w' : World) d hist :
  debateFrom A fuel plans outs w = (Ok (d, hist), w') ->
  w_fs w' !! (decidePhaseDir A ++ ["decision.json"]) =
    Some (File (JSON_pretty (decisionJson d))).
Proof.
  unfold debateFrom. intros H.
  destruct (consensus (extractJson (fst outs)) (extractJson (snd outs))).
  - inv_bind H. destruct x. apply ret_Ok in H. destruct H as [H <-].
    injection H as <- _. eapply writeText_Ok_file. exact Hm.
  - inv_bind H. inv_bind H. destruct x0. inv_bind H.
    apply ret_Ok in H. destruct H as [H <-]. injection H as <- _.
    pose proof (writeText_Ok_file _ _ _ _ Hm0) as Hjson.
    eapply keepsFile_run in Hjson;
      [|apply keepsFile_appendTranscript; apply decision_json_not_transcript|exact Hm1].
    exact Hjson.
Qed.

(** X14. Whatever the mode, when the decision phase returns a decision,
    [decision.json] in the phase directory holds that very decision. *)
Theorem decision_json_records_decision (A : DecideArgs) (fuel : nat) (w w' : World)
    (log : DecisionLog) :
  runDecision A fuel w = (Ok log, w') ->
  w_fs w' !! (decidePhaseDir A ++ ["decision.json"]) =
    Some (File (JSON_pretty (decisionJson (dl_decision log)))).
Proof.
  unfold runDecision. intros H. inv_bind H. inv_bind H. rename x0 into plans.
  destruct (decisionMode A) eqn:Hmode.
  - inv_bind H. apply ret_Ok in H. destruct H as [<- <-]. cbn [dl_decision].
    apply runJudge_spec in Hm1. destruct Hm1 as (text & _ & _ & Hjson). exact Hjson.
  - inv_bind H. inv_bind H. destruct x1 as [d hist].
    apply ret_Ok in H. destruct H as [<- <-]. cbn [dl_decision fst].
    eapply debateFrom_records. exact Hm2.
  - inv_bind H. apply ret_Ok in H. destruct H as [<- <-]. cbn [dl_decision].
    apply runRuleBased_spec in Hm1; [|rewrite Hmode; discriminate..].
    apply Hm1.
  - inv_bind H. apply ret_Ok in H. destruct H as [<- <-]. cbn [dl_decision].
    apply runRuleBased_spec in Hm1; [|rewrite Hmode; discriminate..].
    apply Hm1.
  - inv_bind H. apply ret_Ok in H. destruct H as [<- <-]. cbn [dl_decision].
    apply runRuleBased_spec in Hm1; [|rewrite Hmode; discriminate..].
    apply Hm1.
Qed.

(** X15. A rule-based mode decides without any agent: the phase needs no
    fuel, starts no process, and the winner is the one the mode names
    ([neither] for the mode [neither]). *)
Theorem rule_based_decision (A : DecideArgs) (fuel : nat) (w : World) :
  decisionMode A <> judge -> decisionMode A <> debate ->
  fst (runDecision A fuel w) <> OutOfFuel /\
  forall log w',
    runDecision A fuel w = (Ok log, w') ->
    d_mode (dl_decision log) = decisionMode A /\
    d_winner (dl_decision log) = JStr (ruleWinner (decisionMode A)) /\
    dl_history log = [] /\
    exists l, w_trace w' = w_trace w ++ l /\ Forall noSpawn l.
Proof.
  intros Hj Hd. split.
  - unfold runDecision.
    apply total_bind; [apply total_ensureDir | intros].
    apply total_bind; [unfold readPlans; total_tac | intros plans].
    destruct (decisionMode A); try congruence; unfold runRuleBased; total_tac.
  - intros log w' H. unfold runDecision in H.
    inv_bind H. destruct x. apply ensureDir_Ok in Hm.
    inv_bind H. rename x into plans.
    eapply emits_run in Hm0.
    2:{ unfold readPlans.
        repeat (apply emits_bind; [apply emits_noSpawn_readText | intros]).
        apply emits_ret. }
    destruct Hm0 as (l0 & Hl0 & HP0).
    assert (Hrule : exists d w2, runRuleBased A w1 = (Ok d, w2) /\
                      ret {| dl_decision := d; dl_initial := None; dl_history := [] |} w2
                        = (Ok log, w')).
    { destruct (decisionMode A); try congruence; inv_bind H; eauto. }
    destruct Hrule as (d & w2 & Hrun & Hret).
    apply ret_Ok in Hret. destruct Hret as [<- <-]. cbn [dl_decision dl_history].
    apply runRuleBased_spec in Hrun; [|assumption..].
    destruct Hrun as (Hmode & Hwin & _ & l1 & Hl1 & HP1).
    split; [exact Hmode|]. split; [exact Hwin|]. split; [reflexivity|].
    eexists. split; [rewrite Hl1, Hl0, Hm, <- !app_assoc; reflexivity|].
    constructor; [exact I|]. apply Forall_app. auto.
Qed.

(** X16. A judge whose output gives no winner is no failure: the decision
    is read off what the judge's call wrote to [judge.md], the winner is
    [neither] and the rationale says that the output was not parseable
    whenever that text holds no winner or no rationale; the decision
    names the configured judge, codex by default. *)
Theorem judge_decision_defaults (A : DecideArgs) (fuel : nat) (w w' : World)
    (log : DecisionLog) :
  decisionMode A = judge ->
  runDecision A fuel w = (Ok log, w') ->
  exists text,
    w_fs w' !! (decidePhaseDir A ++ ["judge.md"]) = Some (File text) /\
    dl_decision log =
      judged judge (dc_judgeAgent (decisionConfig A) ?? codex) text /\
    (nullish (Json.getProp (extractJson text) "winner") = true ->
     d_winner (dl_decision log) = JStr "neither") /\
    (nullish (Json.getProp (extractJson text) "rationale") = true ->
     d_rationale (dl_decision log) =
       JStr "Judge output was not parseable. Defaulting to neither.") /\
    d_winner (dl_decision log) <> JNull /\
    d_rationale (dl_decision log) <> JNull.
Proof.
  intros Hmode H. unfold runDecision in H. rewrite Hmode in H.
  inv_bind H. inv_bind H. inv_bind H. apply ret_Ok in H. destruct H as [<- <-].
  cbn [dl_decision].
  apply runJudge_spec in Hm1. destruct Hm1 as (text & -> & Hfile & _).
  rewrite Hmode. exists text. split; [exact Hfile|]. split; [reflexivity|].
  unfold judged. cbv zeta. cbn [d_winner d_rationale].
  destruct (Json.getProp (extractJson text) "winner") as [[]|];
    destruct (Json.getProp (extractJson text) "rationale") as [[]|];
    cbn [nullish]; repeat split; intros; try reflexivity; try discriminate.
Qed.

(** *** The joint loop: patches and tests *)

Lemma jointRound_facts A round st (w w' : World) step :
  jointRound A round st w = (Ok step, w') ->
  exists r, js_history (stepState step) = js_history st ++ [r] /\ roundFacts A r.
Proof.
  unfold jointRound. intros H. cbv zeta in H.
  do 10 skip_bind H.
  inv_bind H. rename x9 into testExit1. rename Hm into Htest1.
  do 6 skip_bind H.
  inv_bind H. rename Hm into Happlied.
  inv_bind H. rename Hm into Htest2.
  apply jointRoundEnd_spec in H. destruct H as (Hh & _ & _).
  eexists. split; [exact Hh|].
  unfold roundFacts. cbn [jr_applied jr_navigatorPatch jr_testExit].
  split; [|split].
  - intros Hmanual. rewrite Hmanual in Happlied.
    apply ret_Ok in Happlied. destruct Happlied as [<- _]. reflexivity.
  - intros Hempty. destruct (applyNavigatorPatch A).
    + rewrite Hempty in Happlied. apply ret_Ok in Happlied.
      destruct Happlied as [<- _]. reflexivity.
    + apply ret_Ok in Happlied. destruct Happlied as [<- _]. reflexivity.
  - destruct (testsDuringLoop A && testsEnabled (pa_config A)).
    + inv_bind Htest2. inv_bind Htest2. apply ret_Ok in Htest2.
      destruct Htest2 as [<- _]. split; discriminate.
    + apply ret_Ok in Htest1. destruct Htest1 as [<- _].
      apply ret_Ok in Htest2. destruct Htest2 as [<- _]. split; reflexivity.
Qed.

Lemma jointLoop_facts A fuel : forall round st (w w' : World) st',
  forRounds fuel round (jointMaxRounds A) (jointRound A) st w = (Ok st', w') ->
  exists h, js_history st' = js_history st ++ h /\ Forall (roundFacts A) h.
Proof.
  induction fuel as [|fuel IH]; intros round st w w' st' H; cbn [forRounds] in H.
  - destruct (round <=? jointMaxRounds A); [discriminate|].
    apply ret_Ok in H. destruct H as [<- _]. exists []. rewrite app_nil_r. auto.
  - destruct (round <=? jointMaxRounds A).
    2:{ apply ret_Ok in H. destruct H as [<- _]. exists []. rewrite app_nil_r. auto. }
    inv_bind H. apply jointRound_facts in Hm. destruct Hm as (r & Hh & Hr).
    destruct x as [s1|s1]; cbn [stepState] in Hh.
    + apply IH in H. destruct H as (h & Hh' & Hall).
      exists (r :: h). split; [rewrite Hh', Hh, <- app_assoc; reflexivity|].
      constructor; assumption.
    + apply ret_Ok in H. destruct H as [<- _]. exists [r]. split; [exact Hh|].
      constructor; [exact Hr | constructor].
Qed.

(** X17. In the joint loop the navigator's patch is applied only in the
    automatic mode and only when it is not empty; the tests leave an exit
    code in a round exactly when they are enabled and asked for during the
    loop.  In the manual mode nothing is ever applied, and a round whose
    navigator patch is not empty is therefore the last one. *)
Theorem joint_rounds_patches_and_tests (A : PhaseArgs) (fuel : nat) (w w' : World)
    (st : JointState) :
  runJoint A fuel w = (Ok st, w') ->
  (forall r, In r (js_history st) ->
     (patchNonEmpty (jr_navigatorPatch r) = false -> jr_applied r = false) /\
     (jr_testExit r = None <->
      testsDuringLoop A && testsEnabled (pa_config A) = false)) /\
  (applyNavigatorPatch A = apply_manual ->
   forall i r, js_history st !! i = Some r ->
     jr_applied r = false /\
     (patchNonEmpty (jr_navigatorPatch r) = true -> length (js_history st) = S i)).
Proof.
  intros H. pose proof (runJoint_run _ _ _ _ _ H) as (d0 & _ & Hrun & _).
  unfold runJoint in H. inv_bind H. rename x into st0.
  apply jointStart_spec in Hm. destruct Hm as (_ & _ & Hh0).
  inv_bind H. inv_bind H. apply ret_Ok in H. destruct H as [<- _].
  apply jointLoop_facts in Hm. destruct Hm as (h & Hh & Hall).
  rewrite Hh0 in Hh. cbn [app] in Hh. rewrite <- Hh in Hall.
  rewrite List.Forall_forall in Hall. split.
  - intros r Hr. destruct (Hall r Hr) as (_ & Hempty & Htests). split; assumption.
  - intros Hmanual i r Hi.
    assert (Hr : In r (js_history x)) by (eapply lookup_In; exact Hi).
    destruct (Hall r Hr) as (Hnever & _ & _). specialize (Hnever Hmanual).
    split; [exact Hnever|]. intros Hpatch.
    destruct (JointRun_facts _ _ _ _ _ _ Hrun eq_refl) as [Hfacts _].
    destruct (Hfacts i r Hi) as (_ & _ & _ & Hlast). apply Hlast.
    unfold stopsPatchFailed. rewrite Hpatch, Hnever. apply orb_true_r.
Qed.

(** *** The apply step beyond the guardrails *)

(** X18. With no guardrails in force and no tests to run, the apply step
    under git starts [git apply] on the final patch once and writes what
    it printed to the apply log; the exit code of [git apply] is not
    looked at, so a patch that git refuses is no error of the step. *)
Theorem applyWinnerPatch_git_ignores_exit (rootDir runDir src : path) (d : Decision)
    (config : Config) (w : World) :
  match guardrails config with Some g => isTrue (g_enabled g) | None => false end = false ->
  match implementationMode config with
  | joint => True
  | parallel => winnerIsNeither d = false
  end ->
  sourceWorktreeOf rootDir runDir d config = inr src ->
  Fs.existsSync (w_fs w) (runDir ++ ["final"; "final.patch"]) = true ->
  testsEnabled config = false ->
  let command :=
    simpleCommand "git" ["apply"; showPath (runDir ++ ["final"; "final.patch"])]
      rootDir None in
  match started command w with
  | (inl msg, w1) =>
      applyWinnerPatch rootDir runDir d true config w = (Throw (SpawnError msg), w1)
  | (inr pe, w1) =>
      applyWinnerPatch rootDir runDir d true config w =
        writeText (runDir ++ ["final"; "apply.log"]) (pe_stdout pe +:+ pe_stderr pe) w1
  end.
Proof.
  intros Hg Hmode Hsrc Hpatch Htests command. subst command.
  unfold applyWinnerPatch.
  assert (Hskip : match implementationMode config with
                  | joint => false
                  | parallel => winnerIsNeither d
                  end = false).
  { destruct (implementationMode config); [exact Hmode | reflexivity]. }
  rewrite Hskip, Hsrc, Hg, Htests. cbn [liftExn].
  unfold bind, ret, existsSync. cbv beta iota zeta. rewrite Hpatch.
  cbn [negb]. cbv beta iota zeta. rewrite runCommand_simple.
  destruct (started _ w) as [[msg|pe] w1]; [reflexivity|].
  cbn [stdout stderr]. cbv beta iota zeta.
  destruct (writeText _ _ w1) as [[[]|e|] w2]; reflexivity.
Qed.


(** *** When the convergence runs *)

(** X20. The convergence phase runs rounds only when it is called for:
    with converge or review disabled it does nothing at all, and whenever
    it runs a round, both are enabled, there is a winner or the mode is
    joint, and the reviews on file hold a blocker or the tests run before
    the loop failed. *)
Theorem converge_runs_only_when_needed (A : PhaseArgs) (fuel : nat) (w : World) :
  (convergeEnabled A = false \/ reviewEnabled A = false ->
   runConverge A fuel w = (Ok None, w)) /\
  forall st w',
    runConverge A fuel w = (Ok (Some st), w') ->
    convergeEnabled A = true /\ reviewEnabled A = true /\
    (implementationMode (pa_config A) = parallel -> winnerIsNeither (pa_decision A) = false) /\
    exists cw plan st0 w0,
      convergeSetup A w = (Ok (Some (cw, plan, st0)), w0) /\
      (blockers (cs_finalReview st0) <> [] \/
       exists code, cs_lastTestExit st0 = Some code /\ code <> 0).
Proof.
  split.
  - intros Hoff. unfold runConverge, convergeSetup, bind, ret.
    destruct Hoff as [-> | Hr]; [reflexivity|].
    rewrite Hr. destruct (negb (convergeEnabled A)); reflexivity.
  - intros st w' H. unfold runConverge in H. inv_bind H.
    destruct x as [[[cw plan] st0]|]; [|apply ret_Ok in H; destruct H; discriminate].
    clear H. pose proof Hm as Hsetup. unfold convergeSetup in Hm.
    destruct (convergeEnabled A); cbn [negb] in Hm;
      [|apply ret_Ok in Hm; destruct Hm; discriminate].
    destruct (reviewEnabled A); cbn [negb] in Hm;
      [|apply ret_Ok in Hm; destruct Hm; discriminate].
    split; [reflexivity|]. split; [reflexivity|].
    assert (Hwin : implementationMode (pa_config A) = parallel ->
                   winnerIsNeither (pa_decision A) = false).
    { intros Hp. rewrite Hp in Hm.
      destruct (winnerIsNeither (pa_decision A)); [|reflexivity].
      apply ret_Ok in Hm. destruct Hm. discriminate. }
    split; [exact Hwin|].
    exists cw, plan, st0, w0. split; [exact Hsetup|].
    match type of Hm with
    | (if ?c then _ else _) _ = _ =>
        destruct c; [apply ret_Ok in Hm; destruct Hm; discriminate|]
    end.
    do 2 skip_bind Hm. inv_bind Hm.
    destruct (negb x1); [apply ret_Ok in Hm; destruct Hm; discriminate|].
    do 5 skip_bind Hm. skip_bind Hm.
    match type of Hm with
    | (if negb ?c then _ else _) _ = _ => destruct c eqn:Hneeds; cbn [negb] in Hm
    end; [|apply ret_Ok in Hm; destruct Hm; discriminate].
    apply ret_Ok in Hm. destruct Hm as [Hst _]. injection Hst as _ _ <-.
    cbn [cs_finalReview cs_lastTestExit].
    apply orb_true_iff in Hneeds. destruct Hneeds as [Hb|Ht].
    + left. intros Hnil. rewrite Hnil in Hb. discriminate.
    + right. destruct x7 as [code|]; [|discriminate]. exists code.
      split; [reflexivity|]. apply negb_true_iff, Z.eqb_neq in Ht. exact Ht.
Qed.

(** *** Paths that a computation leaves alone *)

Lemma leaves_ret {X} (q : path) (x : X) : leaves q (ret x).
Proof. intros w. reflexivity. Qed.

Lemma leaves_throw {X} (q : path) e : leaves q (@throw X e).
Proof. intros w. reflexivity. Qed.

Lemma leaves_outOfFuel {X} (q : path) : leaves q (@outOfFuel X).
Proof. intros w. reflexivity. Qed.

Lemma leaves_bind {X Y} (q : path) (m : M X) (k : X -> M Y) :
  leaves q m -> (forall x, leaves q (k x)) -> leaves q (bind m k).
Proof.
  intros Hm Hk w. unfold bind. specialize (Hm w).
  destruct (m w) as [[x|e|] w1]; cbn [snd] in *; [|exact Hm|exact Hm].
  rewrite Hk. exact Hm.
Qed.

Lemma leaves_unchanged {X} (q : path) (m : M X) :
  (forall w, w_fs (snd (m w)) = w_fs w) -> leaves q m.
Proof. intros Hfs w. rewrite Hfs. reflexivity. Qed.

Lemma leaves_trace (q : path) e : leaves q (trace e).
Proof. apply leaves_unchanged. reflexivity. Qed.

Lemma leaves_getFs (q : path) : leaves q getFs.
Proof. apply leaves_unchanged. reflexivity. Qed.

Lemma leaves_liftRead {X} (q : path) (f : FS -> exn + X) : leaves q (liftRead f).
Proof.
  apply leaves_unchanged. intros w. unfold liftRead. destruct (f (w_fs w)); reflexivity.
Qed.

Lemma leaves_liftFs (q : path) (f : FS -> exn + FS) :
  (forall fs fs', f fs = inr fs' -> fs' !! q = fs !! q) -> leaves q (liftFs f).
Proof.
  intros Hf w. unfold liftFs. destruct (f (w_fs w)) as [e|fs'] eqn:E; [reflexivity|].
  cbn [snd w_fs]. eapply Hf. exact E.
Qed.

Lemma leaves_forEach {X} (q : path) (l : list X) (f : X -> M unit) :
  (forall x, In x l -> leaves q (f x)) -> leaves q (forEach l f).
Proof.
  induction l as [|x l IH]; intros Hf; cbn [forEach]; [apply leaves_ret|].
  apply leaves_bind; [apply Hf; left; reflexivity | intros _].
  apply IH. intros y Hy. apply Hf. right. exact Hy.
Qed.

Lemma leaves_run {X} (q : path) (m : M X) w r w' :
  leaves q m -> m w = (r, w') -> w_fs w' !! q = w_fs w !! q.
Proof. intros Hl Hrun. specialize (Hl w). rewrite Hrun in Hl. exact Hl. Qed.

Lemma mkdirp_other (p : path) (l : list path) (q : path) : forall fs fs' : FS,
  fold_left
    (fun acc q =>
       match acc with
       | inl e => inl e
       | inr fs =>
           match fs !! q with
           | Some Dir => inr fs
           | Some (File _) =>
               inl (FsError (if decide (q = p) then "EEXIST" else "ENOTDIR") q)
           | None => inr (<[q := Dir]> fs)
           end
       end) l (inr fs) = inr fs' ->
  ~ In q l -> fs' !! q = fs !! q.
Proof.
  induction l as [|q0 l IH]; intros fs fs' H Hq.
  - injection H as <-. reflexivity.
  - cbn [fold_left] in H.
    assert (Hl : ~ In q l) by (intros Hin; apply Hq; right; exact Hin).
    destruct (fs !! q0) as [[c|]|] eqn:E0.
    + exfalso. clear -H. induction l as [|x l IHl]; [discriminate|]. exact (IHl H).
    + eapply IH; eassumption.
    + rewrite (IH _ _ H Hl). apply lookup_insert_ne. intros ->. apply Hq. left. reflexivity.
Qed.

Lemma leaves_ensureDir (q p : path) : ~ In q (Fs.prefixes p) -> leaves q (ensureDir p).
Proof.
  intros Hq. unfold ensureDir. apply leaves_bind; [apply leaves_trace | intros _].
  apply leaves_liftFs. intros fs fs' H. unfold Fs.mkdirp in H.
  eapply mkdirp_other; eassumption.
Qed.

Lemma below_prefix (p q rel : path) : Fs.below p q = Some rel -> q = p ++ rel.
Proof.
  revert q. induction p as [|x p IH]; intros q H.
  - injection H as <-. reflexivity.
  - destruct q as [|y q]; [discriminate|]. cbn [Fs.below] in H.
    destruct (String.eqb x y) eqn:E; [|discriminate].
    apply String.eqb_eq in E. subst y. cbn [app]. f_equal. apply IH. exact H.
Qed.

Lemma prefixes_app_not (destDir : path) (name : string) (rest : path) :
  ~ In (destDir ++ name :: rest) (Fs.prefixes destDir).
Proof.
  intros H. apply prefixes_length in H. rewrite length_app in H. simpl in H. lia.
Qed.

Lemma cp_fold_other (src dst : path) (keep : path -> bool) (q : path)
    (l : list (path * node)) : forall out fs' : FS,
  fold_left
    (fun acc '(q, n) =>
       match acc with
       | inl e => inl e
       | inr out =>
           match Fs.below src q with
           | Some rel =>
               if forallb keep (List.map (app src) (Fs.prefixes rel)) && keep src
               then
                 match n, out !! (dst ++ rel) with
                 | Dir, Some (File _) =>
                     inl (FsError "ERR_FS_CP_DIR_TO_NON_DIR" (dst ++ rel))
                 | File _, Some Dir =>
                     inl (FsError "ERR_FS_CP_NON_DIR_TO_DIR" (dst ++ rel))
                 | _, _ => inr (<[dst ++ rel := n]> out)
                 end
               else inr out
           | None => inr out
           end
       end) l (inr out) = inr fs' ->
  (forall rel, q = dst ++ rel ->
               forallb keep (List.map (app src) (Fs.prefixes rel)) && keep src = false) ->
  fs' !! q = out !! q.
Proof.
  induction l as [|[p n] l IH]; intros out fs' H Hq.
  - injection H as <-. reflexivity.
  - cbn [fold_left] in H.
    destruct (Fs.below src p) as [rel|] eqn:Eb; [|eapply IH; eassumption].
    destruct (forallb keep (List.map (app src) (Fs.prefixes rel)) && keep src) eqn:Ek;
      [|eapply IH; eassumption].
    assert (Hne : dst ++ rel <> q).
    { intros Heq. symmetry in Heq. rewrite (Hq rel Heq) in Ek. discriminate. }
    destruct n as [c|]; destruct (out !! (dst ++ rel)) as [[c'|]|] eqn:Eo.
    all: try (rewrite (IH _ _ H Hq); apply lookup_insert_ne; exact Hne).
    all: exfalso; clear -H; induction l as [|[x y] l IHl]; [discriminate|]; exact (IHl H).
Qed.

(** What [cpSync] writes lies below the destination, at the place of a
    source node that the filter keeps with everything above it. *)
Lemma cp_other (fs : FS) (src dst : path) (keep : path -> bool) (fs' : FS) (q : path) :
  Fs.cp fs src dst keep = inr fs' ->
  (forall rel, q = dst ++ rel ->
               forallb keep (List.map (app src) (Fs.prefixes rel)) && keep src = false) ->
  fs' !! q = fs !! q.
Proof.
  unfold Fs.cp. destruct (negb (Fs.existsSync fs src)); [discriminate|].
  apply cp_fold_other.
Qed.

Lemma leaves_cpSync_sibling (destDir sourceDir : path) (name other : string) (rest : path) :
  name <> other ->
  leaves (destDir ++ other :: rest)
    (cpSync (sourceDir ++ [name]) (destDir ++ [name]) (fun _ => true)).
Proof.
  intros Hne. unfold cpSync. apply leaves_bind; [apply leaves_trace | intros _].
  apply leaves_liftFs. intros fs fs' H. eapply cp_other; [exact H|].
  intros rel Heq. exfalso. rewrite <- app_assoc in Heq. apply app_inv_head in Heq.
  injection Heq as Heq _. congruence.
Qed.

(** X21. The workspace copy never writes into an excluded entry of the
    destination ([.git], [.orchestrator], [node_modules], [dist],
    [build]): whatever lies there is as it was, however the copy ends. *)
Theorem copyWorkspace_skips_excluded (sourceDir destDir q : path) (w : World) :
  underExcluded destDir q ->
  w_fs (snd (copyWorkspace sourceDir destDir w)) !! q = w_fs w !! q.
Proof.
  intros (other & rest & Hex & ->). revert w.
  change (leaves (destDir ++ other :: rest) (copyWorkspace sourceDir destDir)).
  unfold copyWorkspace.
  apply leaves_bind; [apply leaves_ensureDir, prefixes_app_not | intros _].
  unfold copyEntries, readdirSync.
  apply leaves_bind; [apply leaves_liftRead | intros entries].
  apply leaves_forEach. intros [name kind] _.
  destruct (excluded DEFAULT_EXCLUDES name) eqn:En; [apply leaves_ret|].
  apply leaves_cpSync_sibling. intros ->. congruence.
Qed.

(** *** The walk of [listRelativeEntries] and the sync *)

Lemma leaves_walkEntries (q : path) (fuel : nat) (rootDir : path) :
  forall currentRel : path, leaves q (walkEntries fuel rootDir currentRel).
Proof.
  induction fuel as [|fuel IH]; intros currentRel; [apply leaves_outOfFuel|].
  cbn [walkEntries]. apply leaves_bind; [apply leaves_liftRead | intros entries].
  induction entries as [|[name kind] rest IHrest]; [apply leaves_ret|].
  cbn beta match fix. cbv zeta.
  destruct (excluded DEFAULT_EXCLUDES (List.hd "" (currentRel ++ [name]))); [exact IHrest|].
  apply leaves_bind; [destruct kind; [apply leaves_ret | apply IH] | intros sub].
  apply leaves_bind; [exact IHrest | intros others]. apply leaves_ret.
Qed.

Lemma hd_snoc (currentRel : path) (name : string) :
  List.hd "" (currentRel ++ [name]) = match currentRel with [] => name | x :: _ => x end.
Proof. destruct currentRel; reflexivity. Qed.

(** Every entry that the walk lists is a non-empty relative path whose
    first component is not excluded. *)
Lemma walkEntries_tops (fuel : nat) (rootDir : path) :
  forall (currentRel : path) (w : World) (l : list path) (w' : World),
    walkEntries fuel rootDir currentRel w = (Ok l, w') ->
    Forall (fun rel => exists top rest,
                rel = top :: rest /\ excluded DEFAULT_EXCLUDES top = false) l.
Proof.
  induction fuel as [|fuel IH]; intros currentRel w l w' H; [discriminate|].
  cbn [walkEntries] in H. inv_bind H. clear Hm. rename x into entries.
  revert w0 l w' H.
  induction entries as [|[name kind] rest IHrest]; intros w0 l w' H.
  - apply ret_Ok in H as [<- _]. constructor.
  - cbn beta match fix in H. cbv zeta in H.
    destruct (excluded DEFAULT_EXCLUDES (List.hd "" (currentRel ++ [name]))) eqn:Ex;
      [eapply IHrest; exact H|].
    inv_bind H. rename x into sub. inv_bind H. rename x into others.
    apply ret_Ok in H as [<- _].
    constructor; [|apply Forall_app; split].
    + destruct currentRel as [|c cs]; [exists name, [] | exists c, (cs ++ [name])];
        (split; [reflexivity | exact Ex]).
    + destruct kind; [apply ret_Ok in Hm as [<- _]; constructor | eapply IH; exact Hm].
    + eapply IHrest; exact Hm0.
Qed.

Lemma insertByLength_In (x y : path) (l : list path) :
  In y (insertByLength x l) -> y = x \/ In y l.
Proof.
  induction l as [|z l IH]; cbn [insertByLength]; intros H.
  - destruct H as [<-|[]]. left. reflexivity.
  - destruct (String.length (JS.join "/" z) <? String.length (JS.join "/" x))%nat.
    + destruct H as [<-|H]; [left; reflexivity | right; exact H].
    + destruct H as [<-|H]; [right; left; reflexivity|].
      destruct (IH H) as [->|Hin]; [left; reflexivity | right; right; exact Hin].
Qed.

Lemma sortByLength_In (y : path) (l : list path) :
  In y (fold_right insertByLength [] l) -> In y l.
Proof.
  induction l as [|x l IH]; cbn [fold_right]; intros H; [exact H|].
  apply insertByLength_In in H as [->|H]; [left; reflexivity | right; apply IH, H].
Qed.

Lemma rm_other (fs : FS) (p q : path) : Fs.below p q = None -> Fs.rm fs p !! q = fs !! q.
Proof.
  intros Hb. unfold Fs.rm. destruct (fs !! q) as [n|] eqn:E.
  - apply map_lookup_filter_Some. split; [exact E | exact Hb].
  - apply map_lookup_filter_None. left. exact E.
Qed.

Lemma below_other_top (p : path) (a b : string) (l1 l2 : path) :
  a <> b -> Fs.below (p ++ a :: l1) (p ++ b :: l2) = None.
Proof.
  intros Hab. induction p as [|x p IH]; simpl.
  - apply String.eqb_neq in Hab. rewrite Hab. reflexivity.
  - rewrite String.eqb_refl. exact IH.
Qed.

Lemma prefixes_head (x : string) (r : path) : In [x] (Fs.prefixes (x :: r)).
Proof. left. reflexivity. Qed.

(** X22. Syncing a worktree into a workspace leaves the excluded entries
    of the destination ([.git], [.orchestrator], [node_modules], [dist],
    [build]) as they are: nothing there is removed, replaced or created,
    however the sync ends. *)
Theorem syncWorkspace_skips_excluded (sourceDir destDir q : path) (w : World) :
  underExcluded destDir q ->
  w_fs (snd (syncWorkspace sourceDir destDir w)) !! q = w_fs w !! q.
Proof.
  intros (other & rest & Hex & ->).
  unfold syncWorkspace.
  unfold bind at 1.
  pose proof (leaves_ensureDir (destDir ++ other :: rest) destDir
                (prefixes_app_not destDir other rest) w) as H0.
  destruct (ensureDir destDir w) as [[[]|e|] w0]; cbn [snd] in *; try exact H0.
  rewrite <- H0. clear H0 w.
  unfold bind at 1.
  pose proof (leaves_bind _ _ _ (leaves_getFs (destDir ++ other :: rest))
                (fun fs => leaves_walkEntries (destDir ++ other :: rest) (S (size fs)) sourceDir [])
                w0) as H1.
  fold (listRelativeEntries sourceDir) in H1.
  destruct (listRelativeEntries sourceDir w0) as [[sourceEntries|e|] w1]; cbn [snd] in *;
    try exact H1.
  rewrite <- H1. clear H1 w0.
  unfold bind at 1.
  pose proof (leaves_bind _ _ _ (leaves_getFs (destDir ++ other :: rest))
                (fun fs => leaves_walkEntries (destDir ++ other :: rest) (S (size fs)) destDir [])
                w1) as H2.
  fold (listRelativeEntries destDir) in H2.
  destruct (listRelativeEntries destDir w1) as [[destEntries|e|] w2] eqn:Hdest; cbn [snd] in *;
    try exact H2.
  rewrite <- H2. clear H2.
  assert (Htops : Forall (fun rel => exists top rest,
                     rel = top :: rest /\ excluded DEFAULT_EXCLUDES top = false) destEntries).
  { unfold listRelativeEntries, bind, getFs in Hdest. eapply walkEntries_tops. exact Hdest. }
  cbv zeta. revert w2 Hdest. intros w2 _. revert w2.
  apply leaves_bind; [|intros _].
  - apply leaves_forEach. intros rel Hrel.
    apply sortByLength_In, filter_In in Hrel as [Hrel _].
    rewrite List.Forall_forall in Htops. destruct (Htops rel Hrel) as (top & rest' & -> & Htop).
    unfold rmSync. apply leaves_bind; [apply leaves_trace | intros _].
    apply leaves_liftFs. intros fs fs' H. injection H as <-.
    apply rm_other. apply below_other_top. intros ->. congruence.
  - unfold cpSync. apply leaves_bind; [apply leaves_trace | intros _].
    apply leaves_liftFs. intros fs fs' H. eapply cp_other; [exact H|].
    intros rel Heq. apply app_inv_head in Heq. subst rel.
    apply andb_false_iff. left. cbn [Fs.prefixes List.map forallb].
    rewrite below_app. rewrite Hex. reflexivity.
Qed.

(** *** The final phase *)

Lemma leaves_existsSync (q p : path) : leaves q (existsSync p).
Proof. apply leaves_unchanged. reflexivity. Qed.

Lemma leaves_readText (q p : path) : leaves q (readText p).
Proof.
  unfold readText. apply leaves_bind; [apply leaves_existsSync | intros present].
  destruct (negb present); [apply leaves_ret|].
  apply leaves_bind; [apply leaves_liftRead | intros; apply leaves_ret].
Qed.

Lemma leaves_writeText (q p : path) (content : string) :
  p <> q -> ~ In q (Fs.prefixes (dirname p)) -> leaves q (writeText p content).
Proof.
  intros Hne Hq. unfold writeText.
  apply leaves_bind; [apply leaves_ensureDir; exact Hq | intros _].
  apply leaves_bind; [apply leaves_trace | intros _].
  apply leaves_liftFs. intros fs fs' H. exact (writeFile_other _ _ _ _ q Hne H).
Qed.

Lemma leaves_buildSummary (q runDir : path) (d : Decision) : leaves q (buildSummary runDir d).
Proof.
  unfold buildSummary. apply leaves_bind; [apply leaves_readText | intros taskRead].
  apply leaves_bind; [apply leaves_readText | intros context_]. apply leaves_ret.
Qed.

Lemma longer_not_prefix (p q : path) : (length p < length q)%nat -> ~ In q (Fs.prefixes p).
Proof. intros Hlen H. apply prefixes_length in H. lia. Qed.

Lemma existsSync_lookup (fs fs' : FS) (p : path) :
  fs' !! p = fs !! p -> Fs.existsSync fs' p = Fs.existsSync fs p.
Proof. intros H. unfold Fs.existsSync. destruct p; [reflexivity | rewrite H; reflexivity]. Qed.

Lemma readText_dir (p : path) (w : World) :
  w_fs w !! p = Some Dir -> readText p w = (Throw (FsError "EISDIR" p), w).
Proof.
  intros H. unfold readText. unfold bind at 1. unfold existsSync.
  assert (Fs.existsSync (w_fs w) p = true) as ->.
  { unfold Fs.existsSync. destruct p; [reflexivity | rewrite H; reflexivity]. }
  change (negb true) with false. cbv iota. unfold bind, liftRead. cbv beta.
  assert (Fs.readFile (w_fs w) p = inl (FsError "EISDIR" p)) as ->.
  { unfold Fs.readFile. rewrite H. reflexivity. }
  reflexivity.
Qed.

Lemma readText_missing (p : path) (w : World) :
  p <> [] -> w_fs w !! p = None -> readText p w = (Ok None, w).
Proof.
  intros Hp H. unfold readText, bind, existsSync, Fs.existsSync.
  destruct p; [contradiction|]. rewrite H. reflexivity.
Qed.

(** The patch that the final phase takes lies in another directory of the
    run than [final]. *)
Lemma finalPatchSource_shape runDir d config b src :
  finalPatchSource runDir d config b = inr (Some src) ->
  exists dir name rest, src = runDir ++ dir :: name :: rest /\ dir <> "final".
Proof.
  unfold finalPatchSource. destruct b.
  - intros H. injection H as <-. exists "converge", "final.patch", []. split; [reflexivity | discriminate].
  - destruct (implementationMode config).
    + destruct (winnerIsNeither d); [discriminate|].
      destruct (asAgentName (d_winner d)) as [a|]; [|discriminate].
      intros H. injection H as <-. exists "implement", (agentName a), ["diff.patch"].
      split; [reflexivity | discriminate].
    + intros H. injection H as <-. exists "implement", "joint", ["final.patch"].
      split; [reflexivity | discriminate].
Qed.

(** X23. When the final phase returns, [final/winner.json] holds the
    decision and [final/summary.md] a summary.  The patch of the
    convergence, when one is on file, goes before the patch of the joint
    implementation or of the winner, whatever the mode and the winner;
    [final/final.patch] receives the content of the patch taken when
    that is not empty, and is left as it was when there is no patch to
    take or the patch is missing or empty. *)
Theorem runFinalPhase_patch_precedence (runDir : path) (d : Decision) (config : Config)
    (w w' : World) :
  runFinalPhase runDir d config w = (Ok tt, w') ->
  let finalPatch := runDir ++ ["final"; "final.patch"] in
  let convergeThere := Fs.existsSync (w_fs w) (runDir ++ ["converge"; "final.patch"]) in
  w_fs w' !! (runDir ++ ["final"; "winner.json"]) =
    Some (File (JSON_pretty (decisionJson d))) /\
  (exists summary, w_fs w' !! (runDir ++ ["final"; "summary.md"]) = Some (File summary)) /\
  finalPatchSource runDir d config true = inr (Some (runDir ++ ["converge"; "final.patch"])) /\
  match finalPatchSource runDir d config convergeThere with
  | inr (Some src) =>
      match w_fs w !! src with
      | Some (File text) =>
          if JS.nonEmpty text then w_fs w' !! finalPatch = Some (File text)
          else w_fs w' !! finalPatch = w_fs w !! finalPatch
      | Some Dir => False
      | None => w_fs w' !! finalPatch = w_fs w !! finalPatch
      end
  | inr None => w_fs w' !! finalPatch = w_fs w !! finalPatch
  | inl _ => False
  end.
Proof.
  intros H finalPatch convergeThere. unfold runFinalPhase in H. cbv zeta in H.
  inv_bind H. inv_bind H. inv_bind H. inv_bind H. inv_bind H. inv_bind H.
  rename x4 into summary.
  assert (Hbefore : forall dir name rest,
             (dir = "final" -> name <> "winner.json") ->
             w_fs w1 !! (runDir ++ dir :: name :: rest) =
               w_fs w !! (runDir ++ dir :: name :: rest)).
  { intros dir name rest Hdir.
    assert (Hlong : ~ In (runDir ++ dir :: name :: rest) (Fs.prefixes (runDir ++ ["final"])))
      by (apply longer_not_prefix; rewrite !length_app; simpl; lia).
    assert (Hne : (runDir ++ ["final"]) ++ ["winner.json"] <> runDir ++ dir :: name :: rest).
    { intros Heq. rewrite <- app_assoc in Heq. apply app_inv_head in Heq.
      injection Heq as <- <- _. apply Hdir; reflexivity. }
    rewrite <- (dirname_snoc (runDir ++ ["final"]) "winner.json") in Hlong at 1.
    rewrite (leaves_run _ _ _ _ _ (leaves_writeText _ _ _ Hne Hlong) Hm0).
    rewrite dirname_snoc in Hlong.
    exact (leaves_run _ _ _ _ _ (leaves_ensureDir _ _ Hlong) Hm). }
  assert (Hafter : forall dir name rest,
             (dir = "final" -> name <> "summary.md") ->
             w_fs w' !! (runDir ++ dir :: name :: rest) =
               w_fs w4 !! (runDir ++ dir :: name :: rest)).
  { intros dir name rest Hdir.
    assert (Hlong : ~ In (runDir ++ dir :: name :: rest) (Fs.prefixes (runDir ++ ["final"])))
      by (apply longer_not_prefix; rewrite !length_app; simpl; lia).
    assert (Hne : (runDir ++ ["final"]) ++ ["summary.md"] <> runDir ++ dir :: name :: rest).
    { intros Heq. rewrite <- app_assoc in Heq. apply app_inv_head in Heq.
      injection Heq as <- <- _. apply Hdir; reflexivity. }
    rewrite <- (dirname_snoc (runDir ++ ["final"]) "summary.md") in Hlong at 1.
    rewrite (leaves_run _ _ _ _ _ (leaves_writeText _ _ _ Hne Hlong) H).
    exact (leaves_run _ _ _ _ _ (leaves_buildSummary _ _ _) Hm4). }
  unfold existsSync in Hm1. injection Hm1 as <- <-.
  apply liftExn_Ok in Hm2 as [Hsrc <-].
  rewrite (existsSync_lookup (w_fs w) (w_fs w1) _
             (Hbefore "converge" "final.patch" [] ltac:(discriminate))) in Hsrc.
  fold convergeThere in Hsrc.
  assert (Hmid : forall dir name rest,
             (dir = "final" -> name <> "final.patch") ->
             w_fs w4 !! (runDir ++ dir :: name :: rest) =
               w_fs w1 !! (runDir ++ dir :: name :: rest)).
  { intros dir name rest Hdir. destruct x2 as [src|]; [|apply ret_Ok in Hm3 as [_ <-]; reflexivity].
    eapply leaves_run; [|exact Hm3].
    apply leaves_bind; [apply leaves_readText | intros [text|]; [|apply leaves_ret]].
    destruct (JS.nonEmpty text); [|apply leaves_ret].
    apply leaves_writeText.
    - intros Heq. rewrite <- app_assoc in Heq. apply app_inv_head in Heq.
      injection Heq as <- <- _. apply Hdir; reflexivity.
    - rewrite dirname_snoc. apply longer_not_prefix. rewrite !length_app. simpl. lia. }
  split.
  { change (runDir ++ ["final"; "winner.json"]) with (runDir ++ "final" :: "winner.json" :: []).
    rewrite Hafter by (intros _; discriminate).
    rewrite Hmid by (intros _; discriminate).
    change (runDir ++ "final" :: "winner.json" :: []) with (runDir ++ ["final"] ++ ["winner.json"]).
    rewrite app_assoc. destruct x0. exact (writeText_Ok_file _ _ _ _ Hm0). }
  split.
  { exists summary.
    change (runDir ++ ["final"; "summary.md"]) with (runDir ++ ["final"] ++ ["summary.md"]).
    rewrite app_assoc. exact (writeText_Ok_file _ _ _ _ H). }
  split; [reflexivity|].
  assert (Hsame : w_fs w4 = w_fs w1 -> w_fs w' !! finalPatch = w_fs w !! finalPatch).
  { intros Heq. unfold finalPatch.
    change (runDir ++ ["final"; "final.patch"]) with (runDir ++ "final" :: "final.patch" :: []).
    rewrite Hafter by (intros _; discriminate). rewrite Heq.
    apply Hbefore. intros _. discriminate. }
  rewrite Hsrc. destruct x2 as [src|].
  - destruct (finalPatchSource_shape _ _ _ _ _ Hsrc) as (dir & name & rest & -> & Hdir).
    inv_bind Hm3.
    rewrite <- (Hbefore dir name rest ltac:(intros Heq; contradiction)).
    destruct (w_fs w1 !! (runDir ++ dir :: name :: rest)) as [[text|]|] eqn:Hthere.
    + rewrite (readText_file _ _ _ Hthere) in Hm1. injection Hm1 as <- <-.
      destruct (JS.nonEmpty text).
      * unfold finalPatch.
        change (runDir ++ ["final"; "final.patch"])
          with (runDir ++ "final" :: "final.patch" :: []).
        rewrite Hafter by (intros _; discriminate). destruct x3.
        change (runDir ++ "final" :: "final.patch" :: [])
          with (runDir ++ ["final"] ++ ["final.patch"]).
        rewrite app_assoc. exact (writeText_Ok_file _ _ _ _ Hm3).
      * apply ret_Ok in Hm3 as [_ <-]. apply Hsame. reflexivity.
    + rewrite (readText_dir _ _ Hthere) in Hm1. discriminate.
    + assert (Hp : runDir ++ dir :: name :: rest <> [])
        by (intros Heq; destruct runDir; discriminate Heq).
      rewrite (readText_missing _ _ Hp Hthere) in Hm1.
      injection Hm1 as <- <-. apply ret_Ok in Hm3 as [_ <-]. apply Hsame. reflexivity.
  - apply ret_Ok in Hm3 as [_ <-]. apply Hsame. reflexivity.
Qed.

(** *** The transcript *)

Lemma leaves_appendFileSync (q p : path) (content : string) :
  p <> q -> leaves q (appendFileSync p content).
Proof.
  intros Hne. unfold appendFileSync.
  apply leaves_bind; [apply leaves_trace | intros _].
  apply leaves_liftFs. intros fs fs' H. exact (appendFile_other _ _ _ _ q Hne H).
Qed.

Lemma leaves_stdoutWrite (q : path) (text : string) : leaves q (stdoutWrite text).
Proof. apply leaves_trace. Qed.

Lemma appendFileSync_Ok_file (p : path) (content : string) (w w' : World) :
  appendFileSync p content w = (Ok tt, w') ->
  w_fs w' !! p = Some (File (contentOf (w_fs w) p +:+ content)).
Proof.
  unfold appendFileSync. intros H. inv_bind H.
  unfold trace in Hm. injection Hm as _ <-.
  unfold liftFs in H. cbn [w_fs] in H.
  destruct (Fs.appendFile (w_fs w) p content) as [e|fs'] eqn:E; [discriminate|].
  injection H as <-. cbn [w_fs].
  unfold Fs.appendFile in E. unfold contentOf.
  destruct (w_fs w !! p) as [[old|]|]; try discriminate.
  - injection E as <-. apply lookup_insert_eq.
  - destruct (_ && _); [|discriminate]. injection E as <-. apply lookup_insert_eq.
Qed.

(** X24. The transcript only grows: a call of [appendTranscript] that
    returns has added the event's JSON line to [transcript.jsonl] and its
    Markdown section to [transcript.md], after whatever the two files
    held before (nothing, when they were not there), and has changed no
    other file. *)
Theorem appendTranscript_appends (runDir : path) (phase role : string)
    (agent : option AgentName) (kind content : string) (round : option Z)
    (stream : TranscriptStreamOptions) (w w' : World) :
  appendTranscript runDir phase role agent kind content round stream w = (Ok tt, w') ->
  let convoDir := runDir ++ ["conversation"] in
  let jsonl := convoDir ++ ["transcript.jsonl"] in
  let md := convoDir ++ ["transcript.md"] in
  let event := {| te_timestamp := fst (now (w_ext w)); te_phase := phase;
                  te_role := role; te_agent := agent; te_kind := kind;
                  te_content := content; te_round := round |} in
  w_fs w' !! jsonl =
    Some (File (contentOf (w_fs w) jsonl +:+ (JSON_stringify (eventJson event) +:+ JS.nl))) /\
  w_fs w' !! md = Some (File (contentOf (w_fs w) md +:+ renderMarkdown event)) /\
  forall q, q <> jsonl -> q <> md -> ~ In q (Fs.prefixes convoDir) ->
            w_fs w' !! q = w_fs w !! q.
Proof.
  intros H convoDir jsonl md event. unfold appendTranscript in H.
  inv_bind H. unfold clock in Hm.
  destruct (now (w_ext w)) as [stamp ext'] eqn:Hnow. injection Hm as <- <-.
  assert (Hevent : event = {| te_timestamp := stamp; te_phase := phase;
                              te_role := role; te_agent := agent; te_kind := kind;
                              te_content := content; te_round := round |})
    by (unfold event; try rewrite Hnow; reflexivity).
  rewrite <- Hevent in H. clearbody event. clear Hevent.
  fold convoDir in H. fold jsonl in H. fold md in H.
  inv_bind H. inv_bind H. inv_bind H. inv_bind H. destruct x0, x1.
  assert (Hout : forall q, w_fs w' !! q = w_fs w2 !! q).
  { intros q. transitivity (w_fs w3 !! q).
    - eapply leaves_run; [|exact H].
      destruct (ts_ui stream); [apply leaves_stdoutWrite | apply leaves_ret].
    - eapply leaves_run; [|exact Hm2].
      destruct (ts_jsonl stream); [apply leaves_stdoutWrite | apply leaves_ret]. }
  assert (Hdir : forall q, ~ In q (Fs.prefixes convoDir) -> w_fs w0 !! q = w_fs w !! q).
  { intros q Hq. exact (leaves_run q _ _ _ _ (leaves_ensureDir q convoDir Hq) Hm). }
  assert (Hfile : forall name, ~ In (convoDir ++ [name]) (Fs.prefixes convoDir))
    by (intros name; apply longer_not_prefix; rewrite length_app; simpl; lia).
  assert (Hne : jsonl <> md)
    by (intros Heq; apply app_inv_head in Heq; discriminate Heq).
  split; [|split].
  - rewrite Hout.
    rewrite (leaves_run jsonl _ _ _ _ (leaves_appendFileSync jsonl md _ (not_eq_sym Hne)) Hm1).
    rewrite (appendFileSync_Ok_file _ _ _ _ Hm0). unfold contentOf.
    rewrite (Hdir jsonl (Hfile _)). reflexivity.
  - rewrite Hout. rewrite (appendFileSync_Ok_file _ _ _ _ Hm1). unfold contentOf.
    rewrite (leaves_run md _ _ _ _ (leaves_appendFileSync md jsonl _ Hne) Hm0).
    rewrite (Hdir md (Hfile _)). reflexivity.
  - intros q Hq1 Hq2 Hq. rewrite Hout.
    rewrite (leaves_run q _ _ _ _ (leaves_appendFileSync q md _ (not_eq_sym Hq2)) Hm1).
    rewrite (leaves_run q _ _ _ _ (leaves_appendFileSync q jsonl _ (not_eq_sym Hq1)) Hm0).
    apply Hdir. exact Hq.
Qed.

(** *** Placeholders in agent arguments *)

Lemma replaceAllFuel_empty (fuel : nat) (p r : string) :
  JS.replaceAllFuel fuel p r "" = "".
Proof. destruct fuel; reflexivity. Qed.

Lemma replaceAllFuel_braceFree (key value : string) (fuel : nat) : forall s,
  braceFree s = true ->
  JS.replaceAllFuel fuel ("{" +:+ key +:+ "}") value s = s.
Proof.
  change ("{" +:+ key +:+ "}") with (String "{" (key +:+ "}")).
  induction fuel as [|fuel IH]; intros s Hs; [reflexivity|].
  destruct s as [|c t]; [reflexivity|].
  unfold braceFree in Hs. cbn [chars list_ascii_of_string forallb] in Hs.
  apply andb_true_iff in Hs as [Hc Ht].
  cbn [JS.replaceAllFuel JS.startsWith].
  rewrite Ascii.eqb_sym. apply negb_true_iff in Hc. rewrite Hc.
  f_equal. apply IH. exact Ht.
Qed.

Lemma startsWith_refl (p : string) : JS.startsWith p p = true.
Proof. induction p as [|c p IH]; [reflexivity|]. cbn [JS.startsWith]. rewrite Ascii.eqb_refl. exact IH. Qed.

Lemma drop_all (p : string) : JS.drop (String.length p) p = "".
Proof. induction p as [|c p IH]; [reflexivity | exact IH]. Qed.

Lemma append_empty_r (s : string) : s +:+ "" = s.
Proof.
  induction s as [|c s IH]; [reflexivity|].
  change (String c s +:+ "") with (String c (s +:+ "")). rewrite IH. reflexivity.
Qed.

Lemma replaceAll_exact (c : ascii) (p value : string) :
  JS.replaceAll (String c p) value (String c p) = value.
Proof.
  unfold JS.replaceAll. cbn [JS.replaceAllFuel].
  rewrite startsWith_refl, drop_all, replaceAllFuel_empty. apply append_empty_r.
Qed.

(** X25. [normalizeArgs] keeps the number and the order of the arguments
    and rewrites each one on its own: an argument without an opening
    brace is left as it is, the placeholder of a key alone becomes the
    key's value, and the replacements are applied one after the other,
    so that a value put in by an earlier key is itself subject to the
    later keys. *)
Theorem normalizeArgs_placeholders (args : list string)
    (replacements : list (string * string)) :
  length (normalizeArgs args replacements) = length args /\
  (forall i arg, args !! i = Some arg -> braceFree arg = true ->
                 normalizeArgs args replacements !! i = Some arg) /\
  (forall key value, normalizeArgs ["{" +:+ key +:+ "}"] [(key, value)] = [value]) /\
  (forall later,
     normalizeArgs args (replacements ++ later) =
       normalizeArgs (normalizeArgs args replacements) later).
Proof.
  unfold normalizeArgs. split; [apply length_map|]. split; [|split].
  - intros i arg Hi Hfree. rewrite list_lookup_fmap, Hi. cbn [fmap option_fmap option_map].
    f_equal. induction replacements as [|[key value] rest IH]; [reflexivity|].
    cbn [fold_left]. unfold JS.replaceAll.
    change ("{" +:+ key +:+ "}") with (String "{" (key +:+ "}")). cbv iota.
    change (String "{" (key +:+ "}")) with ("{" +:+ key +:+ "}").
    rewrite (replaceAllFuel_braceFree key value _ arg Hfree). exact IH.
  - intros key value. cbn [List.map fold_left].
    change ("{" +:+ key +:+ "}") with (String "{" (key +:+ "}")).
    rewrite replaceAll_exact. reflexivity.
  - intros later. rewrite List.map_map. apply List.map_ext. intros arg.
    apply fold_left_app.
Qed.

(** *** Wrapping *)

Lemma visible_append (a b : string) : visible (a +:+ b) = visible a ++ visible b.
Proof.
  induction a as [|c a IH]; [reflexivity|].
  change (String c a +:+ b) with (String c (a +:+ b)). cbn [visible].
  destruct (JS.isSpace c); [exact IH | rewrite IH; reflexivity].
Qed.

Lemma visible_rev (s : string) : visible (String.rev s) = List.rev (visible s).
Proof.
  induction s as [|c s IH]; [reflexivity|].
  rewrite rev_cons, visible_append, IH. cbn [visible].
  destruct (JS.isSpace c); [apply app_nil_r | reflexivity].
Qed.

Lemma visible_trimStart (s : string) : visible (JS.trimStart s) = visible s.
Proof.
  induction s as [|c s IH]; [reflexivity|]. cbn [JS.trimStart visible].
  destruct (JS.isSpace c) eqn:Hc; [exact IH|]. cbn [visible]. rewrite Hc. reflexivity.
Qed.

Lemma visible_trimEnd (s : string) : visible (JS.trimEnd s) = visible s.
Proof.
  unfold JS.trimEnd. rewrite visible_rev, visible_trimStart, visible_rev.
  apply List.rev_involutive.
Qed.

Lemma length_rev_app (a b : string) :
  String.length (String.rev_app a b) = (String.length a + String.length b)%nat.
Proof.
  revert b. induction a as [|c a IH]; intros b; [reflexivity|].
  cbn [String.rev_app]. rewrite IH. cbn [String.length]. lia.
Qed.

Lemma length_trimStart_le (s : string) :
  (String.length (JS.trimStart s) <= String.length s)%nat.
Proof.
  induction s as [|c s IH]; [reflexivity|]. cbn [JS.trimStart].
  destruct (JS.isSpace c); cbn [String.length]; lia.
Qed.

Lemma length_trimEnd_le (s : string) :
  (String.length (JS.trimEnd s) <= String.length s)%nat.
Proof.
  unfold JS.trimEnd, String.rev. rewrite length_rev_app.
  pose proof (length_trimStart_le (String.rev_app s "")) as H.
  rewrite length_rev_app in H. cbn [String.length] in *. lia.
Qed.

Lemma visible_removeCR (s : string) : visible (removeCR s) = visible s.
Proof.
  induction s as [|c s IH]; [reflexivity|]. cbn [removeCR visible].
  destruct (Ascii.eqb c (ascii_of_nat 13)) eqn:Hc.
  - apply Ascii.eqb_eq in Hc. subst c. exact IH.
  - cbn [visible]. rewrite IH. reflexivity.
Qed.

Lemma visible_splitOn (s : string) :
  List.concat (List.map visible (JS.splitOn JS.LF s)) = visible s.
Proof.
  induction s as [|c s IH]; [reflexivity|]. cbn [JS.splitOn visible].
  destruct (Ascii.eqb c JS.LF) eqn:Hc.
  - apply Ascii.eqb_eq in Hc. subst c. exact IH.
  - destruct (JS.splitOn JS.LF s) as [|x xs].
    + cbn [List.map List.concat] in *. rewrite <- IH. cbn [visible].
      destruct (JS.isSpace c); reflexivity.
    + cbn [List.map List.concat visible] in *. rewrite <- IH.
      destruct (JS.isSpace c); reflexivity.
Qed.

Lemma runs_nonEmpty (s : string) : Forall (fun w => w <> "") (runs s).
Proof.
  induction s as [|c s IH]; [constructor|]. cbn [runs].
  destruct (runs s) as [|[|d t] rest].
  - constructor; [discriminate | constructor].
  - constructor; [discriminate | constructor].
  - destruct (Bool.eqb _ _).
    + constructor; [discriminate|]. inversion IH. assumption.
    + constructor; [discriminate | exact IH].
Qed.

Lemma visible_runs (s : string) : List.concat (List.map visible (runs s)) = visible s.
Proof.
  induction s as [|c s IH]; [reflexivity|]. cbn [runs].
  pose proof (runs_nonEmpty s) as Hne.
  destruct (runs s) as [|[|d t] rest].
  - cbn [List.map List.concat] in *. cbn [visible]. rewrite <- IH.
    destruct (JS.isSpace c); reflexivity.
  - inversion Hne. congruence.
  - change (visible (String c s)) with (if JS.isSpace c then visible s else c :: visible s).
    rewrite <- IH. destruct (Bool.eqb _ _); cbn [List.map List.concat visible];
      destruct (JS.isSpace c); reflexivity.
Qed.

Lemma take_drop (n : nat) (s : string) : JS.take n s +:+ JS.drop n s = s.
Proof.
  revert s. induction n as [|n IH]; intros s; [reflexivity|].
  destruct s as [|c s]; [reflexivity|]. cbn [JS.take JS.drop].
  change (String c (JS.take n s) +:+ JS.drop n s) with (String c (JS.take n s +:+ JS.drop n s)).
  rewrite IH. reflexivity.
Qed.

Lemma length_drop (n : nat) (s : string) :
  String.length (JS.drop n s) = (String.length s - n)%nat.
Proof.
  revert s. induction n as [|n IH]; intros s; [cbn [JS.drop]; lia|].
  destruct s as [|c s]; [reflexivity|]. cbn [JS.drop String.length]. apply IH.
Qed.

(** With a width of one at least the hard split ends, and its chunks are
    the token cut into pieces of the width. *)
Lemma hardSplit_chunks (width : nat) : (1 <= width)%nat ->
  forall fuel w, (String.length w <= fuel)%nat ->
    exists chunks,
      hardSplit fuel width w = Some chunks /\
      Forall (fun l => (String.length l <= width)%nat) chunks /\
      List.concat (List.map visible chunks) = visible w.
Proof.
  intros Hwidth. induction fuel as [|fuel IH]; intros w Hlen.
  - destruct w; [|cbn [String.length] in Hlen; lia].
    exists []. split; [reflexivity|]. split; [constructor | reflexivity].
  - destruct w as [|c w]; [exists []; split; [reflexivity|]; split; [constructor | reflexivity]|].
    cbn [hardSplit].
    destruct (IH (JS.drop width (String c w))) as (chunks & -> & Hfit & Hvis).
    { rewrite length_drop. cbn [String.length] in *. lia. }
    exists (JS.take width (String c w) :: chunks). split; [reflexivity|].
    split; [constructor; [apply take_length_le | exact Hfit]|].
    cbn [List.map List.concat]. rewrite Hvis, <- visible_append, take_drop. reflexivity.
Qed.

Lemma wrapWord_fits (width : nat) (out : list string) (current w : string) :
  (1 <= width)%nat ->
  Forall (fun l => (String.length l <= width)%nat) out ->
  (String.length current <= width)%nat ->
  exists out' current',
    wrapWord width (Some (out, current)) w = Some (out', current') /\
    Forall (fun l => (String.length l <= width)%nat) out' /\
    (String.length current' <= width)%nat /\
    List.concat (List.map visible out') ++ visible current' =
      (List.concat (List.map visible out) ++ visible current) ++ visible w.
Proof.
  intros Hwidth Hout Hcur. unfold wrapWord.
  assert (Hnext : (if JS.nonEmpty current then current +:+ w else w) = current +:+ w)
    by (destruct current; reflexivity).
  rewrite Hnext.
  destruct (String.length (current +:+ w) <=? width)%nat eqn:Hfit.
  - apply Nat.leb_le in Hfit. exists out, (current +:+ w).
    split; [reflexivity|]. split; [exact Hout|]. split; [exact Hfit|].
    rewrite visible_append, app_assoc. reflexivity.
  - set (out1 := if JS.nonEmpty current then out ++ [JS.trimEnd current] else out).
    assert (Hout1 : Forall (fun l => (String.length l <= width)%nat) out1 /\
                    List.concat (List.map visible out1) =
                      List.concat (List.map visible out) ++ visible current).
    { unfold out1. destruct current as [|c current]; cbn [JS.nonEmpty].
      - split; [exact Hout | cbn [visible]; rewrite app_nil_r; reflexivity].
      - split.
        + apply Forall_app. split; [exact Hout|]. constructor; [|constructor].
          pose proof (length_trimEnd_le (String c current)). lia.
        + rewrite List.map_app, List.concat_app. cbn [List.map List.concat].
          rewrite app_nil_r, visible_trimEnd. reflexivity. }
    destruct Hout1 as [Hfit1 Hvis1].
    destruct (width <? String.length w)%nat eqn:Hlong.
    + destruct (hardSplit_chunks width Hwidth (String.length w) w (le_n _))
        as (chunks & -> & Hchunks & Hvis).
      exists (out1 ++ chunks), "". split; [reflexivity|].
      split; [apply Forall_app; split; assumption|]. split; [cbn [String.length]; lia|].
      rewrite List.map_app, List.concat_app, Hvis1, Hvis. cbn [visible].
      rewrite app_nil_r. reflexivity.
    + apply Nat.ltb_ge in Hlong. exists out1, (JS.trimStart w). split; [reflexivity|].
      split; [exact Hfit1|]. split; [pose proof (length_trimStart_le w); lia|].
      rewrite Hvis1, visible_trimStart. reflexivity.
Qed.

Lemma wrapWords_fit (width : nat) (words : list string) : (1 <= width)%nat ->
  forall out current,
    Forall (fun l => (String.length l <= width)%nat) out ->
    (String.length current <= width)%nat ->
    exists out' current',
      fold_left (wrapWord width) words (Some (out, current)) = Some (out', current') /\
      Forall (fun l => (String.length l <= width)%nat) out' /\
      (String.length current' <= width)%nat /\
      List.concat (List.map visible out') ++ visible current' =
        (List.concat (List.map visible out) ++ visible current) ++
        List.concat (List.map visible words).
Proof.
  intros Hwidth. induction words as [|w words IH]; intros out current Hout Hcur.
  - exists out, current. split; [reflexivity|]. split; [exact Hout|]. split; [exact Hcur|].
    cbn [List.map List.concat]. rewrite app_nil_r. reflexivity.
  - cbn [fold_left].
    destruct (wrapWord_fits width out current w Hwidth Hout Hcur)
      as (out1 & current1 & -> & Hout1 & Hcur1 & Hvis1).
    destruct (IH out1 current1 Hout1 Hcur1) as (out' & current' & Hrun & Hout' & Hcur' & Hvis).
    exists out', current'. split; [exact Hrun|]. split; [exact Hout'|]. split; [exact Hcur'|].
    rewrite Hvis, Hvis1. cbn [List.map List.concat]. rewrite <- !app_assoc. reflexivity.
Qed.

Lemma wrapLine_fits (width : nat) (out : list string) (raw : string) :
  (1 <= width)%nat ->
  Forall (fun l => (String.length l <= width)%nat) out ->
  exists out',
    wrapLine width out raw = Some out' /\
    Forall (fun l => (String.length l <= width)%nat) out' /\
    List.concat (List.map visible out') = List.concat (List.map visible out) ++ visible raw.
Proof.
  intros Hwidth Hout. unfold wrapLine. cbv zeta.
  rewrite <- (visible_removeCR raw). generalize (removeCR raw) as line. intros line.
  destruct (String.length line =? 0)%nat eqn:Hempty.
  - apply Nat.eqb_eq in Hempty. destruct line; [|discriminate Hempty].
    exists (out ++ [""]). split; [reflexivity|].
    split; [apply Forall_app; split; [exact Hout | constructor; [cbn; lia | constructor]]|].
    rewrite List.map_app, List.concat_app. reflexivity.
  - destruct (String.length line <=? width)%nat eqn:Hfit.
    + apply Nat.leb_le in Hfit. exists (out ++ [line]). split; [reflexivity|].
      split; [apply Forall_app; split; [exact Hout | constructor; [exact Hfit | constructor]]|].
      rewrite List.map_app, List.concat_app. cbn [List.map List.concat].
      rewrite app_nil_r. reflexivity.
    + destruct (wrapWords_fit width (runs line) Hwidth out "" Hout ltac:(cbn; lia))
        as (out1 & current & -> & Hout1 & Hcur & Hvis).
      rewrite visible_runs in Hvis. cbn [visible] in Hvis. rewrite app_nil_r in Hvis.
      rewrite <- Hvis.
      destruct current as [|c current]; cbn [JS.nonEmpty].
      * exists out1. split; [reflexivity|]. split; [exact Hout1|].
        cbn [visible]. rewrite app_nil_r. reflexivity.
      * exists (out1 ++ [JS.trimEnd (String c current)]). split; [reflexivity|].
        split.
        -- apply Forall_app. split; [exact Hout1|]. constructor; [|constructor].
           pose proof (length_trimEnd_le (String c current)). lia.
        -- rewrite List.map_app, List.concat_app. cbn [List.map List.concat].
           rewrite app_nil_r, visible_trimEnd. reflexivity.
Qed.

(** X26. For a width of one at least, [wrapText] returns, no line that it
    returns is longer than the width, and wrapping touches white space
    only: the other characters of the lines, in their order, are those of
    the text. *)
Theorem wrapText_fits (text : string) (width : nat) :
  (1 <= width)%nat ->
  exists out,
    wrapText text width = Some out /\
    Forall (fun l => (String.length l <= width)%nat) out /\
    List.concat (List.map visible out) = visible text.
Proof.
  intros Hwidth. unfold wrapText. rewrite <- (visible_splitOn text).
  generalize (JS.splitOn JS.LF text) as lines. intros lines.
  assert (Hgen : forall out,
             Forall (fun l => (String.length l <= width)%nat) out ->
             exists out',
               fold_left
                 (fun acc raw =>
                    match acc with Some out => wrapLine width out raw | None => None end)
                 lines (Some out) = Some out' /\
               Forall (fun l => (String.length l <= width)%nat) out' /\
               List.concat (List.map visible out') =
                 List.concat (List.map visible out) ++ List.concat (List.map visible lines)).
  { induction lines as [|raw lines IH]; intros out Hout.
    - exists out. split; [reflexivity|]. split; [exact Hout|].
      cbn [List.map List.concat]. rewrite app_nil_r. reflexivity.
    - cbn [fold_left].
      destruct (wrapLine_fits width out raw Hwidth Hout) as (out1 & -> & Hout1 & Hvis1).
      destruct (IH out1 Hout1) as (out' & Hrun & Hout' & Hvis).
      exists out'. split; [exact Hrun|]. split; [exact Hout'|].
      rewrite Hvis, Hvis1. cbn [List.map List.concat]. rewrite <- app_assoc. reflexivity. }
  destruct (Hgen [] (List.Forall_nil _)) as (out & Hrun & Hout & Hvis).
  exists out. split; [exact Hrun|]. split; [exact Hout | exact Hvis].
Qed.

(** *** What the sync brings over *)

Lemma cp_fold_frame (src dst : path) (keep : path -> bool) (q : path)
    (l : list (path * node)) : forall out fs' : FS,
  fold_left
    (fun acc '(q, n) =>
       match acc with
       | inl e => inl e
       | inr out =>
           match Fs.below src q with
           | Some rel =>
               if forallb keep (List.map (app src) (Fs.prefixes rel)) && keep src
               then
                 match n, out !! (dst ++ rel) with
                 | Dir, Some (File _) =>
                     inl (FsError "ERR_FS_CP_DIR_TO_NON_DIR" (dst ++ rel))
                 | File _, Some Dir =>
                     inl (FsError "ERR_FS_CP_NON_DIR_TO_DIR" (dst ++ rel))
                 | _, _ => inr (<[dst ++ rel := n]> out)
                 end
               else inr out
           | None => inr out
           end
       end) l (inr out) = inr fs' ->
  (forall p n rel, In (p, n) l -> Fs.below src p = Some rel -> dst ++ rel <> q) ->
  fs' !! q = out !! q.
Proof.
  induction l as [|[p n] l IH]; intros out fs' H Hq.
  - injection H as <-. reflexivity.
  - cbn [fold_left] in H.
    assert (Hl : forall p n rel, In (p, n) l -> Fs.below src p = Some rel -> dst ++ rel <> q)
      by (intros p' n' rel' Hin; apply (Hq p' n' rel'); right; exact Hin).
    destruct (Fs.below src p) as [rel|] eqn:Eb; [|eapply IH; eassumption].
    destruct (forallb keep (List.map (app src) (Fs.prefixes rel)) && keep src) eqn:Ek;
      [|eapply IH; eassumption].
    assert (Hne : dst ++ rel <> q) by (apply (Hq p n rel); [left; reflexivity | exact Eb]).
    destruct n as [c|]; destruct (out !! (dst ++ rel)) as [[c'|]|] eqn:Eo.
    all: try (rewrite (IH _ _ H Hl); apply lookup_insert_ne; exact Hne).
    all: exfalso; clear -H; induction l as [|[x y] l IHl]; [discriminate|]; exact (IHl H).
Qed.

Lemma cp_fold_written (src dst : path) (keep : path -> bool) (rel : path) (n : node)
    (l : list (path * node)) :
  List.NoDup (List.map fst l) ->
  In (src ++ rel, n) l ->
  forallb keep (List.map (app src) (Fs.prefixes rel)) && keep src = true ->
  forall out fs' : FS,
  fold_left
    (fun acc '(q, n) =>
       match acc with
       | inl e => inl e
       | inr out =>
           match Fs.below src q with
           | Some rel =>
               if forallb keep (List.map (app src) (Fs.prefixes rel)) && keep src
               then
                 match n, out !! (dst ++ rel) with
                 | Dir, Some (File _) =>
                     inl (FsError "ERR_FS_CP_DIR_TO_NON_DIR" (dst ++ rel))
                 | File _, Some Dir =>
                     inl (FsError "ERR_FS_CP_NON_DIR_TO_DIR" (dst ++ rel))
                 | _, _ => inr (<[dst ++ rel := n]> out)
                 end
               else inr out
           | None => inr out
           end
       end) l (inr out) = inr fs' ->
  fs' !! (dst ++ rel) = Some n.
Proof.
  intros Hnodup Hin Hkeep. induction l as [|[p0 n0] l IH]; intros out fs' H; [destruct Hin|].
  cbn [List.map fst] in Hnodup. apply List.NoDup_cons_iff in Hnodup as [Hfresh Hnodup].
  cbn [fold_left] in H. destruct Hin as [Heq|Hin].
  - injection Heq as -> ->. rewrite below_app, Hkeep in H.
    assert (Hrest : forall p n' rel', In (p, n') l -> Fs.below src p = Some rel' ->
                                      dst ++ rel' <> dst ++ rel).
    { intros p n' rel' Hp Hb Heq. apply app_inv_head in Heq. subst rel'.
      apply below_prefix in Hb. subst p. apply Hfresh.
      apply in_map_iff. exists (src ++ rel, n'). split; [reflexivity | exact Hp]. }
    destruct n as [c|]; destruct (out !! (dst ++ rel)) as [[c'|]|] eqn:Eo.
    all: try (rewrite (cp_fold_frame _ _ _ _ _ _ _ H Hrest); apply lookup_insert_eq).
    all: exfalso; clear -H; induction l as [|[x y] l IHl]; [discriminate|]; exact (IHl H).
  - destruct (Fs.below src p0) as [rel0|] eqn:Eb; [|exact (IH Hnodup Hin _ _ H)].
    destruct (forallb keep (List.map (app src) (Fs.prefixes rel0)) && keep src) eqn:Ek;
      [|exact (IH Hnodup Hin _ _ H)].
    destruct n0 as [c|]; destruct (out !! (dst ++ rel0)) as [[c'|]|] eqn:Eo.
    all: try exact (IH Hnodup Hin _ _ H).
    all: exfalso; clear -H; induction l as [|[x y] l IHl]; [discriminate|]; exact (IHl H).
Qed.

(** A node of the source that the filter keeps, with all the nodes on the
    way down to it, is at its place below the destination after the copy. *)
Lemma cp_written (fs : FS) (src dst : path) (keep : path -> bool) (fs' : FS)
    (rel : path) (n : node) :
  Fs.cp fs src dst keep = inr fs' ->
  fs !! (src ++ rel) = Some n ->
  forallb keep (List.map (app src) (Fs.prefixes rel)) && keep src = true ->
  fs' !! (dst ++ rel) = Some n.
Proof.
  unfold Fs.cp. destruct (negb (Fs.existsSync fs src)); [discriminate|].
  intros H Hn Hkeep. eapply cp_fold_written; [| |exact Hkeep|exact H].
  - apply NoDup_ListNoDup. apply NoDup_fst_map_to_list.
  - apply list_elem_of_In. apply elem_of_map_to_list. exact Hn.
Qed.

Lemma below_app_None (p x q : path) : Fs.below p q = None -> Fs.below (p ++ x) q = None.
Proof.
  revert q. induction p as [|a p IH]; intros q H; [discriminate|].
  destruct q as [|b q]; [reflexivity|]. cbn [app Fs.below] in *.
  destruct (String.eqb a b); [apply IH; exact H | reflexivity].
Qed.

Lemma prefixes_heads (x : string) (r q : path) :
  In q (Fs.prefixes (x :: r)) -> exists t, q = x :: t.
Proof.
  cbn [Fs.prefixes]. intros [<-|H]; [exists []; reflexivity|].
  apply in_map_iff in H as (t & <- & _). exists t. reflexivity.
Qed.

(** X27. A sync that returns has brought over every file of the source
    outside the excluded entries: the destination holds it at the same
    relative path with the same content.  The file must lie outside the
    destination or under one of its excluded entries, as the worktrees
    under [.orchestrator] do. *)
Theorem syncWorkspace_copies_source (sourceDir destDir : path) (w w' : World)
    (top : string) (rest : path) (content : string) :
  syncWorkspace sourceDir destDir w = (Ok tt, w') ->
  excluded DEFAULT_EXCLUDES top = false ->
  w_fs w !! (sourceDir ++ top :: rest) = Some (File content) ->
  Fs.below destDir (sourceDir ++ top :: rest) = None \/
    underExcluded destDir (sourceDir ++ top :: rest) ->
  w_fs w' !! (destDir ++ top :: rest) = Some (File content).
Proof.
  intros H Htop Hfile Hplace. unfold syncWorkspace in H.
  inv_bind H. inv_bind H. inv_bind H. rename x0 into sourceEntries, x1 into destEntries.
  inv_bind H.
  assert (Htops : Forall (fun rel => exists top rest,
                     rel = top :: rest /\ excluded DEFAULT_EXCLUDES top = false) destEntries).
  { unfold listRelativeEntries, bind, getFs in Hm1. eapply walkEntries_tops. exact Hm1. }
  assert (H0 : w_fs w0 !! (sourceDir ++ top :: rest) = Some (File content))
    by exact (keepsFile_run _ _ _ _ _ _ (keepsFile_ensureDir _ destDir) Hm Hfile).
  assert (H1 : w_fs w1 !! (sourceDir ++ top :: rest) = Some (File content)).
  { rewrite <- H0. eapply leaves_run; [|exact Hm0].
    unfold listRelativeEntries. apply leaves_bind; [apply leaves_getFs | intros fs].
    apply leaves_walkEntries. }
  assert (H2 : w_fs w2 !! (sourceDir ++ top :: rest) = Some (File content)).
  { rewrite <- H1. eapply leaves_run; [|exact Hm1].
    unfold listRelativeEntries. apply leaves_bind; [apply leaves_getFs | intros fs].
    apply leaves_walkEntries. }
  assert (H3 : w_fs w3 !! (sourceDir ++ top :: rest) = Some (File content)).
  { rewrite <- H2. eapply leaves_run; [|exact Hm2].
    apply leaves_forEach. intros rel Hrel.
    apply sortByLength_In, filter_In in Hrel as [Hrel _].
    rewrite List.Forall_forall in Htops. destruct (Htops rel Hrel) as (top' & rest' & -> & Htop').
    unfold rmSync. apply leaves_bind; [apply leaves_trace | intros _].
    apply leaves_liftFs. intros fs fs' Hrm. injection Hrm as <-.
    apply rm_other. destruct Hplace as [Hout | (ex & rest0 & Hex & ->)].
    - apply below_app_None. exact Hout.
    - apply below_other_top. intros ->. congruence. }
  unfold cpSync in H. inv_bind H. unfold trace in Hm3. injection Hm3 as _ <-.
  unfold liftFs in H. cbn [w_fs] in H.
  destruct (Fs.cp (w_fs w3) sourceDir destDir _) as [e|fs'] eqn:Hcp; [discriminate|].
  injection H as <-. cbn [w_fs].
  eapply cp_written; [exact Hcp | exact H3 |].
  apply andb_true_iff. split.
  - apply forallb_forall. intros p Hp. apply in_map_iff in Hp as (q & <- & Hq).
    apply prefixes_heads in Hq as (t & ->). rewrite below_app, Htop. reflexivity.
  - pose proof (below_app sourceDir []) as Hb. rewrite app_nil_r in Hb.
    rewrite Hb. reflexivity.
Qed.

(** *** What the copy brings over *)

Lemma ensureDir_keeps_node (p q : path) (n : node) (w w' : World) :
  ensureDir p w = (Ok tt, w') -> w_fs w !! q = Some n -> w_fs w' !! q = Some n.
Proof.
  unfold ensureDir. intros H Hq. inv_bind H.
  unfold trace in Hm. injection Hm as _ <-.
  unfold liftFs in H. cbn [w_fs] in H.
  destruct (Fs.mkdirp (w_fs w) p) as [e|fs'] eqn:E; [discriminate|].
  injection H as <-. cbn [w_fs]. unfold Fs.mkdirp in E.
  eapply mkdirp_keeps; eassumption.
Qed.

(** The names that [readdir] lists are the entries right under the
    directory, each one once. *)
Lemma readdir_names (d : path) (l : list (path * node)) :
  List.NoDup (List.map fst l) ->
  List.NoDup
    (List.map fst
       (omap (fun '(q, n) =>
                match Fs.below d q with
                | Some [name] => Some (name, n)
                | _ => None
                end) l)) /\
  forall name n, In (d ++ [name], n) l ->
    In (name, n)
       (omap (fun '(q, n) =>
                match Fs.below d q with
                | Some [name] => Some (name, n)
                | _ => None
                end) l).
Proof.
  induction l as [|[q n] l IH]; intros Hnodup.
  - split; [constructor | intros name n []].
  - cbn [List.map fst] in Hnodup. apply List.NoDup_cons_iff in Hnodup as [Hfresh Hnodup].
    destruct (IH Hnodup) as [IHn IHin]. cbn [omap list_omap].
    split.
    + destruct (Fs.below d q) as [[|name [|]]|] eqn:Hb; try exact IHn.
      cbn [List.map fst]. constructor; [|exact IHn].
      intros Hin. apply in_map_iff in Hin as ([name' n'] & Hname & Hin). cbn [fst] in Hname.
      subst name'. apply list_elem_of_In, list_elem_of_omap in Hin as ([q' n''] & Hq' & Hg).
      destruct (Fs.below d q') as [[|x [|]]|] eqn:Hb'; try discriminate.
      injection Hg as -> ->. apply below_prefix in Hb, Hb'. subst q q'.
      apply Hfresh. apply in_map_iff. exists (d ++ [name], n').
      split; [reflexivity | apply list_elem_of_In; exact Hq'].
    + intros name n0 [Heq|Hin].
      * injection Heq as -> ->. rewrite below_app. left. reflexivity.
      * destruct (Fs.below d q) as [[|x [|]]|]; try (apply IHin; exact Hin).
        right. apply IHin. exact Hin.
Qed.

Lemma leaves_cpSync_outside (src dst q : path) (keep : path -> bool) :
  Fs.below dst q = None -> leaves q (cpSync src dst keep).
Proof.
  intros Hout. unfold cpSync. apply leaves_bind; [apply leaves_trace | intros _].
  apply leaves_liftFs. intros fs fs' H. eapply cp_other; [exact H|].
  intros rel ->. rewrite below_app in Hout. discriminate.
Qed.

Lemma copyEntries_loop (sourceDir destDir : path) (top : string) (rest : path)
    (content : string) (entries : list (string * node)) :
  excluded DEFAULT_EXCLUDES top = false ->
  Fs.below destDir (sourceDir ++ top :: rest) = None ->
  List.NoDup (List.map fst entries) ->
  In top (List.map fst entries) ->
  forall w w',
    forEach entries
      (fun '(name, _) =>
         if excluded DEFAULT_EXCLUDES name then ret tt
         else cpSync (sourceDir ++ [name]) (destDir ++ [name]) (fun _ => true)) w
      = (Ok tt, w') ->
    w_fs w !! (sourceDir ++ top :: rest) = Some (File content) ->
    w_fs w' !! (destDir ++ top :: rest) = Some (File content).
Proof.
  intros Htop Hout. induction entries as [|[name kind] entries IH]; intros Hnodup Hin w w' H Hfile;
    [destruct Hin|].
  cbn [List.map fst] in Hnodup, Hin. apply List.NoDup_cons_iff in Hnodup as [Hfresh Hnodup].
  cbn [forEach] in H. inv_bind H. destruct x.
  destruct (String.eqb_spec name top) as [->|Hne].
  - rewrite Htop in Hm.
    assert (Hcopied : w_fs w0 !! (destDir ++ top :: rest) = Some (File content)).
    { unfold cpSync in Hm. inv_bind Hm. unfold trace in Hm0. injection Hm0 as _ <-.
      unfold liftFs in Hm. cbn [w_fs] in Hm.
      destruct (Fs.cp (w_fs w) (sourceDir ++ [top]) (destDir ++ [top]) _) as [e|fs'] eqn:Hcp;
        [discriminate|].
      injection Hm as <-. cbn [w_fs].
      change (destDir ++ top :: rest) with (destDir ++ [top] ++ rest). rewrite app_assoc.
      eapply cp_written; [exact Hcp | rewrite <- app_assoc; exact Hfile |].
      apply andb_true_iff. split; [|reflexivity].
      apply forallb_forall. intros p _. reflexivity. }
    rewrite <- Hcopied. eapply leaves_run; [|exact H].
    apply leaves_forEach. intros [name' kind'] Hin'.
    destruct (excluded DEFAULT_EXCLUDES name'); [apply leaves_ret|].
    apply leaves_cpSync_sibling. intros ->. apply Hfresh.
    apply in_map_iff. exists (top, kind'). split; [reflexivity | exact Hin'].
  - destruct Hin as [Heq|Hin]; [contradiction|].
    apply (IH Hnodup Hin w0 w' H). rewrite <- Hfile. eapply leaves_run; [|exact Hm].
    destruct (excluded DEFAULT_EXCLUDES name); [apply leaves_ret|].
    apply leaves_cpSync_outside. apply below_app_None. exact Hout.
Qed.

(** X28. A copy that returns has brought over every file of the source
    below an entry that is not excluded: the destination holds it at the
    same relative path with the same content.  The file must lie outside
    the destination, and its top-level entry must be in the source
    directory. *)
Theorem copyWorkspace_copies_source (sourceDir destDir : path) (w w' : World)
    (top : string) (rest : path) (content : string) :
  copyWorkspace sourceDir destDir w = (Ok tt, w') ->
  excluded DEFAULT_EXCLUDES top = false ->
  w_fs w !! (sourceDir ++ top :: rest) = Some (File content) ->
  w_fs w !! (sourceDir ++ [top]) <> None ->
  Fs.below destDir (sourceDir ++ top :: rest) = None ->
  w_fs w' !! (destDir ++ top :: rest) = Some (File content).
Proof.
  intros H Htop Hfile Hentry Hout. unfold copyWorkspace in H. inv_bind H. destruct x.
  unfold copyEntries in H. inv_bind H. rename x into entries.
  unfold readdirSync, liftRead in Hm0.
  destruct (Fs.readdir (w_fs w0) sourceDir) as [e|entries'] eqn:Hdir; [discriminate|].
  injection Hm0 as <- <-. unfold Fs.readdir in Hdir.
  destruct (Fs.isDir (w_fs w0) sourceDir); [|discriminate]. injection Hdir as <-.
  destruct (w_fs w !! (sourceDir ++ [top])) as [n|] eqn:Hn; [clear Hentry | contradiction].
  destruct (readdir_names sourceDir (map_to_list (w_fs w0))) as [Hnodup Hlisted].
  { apply NoDup_ListNoDup. apply NoDup_fst_map_to_list. }
  eapply copyEntries_loop; [exact Htop | exact Hout | exact Hnodup | | exact H |].
  - apply in_map_iff. exists (top, n). split; [reflexivity|]. apply Hlisted.
    apply list_elem_of_In, elem_of_map_to_list.
    exact (ensureDir_keeps_node _ _ _ _ _ Hm Hn).
  - exact (ensureDir_keeps_node _ _ _ _ _ Hm Hfile).
Qed.

(** *** The memory store *)

Lemma scoreAll_scores (queryText : string) (entries : list json) : forall scored,
  scoreAll entries queryText = inr scored ->
  Forall (fun item => scoreEntry (fst item) queryText = inr (snd item)) scored /\
  List.map fst scored = entries.
Proof.
  induction entries as [|entry entries IH]; intros scored H; cbn [scoreAll] in H.
  - injection H as <-. split; [constructor | reflexivity].
  - destruct (scoreEntry entry queryText) as [e|score] eqn:Hscore; [discriminate|].
    destruct (scoreAll entries queryText) as [e|rest]; [discriminate|].
    injection H as <-. destruct (IH rest eq_refl) as [Hall Hfst].
    split; [constructor; [exact Hscore | exact Hall] | cbn [List.map fst]; rewrite Hfst; reflexivity].
Qed.

Lemma insertByScore_In (x y : json * Z) (l : list (json * Z)) :
  In y (insertByScore x l) -> y = x \/ In y l.
Proof.
  induction l as [|z l IH]; cbn [insertByScore]; intros H.
  - destruct H as [<-|[]]. left. reflexivity.
  - destruct (snd z <=? snd x).
    + destruct H as [<-|H]; [left; reflexivity | right; exact H].
    + destruct H as [<-|H]; [right; left; reflexivity|].
      destruct (IH H) as [->|Hin]; [left; reflexivity | right; right; exact Hin].
Qed.

Lemma sortByScore_In (y : json * Z) (l : list (json * Z)) :
  In y (fold_right insertByScore [] l) -> In y l.
Proof.
  induction l as [|x l IH]; cbn [fold_right]; intros H; [exact H|].
  apply insertByScore_In in H as [->|H]; [left; reflexivity | right; apply IH, H].
Qed.

Lemma insertByScore_sorted (x : json * Z) (l : list (json * Z)) :
  Sorted (fun a b => snd b <= snd a) l ->
  Sorted (fun a b => snd b <= snd a) (insertByScore x l).
Proof.
  induction l as [|y l IH]; intros Hs; cbn [insertByScore].
  - repeat constructor.
  - destruct (snd y <=? snd x) eqn:E.
    + apply Z.leb_le in E. constructor; [exact Hs | constructor; exact E].
    + apply Z.leb_gt in E. inversion Hs as [|y' l' Hl Hhd]; subst.
      constructor; [apply IH; exact Hl|].
      destruct l as [|z l]; cbn [insertByScore]; [constructor; lia|].
      destruct (snd z <=? snd x); [constructor; lia|].
      inversion Hhd; subst. constructor. assumption.
Qed.

Lemma sortByScore_sorted (l : list (json * Z)) :
  Sorted (fun a b => snd b <= snd a) (fold_right insertByScore [] l).
Proof.
  induction l as [|x l IH]; cbn [fold_right]; [constructor|].
  apply insertByScore_sorted. exact IH.
Qed.

Lemma firstn_Sorted {A} (R : A -> A -> Prop) (n : nat) : forall l,
  Sorted R l -> Sorted R (List.firstn n l).
Proof.
  induction n as [|n IH]; intros l Hs; [constructor|].
  destruct l as [|x l]; [constructor|]. cbn [List.firstn].
  inversion Hs as [|x' l' Hl Hhd]; subst. constructor; [apply IH; exact Hl|].
  destruct n; [constructor|]. destruct l as [|y l]; [constructor|].
  cbn [List.firstn]. inversion Hhd; subst. constructor. assumption.
Qed.

Lemma firstn_In {A} (x : A) (n : nat) : forall l, In x (List.firstn n l) -> In x l.
Proof.
  induction n as [|n IH]; intros l H; [destruct H|].
  destruct l as [|y l]; [destruct H|]. cbn [List.firstn] in H.
  destruct H as [<-|H]; [left; reflexivity | right; apply IH; exact H].
Qed.

Lemma Sorted_map_snd (l : list (json * Z)) :
  Sorted (fun a b => snd b <= snd a) l -> descending (List.map snd l).
Proof.
  unfold descending. induction l as [|x l IH]; intros Hs; [constructor|].
  inversion Hs as [|x' l' Hl Hhd]; subst. cbn [List.map]. constructor; [apply IH; exact Hl|].
  destruct l as [|y l]; [constructor|]. cbn [List.map]. inversion Hhd; subst.
  constructor. assumption.
Qed.

(** X29. A query of the memory store reads only.  Without the store's
    file it finds nothing, and so it does when the query holds no term of
    three characters at least.  What it returns are entries parsed from
    the lines of the file, each with a positive score, in descending
    order of the scores, and no more of them than a limit that is not
    negative allows. *)
Theorem memoryQuery_results (filePath : path) (queryText : string) (limit : Z) (w : World) :
  (Fs.existsSync (w_fs w) filePath = false ->
   memoryQuery filePath queryText limit w = (Ok [], w)) /\
  forall result w',
    memoryQuery filePath queryText limit w = (Ok result, w') ->
    w' = w /\
    (0 <= limit -> lengthZ result <= limit) /\
    (queryTerms queryText = [] -> result = []) /\
    (forall entry, In entry result ->
       exists line, In line (JS.splitOn JS.LF (contentOf (w_fs w) filePath)) /\
                    JSON_parse line = Some entry) /\
    exists scores,
      Forall2 (fun entry score => scoreEntry entry queryText = inr score /\ 0 < score)
        result scores /\
      descending scores.
Proof.
  split.
  { intros Hmissing. unfold memoryQuery, bind, existsSync. rewrite Hmissing. reflexivity. }
  intros result w' H. unfold memoryQuery in H. inv_bind H.
  unfold existsSync in Hm. injection Hm as <- <-.
  destruct (negb (Fs.existsSync (w_fs w) filePath)).
  { apply ret_Ok in H as [<- <-]. split; [reflexivity|].
    split; [intros Hlimit; unfold lengthZ; cbn [length]; lia|].
    split; [reflexivity|]. split; [intros entry []|].
    exists []. split; constructor. }
  inv_bind H. unfold liftRead in Hm.
  destruct (Fs.readFile (w_fs w) filePath) as [e|content] eqn:Hread; [discriminate|].
  injection Hm as <- <-.
  assert (Hcontent : contentOf (w_fs w) filePath = content).
  { unfold Fs.readFile in Hread. unfold contentOf.
    destruct (w_fs w !! filePath) as [[c|]|]; try discriminate.
    injection Hread as <-. reflexivity. }
  inv_bind H. apply liftExn_Ok in Hm as [Hscored <-]. apply ret_Ok in H as [<- <-].
  rename x into scored.
  destruct (scoreAll_scores _ _ _ Hscored) as [Hscores Hentries].
  set (items := List.filter (fun item => snd item >? 0) scored).
  set (chosen := sliceTo limit (fold_right insertByScore [] items)).
  assert (Hchosen : forall item, In item chosen -> In item scored /\ 0 < snd item).
  { intros item Hin. unfold chosen, sliceTo in Hin.
    apply firstn_In, sortByScore_In, filter_In in Hin as [Hin Hpos].
    split; [exact Hin | apply Z.gtb_lt in Hpos; lia]. }
  split; [reflexivity|]. split; [|split; [|split] ].
  - intros Hlimit. unfold lengthZ. rewrite length_map. unfold chosen, sliceTo.
    assert ((limit <? 0) = false) as -> by (apply Z.ltb_ge; exact Hlimit).
    pose proof (firstn_le_length (Z.to_nat limit) (fold_right insertByScore [] items)).
    rewrite length_firstn. lia.
  - intros Hterms. destruct chosen as [|item rest] eqn:Hc; [reflexivity|]. exfalso.
    destruct (Hchosen item (or_introl eq_refl)) as [Hin Hpos].
    rewrite List.Forall_forall in Hscores. specialize (Hscores item Hin).
    unfold scoreEntry in Hscores. rewrite Hterms in Hscores. cbn in Hscores.
    injection Hscores as Hzero. lia.
  - intros entry Hin. apply in_map_iff in Hin as (item & <- & Hin).
    destruct (Hchosen item Hin) as [Hitem _].
    assert (Hentry : In (fst item) (List.map fst scored)) by (apply in_map; exact Hitem).
    rewrite Hentries in Hentry.
    apply list_elem_of_In, list_elem_of_omap in Hentry as (line & Hline & Hparse).
    exists line. split; [|exact Hparse].
    apply list_elem_of_In in Hline. apply filter_In in Hline as [Hline _].
    rewrite Hcontent. exact Hline.
  - exists (List.map snd chosen). split.
    + assert (Hall : Forall (fun item => scoreEntry (fst item) queryText = inr (snd item) /\
                                         0 < snd item) chosen).
      { apply List.Forall_forall. intros item Hin. destruct (Hchosen item Hin) as [Hitem Hpos].
        rewrite List.Forall_forall in Hscores. split; [apply Hscores; exact Hitem | exact Hpos]. }
      clear -Hall. induction chosen as [|item rest IH]; [constructor|].
      inversion Hall; subst. cbn [List.map]. constructor; [assumption | apply IH; assumption].
    + apply Sorted_map_snd. unfold chosen, sliceTo. apply firstn_Sorted, sortByScore_sorted.
Qed.

(** X30. A [put] of the memory store that returns has created the
    store's file when it was not there and has added the entry's JSON
    line after what the file held; no other file has changed. *)
Theorem memoryPut_appends (filePath : path) (entry : json) (w w' : World) :
  memoryPut filePath entry w = (Ok tt, w') ->
  w_fs w' !! filePath =
    Some (File (contentOf (w_fs w) filePath +:+ (JSON_stringify entry +:+ JS.nl))) /\
  forall q, q <> filePath -> ~ In q (Fs.prefixes (dirname filePath)) ->
            w_fs w' !! q = w_fs w !! q.
Proof.
  intros H. unfold memoryPut in H. inv_bind H. destruct x.
  unfold memoryInit in Hm. inv_bind Hm. destruct x. inv_bind Hm.
  unfold existsSync in Hm1. injection Hm1 as <- <-.
  assert (Hdirs : forall q, ~ In q (Fs.prefixes (dirname filePath)) ->
                            w_fs w1 !! q = w_fs w !! q).
  { intros q Hq. exact (leaves_run q _ _ _ _ (leaves_ensureDir q _ Hq) Hm0). }
  assert (Hfile : forall c, w_fs w !! filePath = Some (File c) ->
                            w_fs w1 !! filePath = Some (File c)).
  { intros c Hc. exact (keepsFile_run _ _ _ _ _ _ (keepsFile_ensureDir _ _) Hm0 Hc). }
  assert (Hinit : contentOf (w_fs w0) filePath = contentOf (w_fs w) filePath /\
                  forall q, q <> filePath -> w_fs w0 !! q = w_fs w1 !! q).
  { assert (Hnot : ~ In filePath (Fs.prefixes (dirname filePath))).
    { destruct filePath as [|a rest] eqn:Hpath; [intros []|]. rewrite <- Hpath.
      intros Hin. apply prefixes_length in Hin.
      pose proof (dirname_length filePath ltac:(rewrite Hpath; discriminate)). lia. }
    assert (Hkept : w_fs w1 !! filePath = w_fs w !! filePath) by (apply Hdirs; exact Hnot).
    assert (Hstay : Fs.existsSync (w_fs w1) filePath = true ->
                    contentOf (w_fs w0) filePath = contentOf (w_fs w) filePath /\
                    forall q, q <> filePath -> w_fs w0 !! q = w_fs w1 !! q).
    { intros Hthere. rewrite Hthere in Hm. cbn [negb] in Hm. apply ret_Ok in Hm as [_ <-].
      unfold contentOf. rewrite Hkept. split; reflexivity. }
    destruct (Fs.existsSync (w_fs w1) filePath) eqn:Hthere; [apply Hstay; reflexivity|].
    clear Hstay. cbn [negb] in Hm. inv_bind Hm. unfold trace in Hm1. injection Hm1 as _ <-.
    unfold liftFs in Hm. cbn [w_fs] in Hm.
    destruct (Fs.writeFile (w_fs w1) filePath "") as [e|fs'] eqn:Hwrite; [discriminate|].
    injection Hm as <-. cbn [w_fs]. split.
    - unfold contentOf. rewrite <- Hkept.
      unfold Fs.existsSync in Hthere. destruct filePath as [|a rest] eqn:Hpath; [discriminate|].
      rewrite <- Hpath in *.
      destruct (w_fs w1 !! filePath) as [n|] eqn:Hlook; [discriminate|].
      unfold Fs.writeFile in Hwrite. rewrite Hlook in Hwrite.
      destruct (_ && _); [|discriminate]. injection Hwrite as <-.
      rewrite lookup_insert_eq. reflexivity.
    - intros q Hq. exact (writeFile_other _ _ _ _ q (not_eq_sym Hq) Hwrite). }
  destruct Hinit as [Hsame Hothers].
  split.
  - rewrite (appendFileSync_Ok_file _ _ _ _ H), Hsame. reflexivity.
  - intros q Hq Hprefix.
    rewrite (leaves_run q _ _ _ _ (leaves_appendFileSync q filePath _ (not_eq_sym Hq)) H).
    rewrite (Hothers q Hq). apply Hdirs. exact Hprefix.
Qed.

End Orchestrator.

(** ** The phases on the scenarios *)

Lemma run_Ok {Ext X} (m : World Ext -> Result X * World Ext) (w : World Ext) (x : X) :
  fst (m w) = Ok x -> m w = (Ok x, snd (m w)).
Proof. destruct (m w) as [r w']. simpl. intros ->. reflexivity. Qed.

(** ** The theorems at work *)



(** C3 on a debate whose two initial judgments pick codex. *)
Lemma debate_consensus_short_circuit_witness :
  exists log w',
    decisionMode (Scenario.debating 2) = debate /\
    runDecision Sample.env (Scenario.debating 2) 0 Scenario.agreeing = (Ok log, w') /\
    dl_initial log = Some (Scenario.pick "codex" "simpler", Scenario.pick "codex" "safer") /\
    d_winner (dl_decision log) = JStr "codex" /\
    d_rationale (dl_decision log) =
      JStr "Consensus after initial judgment. Codex: simpler Claude: safer" /\
    dl_history log = [] /\
    exists l, w_trace w' = w_trace Scenario.agreeing ++ l /\
              debateRoundDirsOf (Scenario.debating 2) l = [].
Proof.
  eexists ?[log], (snd (runDecision Sample.env (Scenario.debating 2) 0 Scenario.agreeing)).
  assert (Hrun : fst (runDecision Sample.env (Scenario.debating 2) 0 Scenario.agreeing)
                 = Ok ?log) by (vm_compute; reflexivity).
  apply run_Ok in Hrun.
  split; [reflexivity|]. split; [exact Hrun|]. split; [reflexivity|].
  destruct (debate_consensus_short_circuit Sample.env (Scenario.debating 2) 0
              Scenario.agreeing _ _ _ "codex" eq_refl Hrun eq_refl)
    as (Hw & Hr & _ & Hh & _ & Hl).
  - discriminate.
  - vm_compute. reflexivity.
  - vm_compute. reflexivity.
  - split; [exact Hw|]. split; [rewrite Hr; vm_compute; reflexivity|].
    split; [exact Hh | exact Hl].
Defined.

(** C4 on a debate of two rounds that reaches no consensus. *)
Lemma debate_no_convergence_witness :
  exists log w',
    decisionMode (Scenario.debating 2) = debate /\
    (Z.to_nat (debateRoundBound (Scenario.debating 2)) <= 2)%nat /\
    runDecision Sample.env (Scenario.debating 2) 2 Scenario.disagreeing = (Ok log, w') /\
    d_winner (dl_decision log) = JStr "neither" /\
    d_rationale (dl_decision log) = JStr "Judges did not converge after debate rounds." /\
    List.map dr_round (dl_history log) = [1; 2] /\
    exists l, w_trace w' = w_trace Scenario.disagreeing ++ l /\
              Z.of_nat (length (debateRoundDirsOf (Scenario.debating 2) l)) = 2.
Proof.
  eexists ?[log],
    (snd (runDecision Sample.env (Scenario.debating 2) 2 Scenario.disagreeing)).
  assert (Hrun : fst (runDecision Sample.env (Scenario.debating 2) 2 Scenario.disagreeing)
                 = Ok ?log) by (vm_compute; reflexivity).
  apply run_Ok in Hrun.
  assert (Hfuel : (Z.to_nat (debateRoundBound (Scenario.debating 2)) <= 2)%nat)
    by (vm_compute; lia).
  split; [reflexivity|]. split; [exact Hfuel|]. split; [exact Hrun|].
  destruct (debate_no_convergence Sample.env (Scenario.debating 2) 2
              Scenario.disagreeing eq_refl Hfuel) as [_ Hres].
  destruct (Hres _ _ _ Hrun eq_refl) as (Hw & Hr & Hh & l & Hl & _ & Hn).
  - vm_compute. reflexivity.
  - intros r Hr. simpl in Hr. destruct Hr as [<-|[<-|[]]]; vm_compute; reflexivity.
  - split; [exact Hw|]. split; [exact Hr|]. split; [exact Hh|].
    exists l. split; [exact Hl | exact Hn].
Defined.




(** C8 on a text that does not parse as a whole and holds a fenced block:
    the second tier gives the value. *)
Lemma extractJson_three_tiers_witness :
  let text :=
    JS.join JS.nl ["Here is my pick."; "```json"; Scenario.pick "codex" "simpler"; "```"] in
  safeJsonParse Sample.env (JS.trim text) = JNull /\
  extractJson Sample.env text =
    JObj [("winner", JStr "codex"); ("rationale", JStr "simpler")].
Proof.
  intros text. split; [vm_compute; reflexivity|].
  rewrite (extractJson_three_tiers Sample.env text). vm_compute. reflexivity.
Defined.


(** C10 on the joint run of two rounds, whose roles swap, and on the
    convergence of two rounds. *)
Lemma roles_always_distinct_witness :
  exists st w' cst cw',
    runJoint Sample.env (Scenario.pairing 3) 3 Scenario.twoRounds = (Ok st, w') /\
    List.map (fun r => (jr_driver r, jr_navigator r)) (js_history st) =
      [(codex, claude); (claude, codex)] /\
    (forall r, In r (js_history st) -> jr_driver r <> jr_navigator r) /\
    js_driver st <> js_navigator st /\
    runConverge Sample.env (Scenario.converging 2) 2 Scenario.approvedAtTwo
      = (Ok (Some cst), cw') /\
    List.map (fun r => (cr_fixer r, cr_critic r)) (cs_history cst) =
      [(codex, claude); (claude, codex)] /\
    (forall r, In r (cs_history cst) -> cr_fixer r <> cr_critic r) /\
    cs_fixer cst <> cs_critic cst.
Proof.
  eexists ?[st], (snd (runJoint Sample.env (Scenario.pairing 3) 3 Scenario.twoRounds)),
    ?[cst],
    (snd (runConverge Sample.env (Scenario.converging 2) 2 Scenario.approvedAtTwo)).
  assert (Hjoint : fst (runJoint Sample.env (Scenario.pairing 3) 3 Scenario.twoRounds)
                   = Ok ?st) by (vm_compute; reflexivity).
  assert (Hconv : fst (runConverge Sample.env (Scenario.converging 2) 2
                         Scenario.approvedAtTwo) = Ok (Some ?cst))
    by (vm_compute; reflexivity).
  apply run_Ok in Hjoint. apply run_Ok in Hconv.
  destruct (roles_always_distinct Sample.env) as (_ & Hj & Hc).
  destruct (Hj _ _ _ _ _ Hjoint) as (Hrounds & _ & Hend).
  destruct (Hc _ _ _ _ _ Hconv) as (Hcrounds & _ & Hcend).
  split; [exact Hjoint|]. split; [reflexivity|].
  split; [intros r Hr; apply (Hrounds r Hr)|]. split; [exact Hend|].
  split; [exact Hconv|]. split; [reflexivity|].
  split; [intros r Hr; apply (Hcrounds r Hr) | exact Hcend].
Defined.

(** ** Where the code departs from the specification as stated *)




(** C8: a text whose direct parse is the number 0 yields null. *)
Lemma extractJson_drops_falsy_parse :
  Sample.parse (JS.trim "0") = Some (JNum 0) /\
  extractJsonAsSpecified Sample.env "0" = JNum 0 /\
  extractJson Sample.env "0" = JNull.
Proof. repeat split; vm_compute; reflexivity. Qed.


(** ** The further properties at work *)

(** X3 on the manifest name and on a directory prefix. *)
Lemma matchesGlob_literal_and_prefix_witness :
  matchesGlob "package.json" "src\package.json" = true /\
  matchesGlob "package.json" "src/package.json.bak" = false /\
  matchesGlob "src/*" "src\lib\a.ts" = true.
Proof.
  destruct (matchesGlob_literal_and_prefix "package.json" "src\package.json" eq_refl)
    as [Hexact _].
  destruct (matchesGlob_literal_and_prefix "package.json" "src/package.json.bak" eq_refl)
    as [Hother _].
  destruct (matchesGlob_literal_and_prefix "src/" "src\lib\a.ts" eq_refl) as [_ Hprefix].
  split; [rewrite Hexact; vm_compute; reflexivity|].
  split; [rewrite Hother; vm_compute; reflexivity|].
  change ("src/" +:+ "*") with "src/*" in Hprefix. rewrite Hprefix. vm_compute. reflexivity.
Defined.

(** X5 on a review with one blocker. *)
Lemma parseReviewSummary_issues_have_summaries_witness :
  exists r,
    parseReviewSummary Sample.env Scenario.blocking = inr (Some r) /\
    List.map ri_summary (blockers r) = ["broken"] /\
    Forall (fun it => ri_summary it <> "") (blockers r) /\
    Forall (fun it => ri_summary it <> "") (warnings r).
Proof.
  eexists ?[r].
  assert (Hparse : parseReviewSummary Sample.env Scenario.blocking = inr (Some ?r))
    by (vm_compute; reflexivity).
  split; [exact Hparse|]. split; [reflexivity|].
  exact (parseReviewSummary_issues_have_summaries Sample.env _ _ Hparse).
Defined.

(** X6 on a review whose blockers are a text. *)
Lemma parseReviewSummary_rejects_non_arrays_witness :
  let text := Sample.stringify (JObj [("blockers", JStr "none"); ("warnings", JArr [])]) in
  parseReviewSummary Sample.env text = inl (TypeError "map is not a function").
Proof.
  intros text.
  apply (parseReviewSummary_rejects_non_arrays Sample.env text "blockers" (JStr "none")).
  - vm_compute. reflexivity.
  - left. reflexivity.
  - vm_compute. reflexivity.
  - discriminate.
  - intros l. discriminate.
Defined.

(** X7 on a file three directories down in an empty file system. *)
Lemma writeText_then_readText_witness :
  let p := ["w"; "notes"; "today"; "a.txt"] in
  exists w',
    writeText p "hello" (Scenario.world ∅ []) = (Ok tt, w') /\
    readText p w' = (Ok (Some "hello"), w') /\
    w_fs w' !! ["w"; "notes"] = Some Dir /\
    w_trace w' = [EMkdir ["w"; "notes"; "today"]; EWrite p "hello"].
Proof.
  intros p.
  destruct (writeText_then_readText p "hello" (Scenario.world ∅ []))
    as (w' & Hwrite & Hread & Hdirs & _ & Htrace).
  - discriminate.
  - intros q c _. cbn [w_fs Scenario.world]. rewrite lookup_empty. discriminate.
  - cbn [w_fs Scenario.world]. rewrite lookup_empty. discriminate.
  - exists w'. split; [exact Hwrite|]. split; [exact Hread|].
    split; [apply Hdirs; vm_compute; right; left; reflexivity | exact Htrace].
Defined.

(** X8 on an agent that exits with 3 after some output. *)
Lemma runAgentPhase_output_file_witness :
  let out := Sample.runDir ++ ["plan"; "codex.md"] in
  let w := Scenario.world Scenario.runFs [Sample.exits 3 "partial plan"] in
  exists result w',
    runAgentPhase Sample.env codex Sample.agent "plan" "prompt" Sample.rootDir (Some out)
      (Sample.runDir ++ ["logs"]) Sample.context None None None w = (Ok result, w') /\
    exitCode result = 3 /\
    readText out w' = (Ok (Some "partial plan"), w').
Proof.
  intros out w.
  eexists ?[result],
    (snd (runAgentPhase Sample.env codex Sample.agent "plan" "prompt" Sample.rootDir
            (Some out) (Sample.runDir ++ ["logs"]) Sample.context None None None w)).
  assert (Hrun : fst (runAgentPhase Sample.env codex Sample.agent "plan" "prompt"
                        Sample.rootDir (Some out) (Sample.runDir ++ ["logs"])
                        Sample.context None None None w) = Ok ?result)
    by (vm_compute; reflexivity).
  apply run_Ok in Hrun. split; [exact Hrun|]. split; [reflexivity|].
  destruct (runAgentPhase_output_file Sample.env _ _ _ _ _ _ _ _ _ _ _ _ _ _ Hrun)
    as [Hread _].
  exact Hread.
Defined.

(** X9 on a process that the timeout killed. *)
Lemma runCommand_exit_codes_witness :
  let o := simpleCommand "npm" ["test"] Sample.rootDir (Some 1000) in
  let w := Scenario.world Scenario.runFs [Scenario.killed] in
  exists r w1,
    runCommand Sample.env o w = (Ok r, w1) /\
    exitCode r = 124 /\ timedOut r = true /\ stdout r = "partial".
Proof.
  intros o w.
  pose proof (runCommand_exit_codes Sample.env o w eq_refl eq_refl) as H.
  change (started Sample.env o w)
    with (@inr string ProcExit Scenario.killed,
          {| w_fs := Scenario.runFs; w_ext := @nil ProcExit; w_trace := [ESpawn o] |}) in H.
  cbv beta iota in H. destruct H as (r & Hrun & Ht & _ & Hcode & Hout & _).
  exists r. eexists. split; [exact Hrun|].
  split; [exact (Hcode eq_refl)|]. split; [exact Ht | exact Hout].
Defined.

(** X13 on a status of two entries, the first of a change that is not
    staged. *)
Lemma gitStatusFiles_entries_witness :
  let w := Scenario.world Scenario.runFs [Sample.says Scenario.status] in
  exists w1,
    gitStatusFiles Sample.env Sample.rootDir w = (Ok ["rc/a.ts"; "b.ts"], w1) /\
    statusEntry " M src/a.ts" = "rc/a.ts".
Proof.
  intros w.
  destruct (gitStatusFiles_entries Sample.env Sample.rootDir w) as [_ Hentry].
  destruct (Hentry " "%char "M"%char "s"%char "src/a.t" eq_refl) as [_ Hblank].
  exists (snd (gitStatusFiles Sample.env Sample.rootDir w)).
  split; [apply run_Ok; vm_compute; reflexivity | exact (Hblank eq_refl)].
Defined.

(** X14 on the debate that agrees at once. *)
Lemma decision_json_records_decision_witness :
  exists log w',
    runDecision Sample.env (Scenario.debating 2) 0 Scenario.agreeing = (Ok log, w') /\
    w_fs w' !! (decidePhaseDir (Scenario.debating 2) ++ ["decision.json"]) =
      Some (File (Sample.stringify (decisionJson (dl_decision log)))).
Proof.
  eexists ?[log], (snd (runDecision Sample.env (Scenario.debating 2) 0 Scenario.agreeing)).
  assert (Hrun : fst (runDecision Sample.env (Scenario.debating 2) 0 Scenario.agreeing)
                 = Ok ?log) by (vm_compute; reflexivity).
  apply run_Ok in Hrun. split; [exact Hrun|].
  exact (decision_json_records_decision Sample.env _ _ _ _ _ Hrun).
Defined.

(** X15 on the mode that prefers claude. *)
Lemma rule_based_decision_witness :
  let w := Scenario.world Scenario.runFs [] in
  exists log w',
    runDecision Sample.env (Scenario.deciding prefer_claude) 0 w = (Ok log, w') /\
    d_winner (dl_decision log) = JStr "claude" /\
    exists l, w_trace w' = w_trace w ++ l /\ Forall noSpawn l.
Proof.
  intros w.
  eexists ?[log],
    (snd (runDecision Sample.env (Scenario.deciding prefer_claude) 0 w)).
  assert (Hrun : fst (runDecision Sample.env (Scenario.deciding prefer_claude) 0 w)
                 = Ok ?log) by (vm_compute; reflexivity).
  apply run_Ok in Hrun. split; [exact Hrun|].
  destruct (rule_based_decision Sample.env (Scenario.deciding prefer_claude) 0 w)
    as [_ Hres]; [discriminate | discriminate |].
  destruct (Hres _ _ Hrun) as (_ & Hwinner & _ & Hquiet).
  split; [exact Hwinner | exact Hquiet].
Defined.

(** X16 on a judge that answers without JSON. *)
Lemma judge_decision_defaults_witness :
  exists log w',
    runDecision Sample.env (Scenario.deciding judge) 0 Scenario.undecided = (Ok log, w') /\
    d_winner (dl_decision log) = JStr "neither" /\
    d_judgeAgent (dl_decision log) = Some codex /\
    w_fs w' !! (decidePhaseDir (Scenario.deciding judge) ++ ["judge.md"]) =
      Some (File "I cannot choose between the plans.").
Proof.
  eexists ?[log],
    (snd (runDecision Sample.env (Scenario.deciding judge) 0 Scenario.undecided)).
  assert (Hrun : fst (runDecision Sample.env (Scenario.deciding judge) 0
                        Scenario.undecided) = Ok ?log) by (vm_compute; reflexivity).
  apply run_Ok in Hrun. split; [exact Hrun|].
  destruct (judge_decision_defaults Sample.env (Scenario.deciding judge) _ _ _ _ eq_refl Hrun)
    as (text & Hfile & Hlog & _).
  split; [reflexivity|]. split; [reflexivity|].
  rewrite Hfile. f_equal. f_equal.
  assert (Hthere : w_fs (snd (runDecision Sample.env (Scenario.deciding judge) 0
                                Scenario.undecided))
                     !! (decidePhaseDir (Scenario.deciding judge) ++ ["judge.md"]) =
                   Some (File "I cannot choose between the plans."))
    by (vm_compute; reflexivity).
  rewrite Hfile in Hthere. injection Hthere as ->. reflexivity.
Defined.

(** X17 on the run of two rounds: the patch of round 1 is applied, round
    2 has none, and no round runs the tests. *)
Lemma joint_rounds_patches_and_tests_witness :
  exists st w',
    runJoint Sample.env (Scenario.pairing 3) 3 Scenario.twoRounds = (Ok st, w') /\
    List.map jr_applied (js_history st) = [true; false] /\
    forall r, In r (js_history st) ->
      (patchNonEmpty (jr_navigatorPatch r) = false -> jr_applied r = false) /\
      jr_testExit r = None.
Proof.
  eexists ?[st], (snd (runJoint Sample.env (Scenario.pairing 3) 3 Scenario.twoRounds)).
  assert (Hrun : fst (runJoint Sample.env (Scenario.pairing 3) 3 Scenario.twoRounds)
                 = Ok ?st) by (vm_compute; reflexivity).
  apply run_Ok in Hrun. split; [exact Hrun|]. split; [reflexivity|].
  destruct (joint_rounds_patches_and_tests Sample.env _ _ _ _ _ Hrun) as [Hrounds _].
  intros r Hr. destruct (Hrounds r Hr) as [Hpatch Htests].
  split; [exact Hpatch | apply Htests; reflexivity].
Defined.

(** X18 on a patch that git refuses with exit code 1: the step returns
    and the log holds git's message. *)
Lemma applyWinnerPatch_git_ignores_exit_witness :
  let applyLog := Sample.runDir ++ ["final"; "apply.log"] in
  exists w',
    applyWinnerPatch Sample.env Sample.rootDir Sample.runDir Scenario.codexWins true
      (Scenario.guarded false) Scenario.refused = (Ok tt, w') /\
    w_fs w' !! applyLog = Some (File "error: patch does not apply").
Proof.
  intros applyLog.
  pose proof (applyWinnerPatch_git_ignores_exit Sample.env Sample.rootDir Sample.runDir
                (Sample.rootDir ++ [".orchestrator"; "worktrees"; "r"; "codex"])
                Scenario.codexWins (Scenario.guarded false) Scenario.refused
                eq_refl eq_refl eq_refl eq_refl eq_refl) as H.
  cbv zeta in H.
  set (s := started Sample.env _ Scenario.refused) in H.
  assert (Hs : s = (inr (Sample.exits 1 "error: patch does not apply"), snd s))
    by (vm_compute; reflexivity).
  rewrite Hs in H. cbv beta iota in H. rewrite H.
  eexists. split; [apply run_Ok; vm_compute; reflexivity | vm_compute; reflexivity].
Defined.


(** X20 on the convergence of two rounds, whose review on file holds a
    blocker, and on a configuration without convergence. *)
Lemma converge_runs_only_when_needed_witness :
  runConverge Sample.env (Scenario.pairing 3) 2 Scenario.approvedAtTwo =
    (Ok None, Scenario.approvedAtTwo) /\
  exists st w' cw plan st0 w0,
    runConverge Sample.env (Scenario.converging 2) 2 Scenario.approvedAtTwo
      = (Ok (Some st), w') /\
    convergeSetup Sample.env (Scenario.converging 2) Scenario.approvedAtTwo
      = (Ok (Some (cw, plan, st0)), w0) /\
    (blockers (cs_finalReview st0) <> [] \/
     exists code, cs_lastTestExit st0 = Some code /\ code <> 0).
Proof.
  destruct (converge_runs_only_when_needed Sample.env (Scenario.pairing 3) 2
              Scenario.approvedAtTwo) as [Hoff _].
  split; [apply Hoff; left; reflexivity|].
  eexists ?[st],
    (snd (runConverge Sample.env (Scenario.converging 2) 2 Scenario.approvedAtTwo)).
  assert (Hrun : fst (runConverge Sample.env (Scenario.converging 2) 2
                        Scenario.approvedAtTwo) = Ok (Some ?st))
    by (vm_compute; reflexivity).
  apply run_Ok in Hrun.
  destruct (converge_runs_only_when_needed Sample.env (Scenario.converging 2) 2
              Scenario.approvedAtTwo) as [_ Hon].
  destruct (Hon _ _ Hrun) as (_ & _ & _ & cw & plan & st0 & w0 & Hsetup & Hneeded).
  exists cw, plan, st0, w0. split; [exact Hrun|]. split; [exact Hsetup | exact Hneeded].
Defined.

(** X21 on a copy of the worktree into the workspace: the file of the
    worktree arrives, the workspace keeps its own [.git]. *)
Lemma copyWorkspace_skips_excluded_witness :
  let w' := snd (copyWorkspace Scenario.worktree Sample.rootDir Scenario.checkout) in
  underExcluded Sample.rootDir (Sample.rootDir ++ [".git"; "HEAD"]) /\
  w_fs w' !! (Sample.rootDir ++ [".git"; "HEAD"]) = Some (File "ref: main") /\
  w_fs w' !! (Sample.rootDir ++ ["a.ts"]) = Some (File "new").
Proof.
  intros w'.
  assert (Hunder : underExcluded Sample.rootDir (Sample.rootDir ++ [".git"; "HEAD"])).
  { exists ".git", ["HEAD"]. split; reflexivity. }
  split; [exact Hunder|]. split; [|vm_compute; reflexivity].
  unfold w'.
  rewrite (copyWorkspace_skips_excluded Scenario.worktree Sample.rootDir _
             Scenario.checkout Hunder).
  vm_compute. reflexivity.
Defined.

(** X22 on a sync of the worktree into the workspace: the stale file
    goes, the new version arrives, and the workspace keeps its
    [node_modules]. *)
Lemma syncWorkspace_skips_excluded_witness :
  let w' := snd (syncWorkspace Scenario.worktree Sample.rootDir Scenario.checkout) in
  let dep := Sample.rootDir ++ ["node_modules"; "dep"; "index.js"] in
  underExcluded Sample.rootDir dep /\
  w_fs w' !! dep = Some (File "dep") /\
  w_fs w' !! (Sample.rootDir ++ ["stale.ts"]) = None /\
  w_fs w' !! (Sample.rootDir ++ ["a.ts"]) = Some (File "new").
Proof.
  intros w' dep.
  assert (Hunder : underExcluded Sample.rootDir dep).
  { exists "node_modules", ["dep"; "index.js"]. split; reflexivity. }
  split; [exact Hunder|].
  split; [|split; vm_compute; reflexivity].
  unfold w'.
  rewrite (syncWorkspace_skips_excluded Scenario.worktree Sample.rootDir _
             Scenario.checkout Hunder).
  vm_compute. reflexivity.
Defined.

(** X23 on a run with a patch of the convergence and a patch of the
    winner: the final patch is the one of the convergence. *)
Lemma runFinalPhase_patch_precedence_witness :
  exists w',
    runFinalPhase Sample.env Sample.runDir Scenario.codexWins (Scenario.guarded false)
      Scenario.finishing = (Ok tt, w') /\
    w_fs w' !! (Sample.runDir ++ ["final"; "final.patch"]) = Some (File "converged patch") /\
    w_fs w' !! (Sample.runDir ++ ["final"; "winner.json"]) =
      Some (File (Sample.stringify (decisionJson Scenario.codexWins))).
Proof.
  eexists (snd (runFinalPhase Sample.env Sample.runDir Scenario.codexWins
                  (Scenario.guarded false) Scenario.finishing)).
  assert (Hrun : fst (runFinalPhase Sample.env Sample.runDir Scenario.codexWins
                        (Scenario.guarded false) Scenario.finishing) = Ok tt)
    by (vm_compute; reflexivity).
  apply run_Ok in Hrun. split; [exact Hrun|].
  destruct (runFinalPhase_patch_precedence Sample.env _ _ _ _ _ Hrun)
    as (Hwinner & _ & _ & Hpatch).
  split; [|exact Hwinner].
  change (Fs.existsSync (w_fs Scenario.finishing)
            (Sample.runDir ++ ["converge"; "final.patch"])) with true in Hpatch.
  change (finalPatchSource Sample.runDir Scenario.codexWins (Scenario.guarded false) true)
    with (@inr exn _ (Some (Sample.runDir ++ ["converge"; "final.patch"]))) in Hpatch.
  cbv beta iota in Hpatch.
  assert (Hthere : w_fs Scenario.finishing !! (Sample.runDir ++ ["converge"; "final.patch"])
                   = Some (File "converged patch")) by (vm_compute; reflexivity).
  rewrite Hthere in Hpatch. exact Hpatch.
Defined.

(** X24 on a transcript that holds something already. *)
Lemma appendTranscript_appends_witness :
  let md := Sample.runDir ++ ["conversation"; "transcript.md"] in
  exists w' section,
    appendTranscript Sample.env Sample.runDir "decide" "system" None "note" "hello" None
      Sample.quiet Scenario.transcribed = (Ok tt, w') /\
    w_fs w' !! md = Some (File ("earlier" +:+ section)) /\
    w_fs w' !! (Sample.rootDir ++ ["package.json"]) = Some (File "{}").
Proof.
  intros md.
  eexists (snd (appendTranscript Sample.env Sample.runDir "decide" "system" None "note"
                  "hello" None Sample.quiet Scenario.transcribed)).
  assert (Hrun : fst (appendTranscript Sample.env Sample.runDir "decide" "system" None
                        "note" "hello" None Sample.quiet Scenario.transcribed) = Ok tt)
    by (vm_compute; reflexivity).
  apply run_Ok in Hrun.
  destruct (appendTranscript_appends Sample.env _ _ _ _ _ _ _ _ _ _ Hrun)
    as (_ & Hmd & Hother).
  eexists. split; [exact Hrun|]. split.
  - rewrite <- app_assoc in Hmd. exact Hmd.
  - rewrite Hother; [vm_compute; reflexivity | discriminate | discriminate |].
    vm_compute. intuition discriminate.
Defined.

(** X26 on a sentence wrapped to ten columns. *)
Lemma wrapText_fits_witness :
  exists out,
    wrapText "the quick brown fox jumps over" 10 = Some out /\
    out = ["the quick"; "brown fox"; "jumps over"] /\
    Forall (fun l => (String.length l <= 10)%nat) out.
Proof.
  destruct (wrapText_fits "the quick brown fox jumps over" 10 ltac:(lia))
    as (out & Hrun & Hfit & _).
  exists out. split; [exact Hrun|]. split; [|exact Hfit].
  vm_compute in Hrun. injection Hrun as <-. reflexivity.
Defined.

(** X27 on the sync of the worktree into the workspace: the new version
    of [a.ts] arrives. *)
Lemma syncWorkspace_copies_source_witness :
  exists w',
    syncWorkspace Scenario.worktree Sample.rootDir Scenario.checkout = (Ok tt, w') /\
    w_fs Scenario.checkout !! (Sample.rootDir ++ ["a.ts"]) = Some (File "old") /\
    w_fs w' !! (Sample.rootDir ++ ["a.ts"]) = Some (File "new").
Proof.
  eexists (snd (syncWorkspace Scenario.worktree Sample.rootDir Scenario.checkout)).
  assert (Hrun : fst (syncWorkspace Scenario.worktree Sample.rootDir Scenario.checkout)
                 = Ok tt) by (vm_compute; reflexivity).
  apply run_Ok in Hrun. split; [exact Hrun|]. split; [vm_compute; reflexivity|].
  apply (syncWorkspace_copies_source Scenario.worktree Sample.rootDir Scenario.checkout _
           "a.ts" [] "new" Hrun).
  - reflexivity.
  - vm_compute. reflexivity.
  - left. reflexivity.
Defined.

(** X28 on the copy of the worktree into the workspace. *)
Lemma copyWorkspace_copies_source_witness :
  exists w',
    copyWorkspace Scenario.worktree Sample.rootDir Scenario.checkout = (Ok tt, w') /\
    w_fs w' !! (Sample.rootDir ++ ["a.ts"]) = Some (File "new").
Proof.
  eexists (snd (copyWorkspace Scenario.worktree Sample.rootDir Scenario.checkout)).
  assert (Hrun : fst (copyWorkspace Scenario.worktree Sample.rootDir Scenario.checkout)
                 = Ok tt) by (vm_compute; reflexivity).
  apply run_Ok in Hrun. split; [exact Hrun|].
  apply (copyWorkspace_copies_source Scenario.worktree Sample.rootDir Scenario.checkout _
           "a.ts" [] "new" Hrun).
  - reflexivity.
  - vm_compute. reflexivity.
  - vm_compute. discriminate.
  - reflexivity.
Defined.

(** X29 on a store of three entries: two match the query, the better
    match first; a query of short words finds nothing. *)
Lemma memoryQuery_results_witness :
  exists result scores,
    memoryQuery Sample.env Scenario.memoryFile "the PARSER, tests!" 5 Scenario.remembering
      = (Ok result, Scenario.remembering) /\
    List.map (fun entry => Json.getProp entry "text") result =
      [Some (JStr "Guardrails for the parser tests"); Some (JStr "Fixed the parser")] /\
    Forall2 (fun entry score =>
               scoreEntry entry "the PARSER, tests!" = inr score /\ 0 < score)
      result scores /\
    descending scores /\
    fst (memoryQuery Sample.env Scenario.memoryFile "a of" 5 Scenario.remembering) = Ok [].
Proof.
  destruct (memoryQuery_results Sample.env Scenario.memoryFile "the PARSER, tests!" 5
              Scenario.remembering) as [_ Hfound].
  destruct (memoryQuery_results Sample.env Scenario.memoryFile "a of" 5
              Scenario.remembering) as [_ Hshort].
  eexists ?[result].
  assert (Hrun : fst (memoryQuery Sample.env Scenario.memoryFile "the PARSER, tests!" 5
                        Scenario.remembering) = Ok ?result) by (vm_compute; reflexivity).
  apply run_Ok in Hrun.
  destruct (Hfound _ _ Hrun) as (Hsame & _ & _ & _ & scores & Hscores & Hsorted).
  exists scores. rewrite Hsame in Hrun. split; [exact Hrun|]. split; [reflexivity|].
  split; [exact Hscores|]. split; [exact Hsorted|].
  destruct (memoryQuery Sample.env Scenario.memoryFile "a of" 5 Scenario.remembering)
    as [[found|e|] w1] eqn:Hq; try (vm_compute in Hq; discriminate Hq).
  destruct (Hshort _ _ eq_refl) as (_ & _ & Hnone & _).
  cbn [fst]. f_equal. apply Hnone. reflexivity.
Defined.

(** X30 on a first entry put into a store that is not there yet. *)
Lemma memoryPut_appends_witness :
  let entry := Scenario.remembered "Fixed the parser" ["full"] in
  exists w',
    memoryPut Sample.env Scenario.memoryFile entry (Scenario.world ∅ []) = (Ok tt, w') /\
    w_fs w' !! Scenario.memoryFile = Some (File (Sample.stringify entry +:+ JS.nl)).
Proof.
  intros entry.
  eexists (snd (memoryPut Sample.env Scenario.memoryFile entry (Scenario.world ∅ []))).
  assert (Hrun : fst (memoryPut Sample.env Scenario.memoryFile entry (Scenario.world ∅ []))
                 = Ok tt) by (vm_compute; reflexivity).
  apply run_Ok in Hrun. split; [exact Hrun|].
  destruct (memoryPut_appends Sample.env _ _ _ _ Hrun) as [Hfile _].
  exact Hfile.
Defined.
